(** * A shallow embedding of the free-list allocator of [src/alloc.c]

    The allocator keeps every block behind a [free_block] header, threads
    the free blocks through their [next] fields starting at the global
    [HEAD], grows the heap with [sbrk], and guards every allocation with a
    [MAGIC_NUMBER] written right after the payload.

    The code works on raw addresses, so the embedding does too: memory is
    a function from addresses to bytes, header fields are read and written
    as little-endian machine words, pointer and [size_t] arithmetic wraps
    modulo [2^64], and the loops over the free list take fuel, because a
    list threaded through client-writable memory may be cyclic. *)

From Stdlib Require Import String ZArith List Lia Bool.
Import ListNotations.
Open Scope Z_scope.

(** ** Machine parameters *)

(** Modelled from the spec: [alloc.h], which declares [free_block], is not
    among the sources.  The header has the two fields the spec lists, in
    the order it lists them: [size] (a [size_t], offset 0) and [next] (a
    pointer, offset 8), on an LP64 little-endian machine; [int] has four
    bytes. *)
Module Layout.
Definition WORD : Z := 18446744073709551616.      (* 2^64 *)
Definition sizeof_free_block : Z := 16.
Definition sizeof_int : Z := 4.
Definition off_size : Z := 0.
Definition off_next : Z := 8.
End Layout.
Import Layout.

Definition MAGIC_NUMBER : Z := 19088743.            (* 0x01234567 *)

(** [size_t] and pointer arithmetic: reduction modulo [2^64]. *)
Definition wrap (x : Z) : Z := x mod WORD.

(** Conversion of a [size_t] to [int] (two's complement truncation), as
    happens when [tumalloc] passes its [size_t size] to [split]. *)
Definition to_int (x : Z) : Z := (x + 2147483648) mod 4294967296 - 2147483648.

(** ** Byte-addressed memory *)

Definition mem := Z -> Z.

Definition upd (m : mem) (a b : Z) : mem :=
  fun x => if x =? a then b else m x.

(** Little-endian load of [n] bytes at [a]. *)
Fixpoint load (n : nat) (m : mem) (a : Z) : Z :=
  match n with
  | O => 0
  | S k => (m a) mod 256 + 256 * load k m (a + 1)
  end.

(** Little-endian store of the low [n] bytes of [v] at [a]. *)
Fixpoint store (n : nat) (m : mem) (a v : Z) : mem :=
  match n with
  | O => m
  | S k => store k (upd m a (v mod 256)) (a + 1) (v / 256)
  end.

(** [memcpy(d, s, n)] for regions that do not overlap and [memset(d, c, n)]. *)
Definition memcpy (m : mem) (d s n : Z) : mem :=
  fun a => if (d <=? a) && (a <? d + n) then m (s + (a - d)) else m a.

Definition memset (m : mem) (d c n : Z) : mem :=
  fun a => if (d <=? a) && (a <? d + n) then c else m a.

(** Header fields. *)
Definition size_of (m : mem) (b : Z) : Z := load 8 m (b + off_size).
Definition next_of (m : mem) (b : Z) : Z := load 8 m (b + off_next).
Definition set_size (m : mem) (b v : Z) : mem := store 8 m (b + off_size) v.
Definition set_next (m : mem) (b v : Z) : mem := store 8 m (b + off_next) v.

(** ** Allocator state *)

(** The heap bytes, the global [HEAD], the program break, and two pieces
    of bookkeeping the claims talk about: how often [sbrk] was called, and
    what was printed on [stderr]. *)
Record state : Type := mkState {
  heap : mem;
  HEAD : Z;
  brk : Z;
  sbrk_calls : nat;
  diag : list string
}.

Definition with_heap (s : state) (m : mem) : state :=
  mkState m (HEAD s) (brk s) (sbrk_calls s) (diag s).
Definition with_HEAD (s : state) (h : Z) : state :=
  mkState (heap s) h (brk s) (sbrk_calls s) (diag s).
Definition fprintf_stderr (msg : string) (s : state) : state :=
  mkState (heap s) (HEAD s) (brk s) (sbrk_calls s) (diag s ++ [msg]).

(** What a call can end in: a normal return, [abort()], or a loop that
    has not left the free list when the fuel is used up. *)
Inductive outcome (A : Type) : Type :=
| Done (r : A) (s : state)
| Aborted (s : state)
| OutOfFuel.
Arguments Done {A} r s.
Arguments Aborted {A} s.
Arguments OutOfFuel {A}.

(** ** The operating system's heap-growth primitive *)

(** [sbrk(incr)]: the caller of the allocator says, per call, whether the
    system grants the request ([ok]).  On success the old break is
    returned and the break moves; on failure the result is [(void * )-1]. *)
Definition sbrk (ok : bool) (incr : Z) (s : state) : Z * state :=
  if ok
  then (brk s, mkState (heap s) (HEAD s) (wrap (brk s + incr)) (S (sbrk_calls s)) (diag s))
  else (WORD - 1, mkState (heap s) (HEAD s) (brk s) (S (sbrk_calls s)) (diag s)).

(** ** The functions of [alloc.c] *)

(** [split(block, size)], [size] being an [int].  [NULL] is [0]. *)
Definition split (m : mem) (block size : Z) : Z * mem :=
  if size_of m block <? wrap (wrap size + sizeof_free_block) then (0, m)
  else
    let new_block := wrap (block + size + sizeof_free_block) in
    let m1 := set_size m new_block
                (wrap (size_of m block - wrap size - sizeof_free_block)) in
    let m2 := set_next m1 new_block (next_of m1 block) in
    let m3 := set_size m2 block (wrap size) in
    let m4 := set_next m3 block new_block in
    (block, m4).

(** [find_prev(block)]: the first list entry whose end is [block]. *)
Fixpoint find_prev_from (fuel : nat) (m : mem) (curr block : Z) : option Z :=
  match fuel with
  | O => None
  | S f =>
      if curr =? 0 then Some 0
      else if wrap (curr + size_of m curr + sizeof_free_block) =? block
           then Some curr
           else find_prev_from f m (next_of m curr) block
  end.

Definition find_prev (fuel : nat) (s : state) (block : Z) : option Z :=
  find_prev_from fuel (heap s) (HEAD s) block.

(** [find_next(block)]: the list entry that starts where [block] ends. *)
Fixpoint find_next_from (fuel : nat) (m : mem) (curr block_end : Z) : option Z :=
  match fuel with
  | O => None
  | S f =>
      if curr =? 0 then Some 0
      else if curr =? block_end then Some curr
           else find_next_from f m (next_of m curr) block_end
  end.

Definition find_next (fuel : nat) (s : state) (block : Z) : option Z :=
  find_next_from fuel (heap s) (HEAD s)
    (wrap (block + size_of (heap s) block + sizeof_free_block)).

(** [remove_free_block(block)]. *)
Fixpoint remove_from (fuel : nat) (m : mem) (curr block : Z) : option mem :=
  match fuel with
  | O => None
  | S f =>
      if curr =? 0 then Some m
      else if next_of m curr =? block
           then Some (set_next m curr (next_of m block))
           else remove_from f m (next_of m curr) block
  end.

Definition remove_free_block (fuel : nat) (block : Z) (s : state) : option state :=
  if HEAD s =? block then Some (with_HEAD s (next_of (heap s) block))
  else match remove_from fuel (heap s) (HEAD s) block with
       | Some m => Some (with_heap s m)
       | None => None
       end.

(** [coalesce(block)]: both neighbours are looked up first, then the
    previous one absorbs [block], then the (possibly merged) block absorbs
    the next one. *)
Definition merge_prev (m : mem) (prev block : Z) : Z * mem :=
  if prev =? 0 then (block, m)
  else if wrap (prev + size_of m prev + sizeof_free_block) =? block then
    let m1 := set_size m prev
                (wrap (size_of m prev + wrap (size_of m block + sizeof_free_block))) in
    let m2 := if next_of m1 prev =? block
              then set_next m1 prev (next_of m1 block) else m1 in
    (prev, m2)
  else (block, m).

Definition merge_next (m : mem) (block next : Z) : mem :=
  if next =? 0 then m
  else if wrap (block + size_of m block + sizeof_free_block) =? next then
    let m1 := set_size m block
                (wrap (size_of m block + wrap (size_of m next + sizeof_free_block))) in
    set_next m1 block (next_of m1 next)
  else m.

Definition coalesce (fuel : nat) (block : Z) (s : state) : option (Z * state) :=
  if block =? 0 then Some (0, s)
  else
    match find_prev fuel s block, find_next fuel s block with
    | Some prev, Some next =>
        let (block', m1) := merge_prev (heap s) prev block in
        Some (block', with_heap s (merge_next m1 block' next))
    | _, _ => None
    end.

(** [do_alloc(size)].  In the source text the brace that opens the failure
    branch ([if (ptr == (void * )-1) {], line 147) has no partner before the
    header is initialised, so the file does not balance its braces; the
    embedding follows the indentation and the function's documentation:
    the branch ends after [return NULL;]. *)
Definition do_alloc (ok : bool) (size : Z) (s : state) : Z * state :=
  let (ptr, s1) :=
    sbrk ok (wrap (wrap (size + sizeof_free_block) + sizeof_int)) s in
  if ptr =? WORD - 1 then (0, s1)
  else
    let m1 := set_size (heap s1) ptr size in
    let m2 := set_next m1 ptr 0 in
    (ptr, with_heap s1 m2).

(** The two places where [tumalloc] falls back on [do_alloc] (lines
    164-173 and 211-220) are the same code. *)
Definition extend_heap (ok : bool) (size : Z) (s : state) : outcome Z :=
  let (new_block, s1) := do_alloc ok size s in
  if new_block =? 0
  then Done 0 (fprintf_stderr "Allocation failed in do_alloc\n" s1)
  else
    let m1 := store 4 (heap s1)
                (wrap (new_block + sizeof_free_block + size)) MAGIC_NUMBER in
    Done (wrap (new_block + sizeof_free_block)) (with_heap s1 m1).

(** The body of [tumalloc]'s [while] loop for a block that is large
    enough to split. *)
Definition take_block (size : Z) (s : state) (curr prev : Z) : outcome Z :=
  let (header, m1) := split (heap s) curr (to_int size) in
  if header =? 0
  then Done 0 (fprintf_stderr "Split failed in tumalloc\n" s)
  else
    let s2 := if prev =? 0
              then with_HEAD (with_heap s m1) (next_of m1 curr)
              else with_heap s (set_next m1 prev (next_of m1 curr)) in
    let m3 := set_size (heap s2) header size in
    let m4 := store 4 m3 (wrap (header + sizeof_free_block + size)) MAGIC_NUMBER in
    Done (wrap (header + sizeof_free_block)) (with_heap s2 m4).

Fixpoint first_fit (fuel : nat) (ok : bool) (size : Z) (s : state)
         (curr prev : Z) : outcome Z :=
  match fuel with
  | O => OutOfFuel
  | S f =>
      if curr =? 0 then extend_heap ok size s
      else if size <=? size_of (heap s) curr then
        if size_of (heap s) curr <? wrap (size + sizeof_free_block)
        then first_fit f ok size s (next_of (heap s) curr) curr
        else take_block size s curr prev
      else first_fit f ok size s (next_of (heap s) curr) curr
  end.

Definition tumalloc (fuel : nat) (ok : bool) (size : Z) (s : state) : outcome Z :=
  if HEAD s =? 0 then extend_heap ok size s
  else first_fit fuel ok size s (HEAD s) 0.

Definition tucalloc (fuel : nat) (ok : bool) (num size : Z) (s : state) : outcome Z :=
  let total_size := wrap (num * size) in
  match tumalloc fuel ok total_size s with
  | Done ptr s1 =>
      if ptr =? 0 then Done ptr s1
      else Done ptr (with_heap s1 (memset (heap s1) ptr 0 total_size))
  | Aborted s1 => Aborted s1
  | OutOfFuel => OutOfFuel
  end.

(** The first half of [tufree]: the header becomes the head of the list
    (lines 279-282). *)
Definition push_front (header : Z) (s : state) : state :=
  let m1 := set_size (heap s) header (size_of (heap s) header) in
  let m2 := set_next m1 header (HEAD s) in
  with_HEAD (with_heap s m2) header.

(** The word that [tufree] compares with [MAGIC_NUMBER]. *)
Definition sentinel_of (m : mem) (header : Z) : Z :=
  to_int (load 4 m (wrap (header + sizeof_free_block + size_of m header))).

Definition tufree (fuel : nat) (ptr : Z) (s : state) : outcome unit :=
  if ptr =? 0 then Done tt s
  else
    let header := wrap (ptr - sizeof_free_block) in
    if sentinel_of (heap s) header =? MAGIC_NUMBER
    then
      match coalesce fuel header (push_front header s) with
      | Some (_, s') => Done tt s'
      | None => OutOfFuel
      end
    else Aborted (fprintf_stderr "MEMORY CORRUPTION DETECTED\n" s).

Definition turealloc (fuel : nat) (ok : bool) (ptr new_size : Z) (s : state)
  : outcome Z :=
  if ptr =? 0 then tumalloc fuel ok new_size s
  else
    let header := wrap (ptr - sizeof_free_block) in
    if new_size <=? size_of (heap s) header then Done ptr s
    else
      match tumalloc fuel ok new_size s with
      | Done new_ptr s1 =>
          if new_ptr =? 0 then Done 0 s1
          else
            let m2 := memcpy (heap s1) new_ptr ptr (size_of (heap s1) header) in
            match tufree fuel ptr (with_heap s1 m2) with
            | Done _ s3 => Done new_ptr s3
            | Aborted s3 => Aborted s3
            | OutOfFuel => OutOfFuel
            end
      | Aborted s1 => Aborted s1
      | OutOfFuel => OutOfFuel
      end.

(** ** The free list as the code sees it *)

(** [flist m h l]: starting at [h] and following [next], the code visits
    exactly the headers [l] and then reaches [NULL]. *)
Fixpoint flist (m : mem) (h : Z) (l : list Z) : Prop :=
  match l with
  | [] => h = 0
  | x :: t => h = x /\ x <> 0 /\ flist m (next_of m x) t
  end.

(** The headers met in at most [fuel] steps from [h]; on a cyclic list
    the walk repeats entries until the fuel is gone. *)
Fixpoint walk (fuel : nat) (m : mem) (h : Z) : list Z :=
  match fuel with
  | O => []
  | S f => if h =? 0 then [] else h :: walk f m (next_of m h)
  end.

(** ** Calls and traces *)

(** One call of the public interface; [ok] is the system's answer should
    the call reach [sbrk]. *)
Inductive call : Type :=
| Allocate (ok : bool) (size : Z)
| AllocateZeroed (ok : bool) (num size : Z)
| Reallocate (ok : bool) (ptr size : Z)
| Release (ptr : Z).

(** A program state together with the payload pointers that were handed
    out and not yet released. *)
Record traced : Type := mkTraced { now : state; live : list Z }.

Definition remove_ptr (p : Z) (l : list Z) : list Z :=
  filter (fun q => negb (q =? p)) l.

Definition add_ptr (p : Z) (l : list Z) : list Z :=
  if p =? 0 then l else p :: l.

(** The effect of one call; [None] when the process has aborted or a loop
    did not finish. *)
Definition step (fuel : nat) (c : call) (t : traced) : option traced :=
  match c with
  | Allocate ok size =>
      match tumalloc fuel ok size (now t) with
      | Done p s => Some (mkTraced s (add_ptr p (live t)))
      | _ => None
      end
  | AllocateZeroed ok num size =>
      match tucalloc fuel ok num size (now t) with
      | Done p s => Some (mkTraced s (add_ptr p (live t)))
      | _ => None
      end
  | Reallocate ok ptr size =>
      match turealloc fuel ok ptr size (now t) with
      | Done p s =>
          if p =? 0 then Some (mkTraced s (live t))
          else if p =? ptr then Some (mkTraced s (live t))
          else Some (mkTraced s (add_ptr p (remove_ptr ptr (live t))))
      | _ => None
      end
  | Release ptr =>
      match tufree fuel ptr (now t) with
      | Done _ s => Some (mkTraced s (remove_ptr ptr (live t)))
      | _ => None
      end
  end.

Fixpoint run (fuel : nat) (cs : list call) (t : traced) : option traced :=
  match cs with
  | [] => Some t
  | c :: rest =>
      match step fuel c t with
      | Some t' => run fuel rest t'
      | None => None
      end
  end.

(** The empty heap: nothing on the free list, nothing handed out. *)
Definition empty_heap (base : Z) : traced :=
  mkTraced (mkState (fun _ => 0) 0 base 0 []) [].

(** ** Derived notions and sample states *)

(** A heap with one allocated block of 100 bytes at 4096, as
    [tumalloc(100)] leaves it on the empty heap. *)
Definition one_block : state :=
  mkState (store 4 (set_next (set_size (fun _ => 0) 4096 100) 4096 0)
                 4212 MAGIC_NUMBER)
          0 4216 1 [].

(** A block reaches from its header to the end of the payload its header
    records. *)
Definition block_end (m : mem) (x : Z) : Z :=
  x + sizeof_free_block + size_of m x.

Definition disjoint_blocks (m : mem) (l : list Z) : Prop :=
  ForallOrdPairs (fun x y => block_end m x <= y \/ block_end m y <= x) l.

(** Two free blocks: 40 bytes at 4096, then 100 bytes at 8192. *)
Definition two_free : state :=
  mkState (set_next (set_size (set_next (set_size (fun _ => 0) 4096 40) 4096 8192)
                              8192 100) 8192 0)
          4096 16384 0 [].

(** The free list as the code walks it: each header with the size it
    records. *)
Definition free_entries (fuel : nat) (s : state) : list (Z * Z) :=
  map (fun b => (b, size_of (heap s) b)) (walk fuel (heap s) (HEAD s)).

(** Three blocks from the heap extender (headers at 4096, 4216 and
    19092911); the first is released and 40 of its bytes are handed out
    again, which leaves a free remainder at 4152 whose header says that
    it ends at 19092911; then the third block is released. *)
Definition release_behind_free : list call :=
  [Allocate true 100; Allocate true 19088675; Allocate true 8;
   Release 4112; Allocate true 40; Release 19092927].

(** Two blocks from the heap extender; the first is released and reused
    for requests of 40 and of 48 bytes. *)
Definition reuse_twice : list call :=
  [Allocate true 100; Allocate true 50; Release 4112;
   Allocate true 40; Allocate true 48].

(** The state a run from the empty heap at [base] ends in. *)
Definition state_after (cs : list call) (base : Z) : state :=
  match run 10 cs (empty_heap base) with
  | Some t => now t
  | None => now (empty_heap base)
  end.

Definition state_of {A : Type} (o : outcome A) (otherwise : state) : state :=
  match o with
  | Done _ s => s
  | Aborted s => s
  | OutOfFuel => otherwise
  end.

(** A block is obtained, released, and 40 of its 100 bytes are handed out
    again: the block at 4096 is allocated, the remainder at 4152 is free. *)
Definition split_once : list call :=
  [Allocate true 100; Release 4112; Allocate true 40].


(** Two allocated blocks, the second starting where the payload of the
    first ends: a block of 32 bytes at 4096 and a block of 19088743 bytes
    at 4144, both with their sentinel intact (the sentinel of the first is
    the low half of the size of the second), and one free block of 64
    bytes at 1024. *)
Definition adjacent_pair : state :=
  mkState
    (store 4
       (set_size
          (set_size (set_next (set_size (fun _ => 0) 1024 64) 1024 0) 4096 32)
          4144 MAGIC_NUMBER)
       (4144 + sizeof_free_block + MAGIC_NUMBER) MAGIC_NUMBER)
    1024 (4144 + sizeof_free_block + MAGIC_NUMBER + sizeof_int) 0 [].




(** The two lines [tumalloc] prints when it fails. *)
Definition do_alloc_failed : string := "Allocation failed in do_alloc\n".
Definition split_failed : string := "Split failed in tumalloc\n".

(** Three free blocks, listed in the order 4096 (32 bytes), 8192 (64
    bytes), 4144 (100 bytes): the first entry ends where the last one
    starts. *)
Definition three_free : state :=
  mkState
    (set_next (set_size
       (set_next (set_size
          (set_next (set_size (fun _ => 0) 4096 32) 4096 8192)
          8192 64) 8192 4144)
       4144 100) 4144 0)
    4096 16384 0 [].

(** Three free blocks that follow each other in memory, 4096 (32 bytes),
    4144 (48 bytes) and 4208 (100 bytes), listed in the order 4144, 4208,
    4096: the head has both neighbours on the list, the next one first. *)
Definition both_neighbours : state :=
  mkState
    (set_next (set_size
       (set_next (set_size
          (set_next (set_size (fun _ => 0) 4144 48) 4144 4208)
          4208 100) 4208 4096)
       4096 32) 4096 0)
    4144 16384 0 [].

(** A block of [2^32] bytes is obtained and released. *)
Definition large_block_released : list call :=
  [Allocate true 4294967296; Release 4112].

(** Two blocks from the heap extender; the first is released and 40 of its
    bytes are handed out again; then the second is released. *)
Definition release_beside_remainder : list call :=
  [Allocate true 100; Allocate true 50; Release 4112;
   Allocate true 40; Release 4232].

(** Two blocks from the heap extender, the second of 10 bytes (pointer
    4232, still allocated at the end); the first is released and 40 of its
    bytes are handed out again. *)
Definition grow_after_reuse : list call :=
  [Allocate true 100; Allocate true 10; Release 4112; Allocate true 40].

(** Two blocks from consecutive heap extensions (headers 4096 and
    19092911); the first is released, 40 of its bytes are handed out again
    and released again. *)
Definition extension_pair_reused : list call :=
  [Allocate true 19088795; Allocate true 50; Release 4112;
   Allocate true 40; Release 4112].

(** Headers of which no two overlap. *)
Definition separated (l : list Z) : Prop :=
  ForallOrdPairs (fun x y => x + sizeof_free_block <= y \/
                             y + sizeof_free_block <= x) l.

(** ** Facts about memory *)

Lemma pow256_pos : forall n : nat, 0 < 256 ^ Z.of_nat n.
Proof. intro n. apply Z.pow_pos_nonneg; lia. Qed.

Lemma store_spec : forall n m a v x,
  store n m a v x =
  if (a <=? x) && (x <? a + Z.of_nat n) then (v / 256 ^ (x - a)) mod 256 else m x.
Proof.
  induction n as [|k IH]; intros m a v x.
  - cbn [store]. destruct (Z.leb_spec a x); destruct (Z.ltb_spec x (a + Z.of_nat 0));
      cbn [andb]; auto; lia.
  - cbn [store]. rewrite IH. unfold upd. rewrite Nat2Z.inj_succ.
    destruct (Z.leb_spec (a + 1) x); destruct (Z.ltb_spec x (a + 1 + Z.of_nat k));
      destruct (Z.leb_spec a x); destruct (Z.ltb_spec x (a + Z.succ (Z.of_nat k)));
      destruct (Z.eqb_spec x a); cbn [andb]; try lia; auto.
    + rewrite Z.div_div by (try apply Z.pow_pos_nonneg; lia).
      replace (x - a) with (1 + (x - (a + 1))) by lia.
      rewrite Z.pow_add_r by lia. reflexivity.
    + subst x. rewrite Z.sub_diag, Z.pow_0_r, Z.div_1_r. reflexivity.
Qed.

Lemma store_outside : forall n m a v x,
  x < a \/ a + Z.of_nat n <= x -> store n m a v x = m x.
Proof.
  intros. rewrite store_spec.
  destruct (Z.leb_spec a x); destruct (Z.ltb_spec x (a + Z.of_nat n));
    cbn [andb]; auto; lia.
Qed.

Lemma load_ext : forall n m m' a,
  (forall x, a <= x < a + Z.of_nat n -> m x = m' x) -> load n m a = load n m' a.
Proof.
  induction n as [|k IH]; intros m m' a H; cbn [load]; auto.
  rewrite (H a) by lia. rewrite (IH m m' (a + 1)); auto.
  intros. apply H. lia.
Qed.

Lemma load_range : forall n m a, 0 <= load n m a < 256 ^ Z.of_nat n.
Proof.
  induction n as [|k IH]; intros m a; cbn [load].
  - simpl. lia.
  - specialize (IH m (a + 1)).
    assert (0 <= m a mod 256 < 256) by (apply Z.mod_pos_bound; lia).
    rewrite Nat2Z.inj_succ, Z.pow_succ_r by lia. lia.
Qed.

Lemma load_of_bytes : forall n m a v,
  (forall i, 0 <= i < Z.of_nat n -> m (a + i) = (v / 256 ^ i) mod 256) ->
  load n m a = v mod 256 ^ Z.of_nat n.
Proof.
  induction n as [|k IH]; intros m a v H; cbn [load].
  - simpl. rewrite Z.mod_1_r. reflexivity.
  - rewrite (IH m (a + 1) (v / 256)).
    + replace (m a) with (v mod 256).
      * rewrite Z.mod_mod by lia.
        rewrite Nat2Z.inj_succ, Z.pow_succ_r by lia.
        rewrite Z.rem_mul_r; [reflexivity | lia | apply pow256_pos].
      * specialize (H 0). rewrite Z.add_0_r, Z.pow_0_r, Z.div_1_r in H.
        symmetry. apply H. lia.
    + intros i Hi. replace (a + 1 + i) with (a + (1 + i)) by lia.
      rewrite H by lia.
      rewrite Z.div_div by (try apply Z.pow_pos_nonneg; lia).
      rewrite Z.pow_add_r by lia. reflexivity.
Qed.

Lemma load_store_same : forall n m a v,
  load n (store n m a v) a = v mod 256 ^ Z.of_nat n.
Proof.
  intros. apply load_of_bytes. intros i Hi. rewrite store_spec.
  destruct (Z.leb_spec a (a + i)); destruct (Z.ltb_spec (a + i) (a + Z.of_nat n));
    cbn [andb]; try lia.
  f_equal. f_equal. f_equal. lia.
Qed.

Lemma load_store_other : forall n n' m a a' v,
  a' + Z.of_nat n' <= a \/ a + Z.of_nat n <= a' ->
  load n' (store n m a v) a' = load n' m a'.
Proof.
  intros. apply load_ext. intros x Hx. apply store_outside. lia.
Qed.

Lemma load8_store8_same : forall m a v,
  0 <= v < WORD -> load 8 (store 8 m a v) a = v.
Proof.
  intros. rewrite load_store_same. apply Z.mod_small. exact H.
Qed.

Lemma load4_store4_same : forall m a v,
  0 <= v < 4294967296 -> load 4 (store 4 m a v) a = v.
Proof.
  intros. rewrite load_store_same. apply Z.mod_small. exact H.
Qed.

Lemma load8_range : forall m a, 0 <= load 8 m a < WORD.
Proof. intros. apply (load_range 8). Qed.

Lemma wrap_range : forall x, 0 <= wrap x < WORD.
Proof. intro x. unfold wrap. apply Z.mod_pos_bound. reflexivity. Qed.

Lemma wrap_small : forall x, 0 <= x < WORD -> wrap x = x.
Proof. intros. unfold wrap. apply Z.mod_small. assumption. Qed.

Lemma to_int_small : forall x, 0 <= x < 2147483648 -> to_int x = x.
Proof.
  intros. unfold to_int. rewrite Z.mod_small by lia. lia.
Qed.

Lemma size_of_range : forall m b, 0 <= size_of m b < WORD.
Proof. intros. apply load8_range. Qed.

Lemma next_of_range : forall m b, 0 <= next_of m b < WORD.
Proof. intros. apply load8_range. Qed.

Arguments load : simpl never.
Arguments store : simpl never.

(** Unfolding the field accessors down to [load] and [store]. *)
Ltac fields :=
  unfold size_of, next_of, set_size, set_next, off_size, off_next,
         sizeof_free_block, sizeof_int in *.

Lemma wrap_add_idem : forall a b, wrap (a + wrap b) = wrap (a + b).
Proof. intros. unfold wrap. apply Z.add_mod_idemp_r. discriminate. Qed.

Lemma wrap_add_idem_l : forall a b, wrap (wrap a + b) = wrap (a + b).
Proof. intros. unfold wrap. apply Z.add_mod_idemp_l. discriminate. Qed.

(** Arithmetic modulo [2^64] by linear reasoning on quotients. *)
Ltac wrap_lia :=
  unfold wrap, to_int, WORD, sizeof_free_block, sizeof_int, MAGIC_NUMBER in *;
  Z.div_mod_to_equations; lia.

(** ** The heap extender *)

(** C2.  For every payload size: when [sbrk] grants the request (and does
    not answer with the failure value itself), [do_alloc] returns the old
    break, the header there records the requested size and a null [next],
    and nothing else in memory changes; when [sbrk] refuses, [do_alloc]
    returns [NULL] as an ordinary result, with memory, free list and break
    as they were. *)
Theorem do_alloc_contract :
  forall (size : Z) (s : state),
    0 <= size < WORD ->
    brk s <> WORD - 1 ->
    (exists s',
        do_alloc true size s = (brk s, s') /\
        size_of (heap s') (brk s) = size /\
        next_of (heap s') (brk s) = 0 /\
        (forall x, x < brk s \/ brk s + sizeof_free_block <= x ->
                   heap s' x = heap s x) /\
        HEAD s' = HEAD s /\
        brk s' = wrap (brk s + (size + sizeof_free_block + sizeof_int)) /\
        diag s' = diag s) /\
    (exists s',
        do_alloc false size s = (0, s') /\
        heap s' = heap s /\ HEAD s' = HEAD s /\ brk s' = brk s /\
        diag s' = diag s).
Proof.
  intros size s Hsize Hbrk. split.
  - unfold do_alloc, sbrk. cbn [fst snd].
    destruct (Z.eqb_spec (brk s) (WORD - 1)) as [E|_]; [contradiction|].
    eexists. split; [reflexivity|]. cbn [heap HEAD brk diag with_heap].
    repeat split.
    + fields. rewrite load_store_other by (cbn; lia).
      apply load8_store8_same. exact Hsize.
    + fields. apply load8_store8_same. unfold WORD. lia.
    + intros x Hx. fields.
      rewrite !store_outside by (cbn; lia). reflexivity.
    + wrap_lia.
  - unfold do_alloc, sbrk. rewrite Z.eqb_refl. eexists. split; [reflexivity|].
    cbn. auto.
Qed.

Lemma do_alloc_contract_witness :
  let s := mkState (fun _ => 0) 0 4096 0 [] in
  (exists s',
      do_alloc true 100 s = (4096, s') /\
      size_of (heap s') 4096 = 100 /\
      next_of (heap s') 4096 = 0 /\
      (forall x, x < 4096 \/ 4096 + sizeof_free_block <= x -> heap s' x = heap s x) /\
      HEAD s' = HEAD s /\
      brk s' = wrap (4096 + (100 + sizeof_free_block + sizeof_int)) /\
      diag s' = diag s) /\
  (exists s',
      do_alloc false 100 s = (0, s') /\
      heap s' = heap s /\ HEAD s' = HEAD s /\ brk s' = brk s /\ diag s' = diag s).
Proof.
  apply (do_alloc_contract 100 (mkState (fun _ => 0) 0 4096 0 [])).
  - unfold WORD. lia.
  - cbn. unfold WORD. lia.
Defined.

(** ** Facts about the free list *)

Lemma flist_ext : forall m m' l h,
  (forall x, In x l -> next_of m' x = next_of m x) ->
  flist m h l -> flist m' h l.
Proof.
  induction l as [|x t IH]; intros h Hn Hl; cbn [flist] in *; auto.
  destruct Hl as (Hh & Hx & Ht). repeat split; auto.
  rewrite Hn by (left; reflexivity).
  apply IH; auto. intros y Hy. apply Hn. right. exact Hy.
Qed.

Lemma flist_app : forall m l1 l2 h,
  flist m h (l1 ++ l2) ->
  exists h2, flist m h2 l2 /\
             (forall m', (forall x, In x l1 -> next_of m' x = next_of m x) ->
                         forall l2', flist m' h2 l2' -> flist m' h (l1 ++ l2')).
Proof.
  induction l1 as [|x t IH]; intros l2 h Hl; cbn [app flist] in *.
  - exists h. split; auto.
  - destruct Hl as (Hh & Hx & Ht). destruct (IH _ _ Ht) as (h2 & H2 & Hk).
    exists h2. split; auto. intros m' Hn l2' Hl2. cbn [app flist].
    repeat split; auto. rewrite Hn by (left; reflexivity).
    apply Hk; auto. intros y Hy. apply Hn. right. exact Hy.
Qed.

(** A list that ends in [NULL] is determined by its head, so no header
    occurs twice on it. *)
Lemma flist_functional : forall m l l' h,
  flist m h l -> flist m h l' -> l = l'.
Proof.
  induction l as [|x t IH]; intros l' h H H'; destruct l' as [|x' t'];
    cbn [flist] in *; auto.
  - destruct H' as (-> & Hx & _). congruence.
  - destruct H as (-> & Hx & _). congruence.
  - destruct H as (-> & Hx & Ht). destruct H' as (E & _ & Ht'). subst x'.
    f_equal. eapply IH; eauto.
Qed.

Lemma flist_suffix : forall m l h x,
  flist m h l -> In x l -> exists l1 l2, l = l1 ++ x :: l2 /\ flist m x (x :: l2).
Proof.
  induction l as [|y t IH]; intros h x Hl Hin; [contradiction|].
  cbn [flist] in Hl. destruct Hl as (-> & Hy & Ht).
  destruct Hin as [->|Hin].
  - exists [], t. split; auto. cbn [flist]. auto.
  - destruct (IH _ _ Ht Hin) as (l1 & l2 & -> & H2).
    exists (y :: l1), l2. split; auto.
Qed.

Lemma flist_NoDup : forall m l h, flist m h l -> NoDup l.
Proof.
  induction l as [|x t IH]; intros h Hl; constructor.
  - cbn [flist] in Hl. destruct Hl as (-> & Hx & Ht). intro Hin.
    destruct (flist_suffix _ _ _ _ Ht Hin) as (l1 & l2 & E & H2).
    cbn [flist] in H2. destruct H2 as (_ & _ & H2).
    pose proof (flist_functional _ _ _ _ Ht H2) as E2.
    assert (length t = length l2) by (rewrite E2 at 1; reflexivity).
    rewrite E in H. rewrite length_app in H. cbn [length] in H. lia.
  - cbn [flist] in Hl. destruct Hl as (_ & _ & Ht). eapply IH; eauto.
Qed.

Lemma walk_flist : forall m l h fuel,
  flist m h l -> (length l < fuel)%nat -> walk fuel m h = l.
Proof.
  induction l as [|x t IH]; intros h fuel Hl Hf; cbn [flist] in Hl.
  - subst h. destruct fuel; [inversion Hf|]. reflexivity.
  - destruct Hl as (-> & Hx & Ht). destruct fuel; [inversion Hf|].
    cbn [walk]. destruct (Z.eqb_spec x 0); [contradiction|].
    f_equal. apply IH; auto. cbn [length] in Hf. lia.
Qed.

(** The neighbour locators terminate on such a list and return an entry
    of it, or [NULL]. *)
Lemma find_prev_from_total : forall m block l h fuel,
  flist m h l -> (length l < fuel)%nat ->
  exists r, find_prev_from fuel m h block = Some r /\
            ((r = 0 /\ forall x, In x l ->
                        wrap (x + size_of m x + sizeof_free_block) <> block) \/
             (In r l /\ wrap (r + size_of m r + sizeof_free_block) = block)).
Proof.
  induction l as [|x t IH]; intros h fuel Hl Hf; cbn [flist] in Hl.
  - subst h. destruct fuel; [inversion Hf|]. exists 0. split; [reflexivity|].
    left. split; [reflexivity|]. intros x Hx. destruct Hx.
  - destruct Hl as (-> & Hx & Ht). destruct fuel; [inversion Hf|].
    cbn [find_prev_from]. destruct (Z.eqb_spec x 0); [contradiction|].
    destruct (Z.eqb_spec (wrap (x + size_of m x + sizeof_free_block)) block) as [E|E].
    + exists x. split; auto. right. split; auto. left. reflexivity.
    + destruct (IH _ fuel Ht) as (r & Hr & Hcase); [cbn [length] in Hf; lia|].
      exists r. split; auto. destruct Hcase as [(-> & Hall)|(Hin & Hadj)].
      * left. split; auto. intros y [<-|Hy]; auto.
      * right. split; auto. right. exact Hin.
Qed.

Lemma find_next_from_total : forall m stop l h fuel,
  flist m h l -> (length l < fuel)%nat ->
  exists r, find_next_from fuel m h stop = Some r /\
            ((r = 0 /\ ~ In stop l) \/ (r = stop /\ In r l)).
Proof.
  induction l as [|x t IH]; intros h fuel Hl Hf; cbn [flist] in Hl.
  - subst h. destruct fuel; [inversion Hf|]. exists 0. split; auto.
  - destruct Hl as (-> & Hx & Ht). destruct fuel; [inversion Hf|].
    cbn [find_next_from]. destruct (Z.eqb_spec x 0); [contradiction|].
    destruct (Z.eqb_spec x stop) as [E|E].
    + exists x. split; auto. right. split; auto. left. reflexivity.
    + destruct (IH _ fuel Ht) as (r & Hr & Hcase); [cbn [length] in Hf; lia|].
      exists r. split; auto. destruct Hcase as [(-> & Hall)|(Hin & Hadj)].
      * left. split; auto. intros [<-|Hy]; auto.
      * right. split; auto. right. exact Hadj.
Qed.

Lemma coalesce_total : forall fuel block s l,
  flist (heap s) (HEAD s) l -> (length l < fuel)%nat ->
  exists b s', coalesce fuel block s = Some (b, s').
Proof.
  intros fuel block s l Hl Hf. unfold coalesce.
  destruct (block =? 0); [eauto|].
  unfold find_prev, find_next.
  destruct (find_prev_from_total (heap s) block _ _ _ Hl Hf) as (p & -> & _).
  destruct (find_next_from_total (heap s)
              (wrap (block + size_of (heap s) block + sizeof_free_block))
              _ _ _ Hl Hf) as (n & -> & _).
  destruct (merge_prev (heap s) p block) as [b m1]. eauto.
Qed.

(** Pushing a header that overlaps no list entry puts it in front of the
    list and leaves the rest as it was. *)
Lemma push_front_flist : forall header s l,
  0 <= HEAD s < WORD ->
  header <> 0 ->
  flist (heap s) (HEAD s) l ->
  Forall (fun x => x + sizeof_free_block <= header \/
                   header + sizeof_free_block <= x) l ->
  flist (heap (push_front header s)) (HEAD (push_front header s)) (header :: l).
Proof.
  intros header s l HH Hnz Hl Hdisj. unfold push_front.
  cbn [heap HEAD with_HEAD with_heap flist]. repeat split; auto.
  replace (next_of _ header) with (HEAD s)
    by (fields; rewrite load8_store8_same; auto).
  eapply flist_ext; [|exact Hl].
  intros x Hx. rewrite Forall_forall in Hdisj. specialize (Hdisj x Hx).
  fields. rewrite !load_store_other by (cbn; lia). reflexivity.
Qed.

Lemma push_front_size : forall header s,
  size_of (heap (push_front header s)) header = size_of (heap s) header.
Proof.
  intros. unfold push_front. cbn [heap with_HEAD with_heap]. fields.
  rewrite load_store_other by (cbn; lia).
  apply load8_store8_same. apply load8_range.
Qed.

Lemma to_int_magic : forall x,
  0 <= x < 4294967296 -> (to_int x = MAGIC_NUMBER <-> x = MAGIC_NUMBER).
Proof. intros x Hx. split; intro H; wrap_lia. Qed.

Lemma load4_range : forall m a, 0 <= load 4 m a < 4294967296.
Proof. intros. apply (load_range 4). Qed.

(** ** Release *)

(** C4.  Releasing [NULL] changes nothing.  For a non-null pointer the
    word behind the payload, found through the size in the header, is
    compared with the sentinel: if it is intact, the header becomes the
    head of the free list, in front of the old entries and with its size
    as recorded, and the result of the call is the result of coalescing
    run on that state; if it holds anything else, the diagnostic is
    printed and the process aborts. *)
Theorem tufree_contract :
  forall (fuel : nat) (ptr : Z) (s : state) (l : list Z),
    let header := wrap (ptr - sizeof_free_block) in
    let guard := load 4 (heap s)
                   (wrap (header + sizeof_free_block + size_of (heap s) header)) in
    ptr <> 0 ->
    header <> 0 ->
    0 <= HEAD s < WORD ->
    flist (heap s) (HEAD s) l ->
    Forall (fun x => x + sizeof_free_block <= header \/
                     header + sizeof_free_block <= x) l ->
    (S (length l) < fuel)%nat ->
    tufree fuel 0 s = Done tt s /\
    (guard = MAGIC_NUMBER ->
       let pushed := push_front header s in
       HEAD pushed = header /\
       flist (heap pushed) (HEAD pushed) (header :: l) /\
       size_of (heap pushed) header = size_of (heap s) header /\
       exists b s', coalesce fuel header pushed = Some (b, s') /\
                    tufree fuel ptr s = Done tt s') /\
    (guard <> MAGIC_NUMBER ->
       tufree fuel ptr s =
       Aborted (fprintf_stderr "MEMORY CORRUPTION DETECTED\n" s)).
Proof.
  intros fuel ptr s l header guard Hptr Hhdr HH Hl Hdisj Hfuel.
  split; [reflexivity|]. split.
  - intros Hg pushed.
    assert (Hfl : flist (heap pushed) (HEAD pushed) (header :: l))
      by (apply push_front_flist; auto).
    split; [reflexivity|]. split; [exact Hfl|].
    split; [apply push_front_size|].
    destruct (coalesce_total fuel header pushed _ Hfl Hfuel) as (b & s' & Hc).
    exists b, s'. split; auto. unfold tufree.
    destruct (Z.eqb_spec ptr 0); [contradiction|]. fold header.
    unfold sentinel_of. fold guard.
    replace (to_int guard =? MAGIC_NUMBER) with true
      by (symmetry; apply Z.eqb_eq;
          apply (proj2 (to_int_magic _ (load4_range _ _))); exact Hg).
    fold pushed. rewrite Hc. reflexivity.
  - intros Hg. unfold tufree.
    destruct (Z.eqb_spec ptr 0); [contradiction|]. fold header.
    unfold sentinel_of. fold guard.
    destruct (Z.eqb_spec (to_int guard) MAGIC_NUMBER) as [E|E]; auto.
    exfalso. apply Hg. apply (proj1 (to_int_magic _ (load4_range _ _))). exact E.
Qed.

Lemma tufree_contract_witness :
  tufree 5 0 one_block = Done tt one_block /\
  HEAD (push_front 4096 one_block) = 4096 /\
  (exists b s', coalesce 5 4096 (push_front 4096 one_block) = Some (b, s') /\
                tufree 5 4112 one_block = Done tt s').
Proof.
  destruct (tufree_contract 5 4112 one_block []) as (Hnull & Hok & _).
  - discriminate.
  - vm_compute. discriminate.
  - vm_compute. split; [discriminate | reflexivity].
  - reflexivity.
  - constructor.
  - cbn. lia.
  - split; [exact Hnull|].
    destruct Hok as (Hh & _ & _ & Hc); [vm_compute; reflexivity|].
    split; [exact Hh | exact Hc].
Defined.

(** ** Zero-initialised allocation *)

(** C8.  [tucalloc] depends on its two arguments only through their
    product modulo [2^64] (there is no overflow guard), hands that product
    to [tumalloc], and returns what [tumalloc] returns; a null result is
    passed on with the memory untouched, and behind a non-null result
    every byte of the region of that many bytes is zero, the rest of the
    memory being as [tumalloc] left it. *)
Theorem tucalloc_contract :
  forall (fuel : nat) (ok : bool) (num size : Z) (s : state),
    tucalloc fuel ok num size s = tucalloc fuel ok (wrap (num * size)) 1 s /\
    match tumalloc fuel ok (wrap (num * size)) s with
    | Done p s1 =>
        (p = 0 -> tucalloc fuel ok num size s = Done 0 s1) /\
        (p <> 0 ->
         exists s',
           tucalloc fuel ok num size s = Done p s' /\
           (forall i, 0 <= i < wrap (num * size) -> heap s' (p + i) = 0) /\
           (forall x, x < p \/ p + wrap (num * size) <= x ->
                      heap s' x = heap s1 x) /\
           HEAD s' = HEAD s1 /\ brk s' = brk s1 /\
           sbrk_calls s' = sbrk_calls s1 /\ diag s' = diag s1)
    | Aborted s1 => tucalloc fuel ok num size s = Aborted s1
    | OutOfFuel => tucalloc fuel ok num size s = OutOfFuel
    end.
Proof.
  intros fuel ok num size s. split.
  - unfold tucalloc. rewrite Z.mul_1_r.
    rewrite (wrap_small (wrap (num * size))) by apply wrap_range. reflexivity.
  - unfold tucalloc.
    destruct (tumalloc fuel ok (wrap (num * size)) s) as [p s1|s1|]; auto.
    split.
    + intros ->. reflexivity.
    + intros Hp. destruct (Z.eqb_spec p 0); [contradiction|].
      eexists. split; [reflexivity|]. cbn [heap HEAD brk sbrk_calls diag with_heap].
      repeat split.
      * intros i Hi. unfold memset.
        destruct (Z.leb_spec p (p + i));
          destruct (Z.ltb_spec (p + i) (p + wrap (num * size)));
          cbn [andb]; try lia; reflexivity.
      * intros x Hx. unfold memset.
        destruct (Z.leb_spec p x);
          destruct (Z.ltb_spec x (p + wrap (num * size)));
          cbn [andb]; try lia; reflexivity.
Qed.

(** The product wraps: [2^63] elements of two bytes are a request for
    zero bytes, which the empty heap serves. *)
Example tucalloc_wraps :
  exists s', tucalloc 1 true 9223372036854775808 2 (mkState (fun _ => 0) 0 4096 0 [])
             = Done 4112 s' /\ brk s' = 4116.
Proof. eexists. split; vm_compute; reflexivity. Qed.

(** ** The first-fit scan *)

Lemma last_cons_any : forall (t : list Z) (x d d' : Z),
  last (x :: t) d = last (x :: t) d'.
Proof.
  induction t as [|y t IH]; intros x d d'; [reflexivity|].
  change (last (y :: t) d = last (y :: t) d'). apply IH.
Qed.

Lemma last_cons_default : forall (t : list Z) (x d : Z),
  last (x :: t) d = last t x.
Proof.
  intros t x d. destruct t as [|y t]; [reflexivity|].
  change (last (y :: t) d = last (y :: t) x). apply last_cons_any.
Qed.

Section Scan.
Variables (ok : bool) (size : Z) (s : state).
Hypothesis Hsize : 0 <= size /\ size + sizeof_free_block < WORD.

Let skipped (x : Z) : Prop := size_of (heap s) x < size + sizeof_free_block.

Lemma wrap_request : wrap (size + sizeof_free_block) = size + sizeof_free_block.
Proof. apply wrap_small. unfold sizeof_free_block in *. lia. Qed.

(** Entries that are too small, or large enough but with less than a
    header to spare, are passed over. *)
Lemma first_fit_skips : forall l h prev fuel,
  flist (heap s) h l -> Forall skipped l -> (length l < fuel)%nat ->
  first_fit fuel ok size s h prev = extend_heap ok size s.
Proof.
  induction l as [|x t IH]; intros h prev fuel Hl Hs Hf; cbn [flist] in Hl.
  - subst h. destruct fuel; [inversion Hf|]. reflexivity.
  - destruct Hl as (-> & Hx & Ht). destruct fuel; [inversion Hf|].
    cbn [first_fit]. destruct (Z.eqb_spec x 0); [contradiction|].
    inversion Hs as [|? ? Hsx Hst]; subst. unfold skipped in Hsx.
    rewrite wrap_request.
    assert (Hrec : first_fit fuel ok size s (next_of (heap s) x) x
                   = extend_heap ok size s)
      by (apply (IH _ x fuel Ht Hst); cbn [length] in Hf; lia).
    destruct (Z.leb_spec size (size_of (heap s) x)); [|exact Hrec].
    destruct (Z.ltb_spec (size_of (heap s) x) (size + sizeof_free_block));
      [exact Hrec | lia].
Qed.

(** The scan stops at the first entry with a header to spare. *)
Lemma first_fit_finds : forall l1 c l2 h prev fuel,
  flist (heap s) h (l1 ++ c :: l2) -> Forall skipped l1 ->
  size + sizeof_free_block <= size_of (heap s) c ->
  (length l1 < fuel)%nat ->
  first_fit fuel ok size s h prev = take_block size s c (last l1 prev).
Proof.
  induction l1 as [|x t IH]; intros c l2 h prev fuel Hl Hs Hc Hf;
    cbn [app flist] in Hl; destruct Hl as (-> & Hx & Ht);
    (destruct fuel; [inversion Hf|]); cbn [first_fit].
  - destruct (Z.eqb_spec c 0); [contradiction|]. rewrite wrap_request.
    destruct (Z.leb_spec size (size_of (heap s) c));
      [|unfold sizeof_free_block in *; lia].
    destruct (Z.ltb_spec (size_of (heap s) c) (size + sizeof_free_block));
      [lia|]. reflexivity.
  - destruct (Z.eqb_spec x 0); [contradiction|].
    inversion Hs as [|? ? Hsx Hst]; subst. unfold skipped in Hsx.
    rewrite wrap_request.
    assert (Hrec : first_fit fuel ok size s (next_of (heap s) x) x
                   = take_block size s c (last (x :: t) prev)).
    { rewrite (IH c l2 _ x fuel Ht Hst Hc) by (cbn [length] in Hf; lia).
      f_equal. symmetry. apply last_cons_default. }
    destruct (Z.leb_spec size (size_of (heap s) x)); [|exact Hrec].
    destruct (Z.ltb_spec (size_of (heap s) x) (size + sizeof_free_block));
      [exact Hrec | lia].
Qed.
End Scan.

(** ** Loads and stores of the header fields and the sentinel *)

Lemma load8_store8_other : forall m a a' v,
  a' + 8 <= a \/ a + 8 <= a' -> load 8 (store 8 m a v) a' = load 8 m a'.
Proof. intros. apply load_store_other. cbn. lia. Qed.

Lemma load8_store4_other : forall m a a' v,
  a' + 8 <= a \/ a + 4 <= a' -> load 8 (store 4 m a v) a' = load 8 m a'.
Proof. intros. apply load_store_other. cbn. lia. Qed.

Lemma load4_store8_other : forall m a a' v,
  a' + 4 <= a \/ a + 8 <= a' -> load 4 (store 8 m a v) a' = load 4 m a'.
Proof. intros. apply load_store_other. cbn. lia. Qed.

Lemma store8_outside : forall m a v x,
  x < a \/ a + 8 <= x -> store 8 m a v x = m x.
Proof. intros. apply store_outside. cbn. lia. Qed.

Lemma store4_outside : forall m a v x,
  x < a \/ a + 4 <= x -> store 4 m a v x = m x.
Proof. intros. apply store_outside. cbn. lia. Qed.

(** Rewriting loads through the stores that cannot have touched them. *)
Ltac mem_frame :=
  repeat first
    [ rewrite load8_store8_other by lia
    | rewrite load8_store4_other by lia
    | rewrite load4_store8_other by lia
    | rewrite store8_outside by lia
    | rewrite store4_outside by lia ].

(** ** Taking a block off the list *)

(** What [tumalloc] does with the entry [c] it has chosen, [prev] being
    the entry before it ([NULL] when [c] is the head): the first
    [size] bytes go to the caller, the rest stays on the list in the place
    of [c]. *)
Lemma take_block_spec : forall size s c prev,
  0 <= size < 2147483648 ->
  0 < c ->
  c + size + 2 * sizeof_free_block <= WORD ->
  size + sizeof_free_block <= size_of (heap s) c ->
  prev = 0 \/ prev + sizeof_free_block <= c \/
              c + size + 2 * sizeof_free_block <= prev ->
  let rest := c + sizeof_free_block + size in
  exists s',
    take_block size s c prev = Done (c + sizeof_free_block) s' /\
    HEAD s' = (if prev =? 0 then rest else HEAD s) /\
    brk s' = brk s /\ sbrk_calls s' = sbrk_calls s /\ diag s' = diag s /\
    size_of (heap s') c = size /\
    load 4 (heap s') rest = MAGIC_NUMBER /\
    next_of (heap s') rest = next_of (heap s) c /\
    (prev <> 0 -> next_of (heap s') prev = rest) /\
    (forall x,
        (x < c \/ c + sizeof_free_block <= x) ->
        (x < rest \/ rest + sizeof_free_block <= x) ->
        (prev = 0 \/ x < prev + off_next \/ prev + sizeof_free_block <= x) ->
        heap s' x = heap s x).
Proof.
  intros size s c prev Hsize Hc Hend Hfit Hprev rest.
  pose proof (size_of_range (heap s) c) as Hszc.
  pose proof (next_of_range (heap s) c) as Hnxc.
  unfold take_block, split.
  rewrite (to_int_small size) by lia.
  rewrite (wrap_small size) by (unfold WORD; lia).
  rewrite (wrap_small (size + sizeof_free_block))
    by (unfold WORD, sizeof_free_block; lia).
  destruct (Z.ltb_spec (size_of (heap s) c) (size + sizeof_free_block)); [lia|].
  destruct (Z.eqb_spec c 0); [lia|].
  rewrite (wrap_small (c + size + sizeof_free_block))
    by (unfold sizeof_free_block in *; lia).
  rewrite (wrap_small (c + sizeof_free_block + size))
    by (unfold sizeof_free_block in *; lia).
  rewrite (wrap_small (c + sizeof_free_block))
    by (unfold sizeof_free_block in *; lia).
  rewrite (wrap_small (size_of (heap s) c - size - sizeof_free_block))
    by (unfold sizeof_free_block in *; lia).
  replace (c + size + sizeof_free_block) with (c + sizeof_free_block + size) by lia.
  subst rest. set (rest := c + sizeof_free_block + size).
  assert (Hrest : rest = c + 16 + size) by reflexivity.
  clearbody rest.
  destruct (Z.eqb_spec prev 0) as [Hp|Hp].
  - eexists. split; [reflexivity|].
    cbn [heap HEAD brk sbrk_calls diag with_heap with_HEAD].
    fields.
    replace (load 8 (store 8 _ (c + 8) rest) (c + 8)) with rest
      by (rewrite load8_store8_same; [reflexivity | unfold WORD in *; lia]).
    split; [reflexivity|]. split; [reflexivity|]. split; [reflexivity|].
    split; [reflexivity|]. split; [|split; [|split; [|split]]].
    + mem_frame. apply load8_store8_same. unfold WORD. lia.
    + apply load4_store4_same. unfold MAGIC_NUMBER. lia.
    + mem_frame. rewrite load8_store8_same by assumption. reflexivity.
    + intros Hp'. contradiction.
    + intros x Hx1 Hx2 _. mem_frame. reflexivity.
  - eexists. split; [reflexivity|].
    cbn [heap HEAD brk sbrk_calls diag with_heap with_HEAD].
    fields.
    replace (load 8 (store 8 _ (c + 8) rest) (c + 8)) with rest
      by (rewrite load8_store8_same; [reflexivity | unfold WORD in *; lia]).
    split; [reflexivity|]. split; [reflexivity|]. split; [reflexivity|].
    split; [reflexivity|]. split; [|split; [|split; [|split]]].
    + mem_frame. apply load8_store8_same. unfold WORD. lia.
    + apply load4_store4_same. unfold MAGIC_NUMBER. lia.
    + mem_frame. rewrite load8_store8_same by assumption. reflexivity.
    + intros _. mem_frame. apply load8_store8_same. unfold WORD in *. lia.
    + intros x Hx1 Hx2 Hx3. mem_frame. reflexivity.
Qed.

(** ** Blocks that do not overlap *)

Lemma disjoint_blocks_In : forall m l x y,
  disjoint_blocks m l -> In x l -> In y l -> x <> y ->
  block_end m x <= y \/ block_end m y <= x.
Proof.
  intros m l x y Hd Hx Hy Hne.
  destruct (ForallOrdPairs_In Hd x y Hx Hy) as [E|[H|H]]; [contradiction|auto|].
  destruct H; auto.
Qed.

Lemma block_end_ge : forall m x, x + sizeof_free_block <= block_end m x.
Proof.
  intros. unfold block_end. pose proof (size_of_range m x). lia.
Qed.

Lemma flist_pos : forall m l h,
  flist m h l -> 0 <= h -> Forall (fun x => 0 < x) l.
Proof.
  induction l as [|x t IH]; intros h Hl Hh; constructor;
    cbn [flist] in Hl; destruct Hl as (-> & Hx & Ht).
  - lia.
  - apply (IH _ Ht). apply next_of_range.
Qed.

Lemma next_of_frame : forall m m' x,
  (forall y, x + off_next <= y < x + sizeof_free_block -> m' y = m y) ->
  next_of m' x = next_of m x.
Proof.
  intros. unfold next_of. apply load_ext. intros y Hy. apply H.
  unfold off_next, sizeof_free_block in *. cbn in Hy. lia.
Qed.

Lemma size_of_frame : forall m m' x,
  (forall y, x <= y < x + off_next -> m' y = m y) ->
  size_of m' x = size_of m x.
Proof.
  intros. unfold size_of. apply load_ext. intros y Hy. apply H.
  unfold off_size, off_next in *. cbn in Hy. lia.
Qed.

Lemma extend_heap_calls : forall ok size s,
  exists p s', extend_heap ok size s = Done p s' /\
               sbrk_calls s' = S (sbrk_calls s) /\ HEAD s' = HEAD s.
Proof.
  intros ok size s. unfold extend_heap, do_alloc, sbrk.
  destruct ok.
  - cbn [fst snd]. destruct (brk s =? WORD - 1).
    + cbn. eauto.
    + destruct (brk s =? 0); cbn; eauto.
  - rewrite Z.eqb_refl. cbn. eauto.
Qed.

(** ** Allocation from the free list *)

(** X16.  The first-fit scan where it works: for a request of less than
    [2^31] bytes, on a free list that ends in [NULL] and whose blocks do
    not overlap, the chosen block lying inside the address space.
    [tumalloc] scans the list from its head.  Entries smaller than the
    request, and entries that could hold it but would leave less than one
    header of excess (an exact fit among them), are passed over.  The
    first entry [c] with at least a header to spare is split: the caller
    gets the payload of [c], whose header now records the request and
    whose sentinel is in place, and the remainder, whose header sits
    behind that payload, takes the place of [c] in the list; the heap is
    not extended.  When every entry is passed over the request goes to
    the heap extender, which calls [sbrk] once. *)
Theorem tumalloc_first_fit :
  forall (fuel : nat) (ok : bool) (size : Z) (s : state),
    0 <= size < 2147483648 ->
    (forall l1 c l2,
        0 <= HEAD s ->
        flist (heap s) (HEAD s) (l1 ++ c :: l2) ->
        disjoint_blocks (heap s) (l1 ++ c :: l2) ->
        block_end (heap s) c <= WORD ->
        Forall (fun x => size_of (heap s) x < size + sizeof_free_block) l1 ->
        size + sizeof_free_block <= size_of (heap s) c ->
        (length l1 < fuel)%nat ->
        let rest := c + sizeof_free_block + size in
        exists s',
          tumalloc fuel ok size s = Done (c + sizeof_free_block) s' /\
          flist (heap s') (HEAD s') (l1 ++ rest :: l2) /\
          size_of (heap s') c = size /\
          load 4 (heap s') rest = MAGIC_NUMBER /\
          sbrk_calls s' = sbrk_calls s /\ brk s' = brk s) /\
    (forall l,
        flist (heap s) (HEAD s) l ->
        Forall (fun x => size_of (heap s) x < size + sizeof_free_block) l ->
        (length l < fuel)%nat ->
        tumalloc fuel ok size s = extend_heap ok size s /\
        exists p s', tumalloc fuel ok size s = Done p s' /\
                     sbrk_calls s' = S (sbrk_calls s)).
Proof.
  intros fuel ok size s Hsize.
  assert (Hsz : 0 <= size /\ size + sizeof_free_block < WORD)
    by (unfold WORD, sizeof_free_block; lia).
  split.
  - intros l1 c l2 Hhead Hl Hd Hend Hskip Hfit Hfuel rest.
    pose proof (flist_NoDup _ _ _ Hl) as Hnd.
    pose proof (flist_pos _ _ _ Hl Hhead) as Hpos.
    rewrite Forall_forall in Hpos.
    assert (Hcin : In c (l1 ++ c :: l2)) by (apply in_elt).
    assert (Hc : 0 < c) by (apply Hpos; exact Hcin).
    assert (Hother : forall x, In x (l1 ++ l2) ->
              x + sizeof_free_block <= c \/ block_end (heap s) c <= x).
    { intros x Hx.
      assert (Hxin : In x (l1 ++ c :: l2))
        by (apply in_app_iff in Hx; apply in_app_iff; cbn [In]; tauto).
      assert (Hne : x <> c).
      { intros ->. apply NoDup_remove_2 in Hnd. contradiction. }
      destruct (disjoint_blocks_In _ _ _ _ Hd Hxin Hcin Hne) as [H|H]; auto.
      left. pose proof (block_end_ge (heap s) x). lia. }
    assert (Hrun : tumalloc fuel ok size s
                   = take_block size s c (last l1 0)).
    { unfold tumalloc.
      assert (Hnz : HEAD s <> 0).
      { destruct l1; cbn [app flist] in Hl; destruct Hl as (-> & Hx & _); auto. }
      destruct (Z.eqb_spec (HEAD s) 0); [contradiction|].
      apply (first_fit_finds ok size s Hsz l1 c l2); auto. }
    unfold block_end in Hend, Hother.
    assert (Hend' : c + size + 2 * sizeof_free_block <= WORD)
      by (unfold sizeof_free_block in *; lia).
    induction l1 as [|p l1' _] using rev_ind.
    + (* [c] is the head of the list *)
      cbn [last] in Hrun. cbn [app] in *.
      pose proof (take_block_spec size s c 0 Hsize Hc Hend' Hfit
                    (or_introl eq_refl)) as Htake.
      cbv zeta in Htake. fold rest in Htake.
      destruct Htake as (s' & Hs' & HH & Hb & Hn & _ & Hsc & Hmag & Hnx & _ & Hfr).
      exists s'. rewrite Hrun. split; [exact Hs'|].
      split; [|auto].
      rewrite HH, Z.eqb_refl. cbn [flist] in Hl |- *.
      destruct Hl as (_ & _ & Hl2).
      split; [reflexivity|]. split; [unfold rest, sizeof_free_block; lia|].
      rewrite Hnx. eapply flist_ext; [|exact Hl2].
      intros x Hx. apply next_of_frame. intros y Hy.
      specialize (Hother x Hx).
      apply Hfr; unfold rest, sizeof_free_block, off_next in *; lia.
    + (* [c] follows [p] *)
      rewrite last_last in Hrun.
      assert (Hpin : In p ((l1' ++ [p]) ++ c :: l2))
        by (rewrite !in_app_iff; cbn [In]; tauto).
      assert (Hp : 0 < p) by (apply Hpos; exact Hpin).
      assert (Hpc : p + sizeof_free_block <= c \/
                    c + size + 2 * sizeof_free_block <= p).
      { destruct (Hother p) as [H|H]; [rewrite !in_app_iff; cbn [In]; tauto|auto|].
        right. unfold sizeof_free_block in *. lia. }
      pose proof (take_block_spec size s c p Hsize Hc Hend' Hfit
                    (or_intror Hpc)) as Htake.
      cbv zeta in Htake. fold rest in Htake.
      destruct Htake as (s' & Hs' & HH & Hb & Hn & _ & Hsc & Hmag & Hnx & Hpn & Hfr).
      exists s'. rewrite Hrun. split; [exact Hs'|].
      split; [|auto].
      destruct (Z.eqb_spec p 0); [lia|]. rewrite HH.
      rewrite <- app_assoc in Hl, Hnd, Hd |- *. cbn [app] in Hl, Hnd, Hd |- *.
      destruct (flist_app _ _ _ _ Hl) as (h2 & H2 & Hk).
      cbn [flist] in H2. destruct H2 as (-> & _ & _ & Hcnz & Hl2).
      assert (Hapart : forall x, In x (l1' ++ l2) ->
                x + sizeof_free_block <= p \/ p + sizeof_free_block <= x).
      { intros x Hx.
        assert (Hxin : In x (l1' ++ p :: c :: l2))
          by (rewrite in_app_iff in *; cbn [In]; tauto).
        assert (Hpin' : In p (l1' ++ p :: c :: l2)) by (apply in_elt).
        assert (Hne : x <> p).
        { intros ->. apply NoDup_remove_2 in Hnd.
          apply Hnd. rewrite in_app_iff in *. cbn [In]. tauto. }
        pose proof (block_end_ge (heap s) x). pose proof (block_end_ge (heap s) p).
        destruct (disjoint_blocks_In _ _ _ _ Hd Hxin Hpin' Hne); lia. }
      assert (Hkeep : forall x, In x (l1' ++ l2) ->
                next_of (heap s') x = next_of (heap s) x).
      { intros x Hx. apply next_of_frame. intros y Hy.
        specialize (Hapart x Hx).
        assert (Hx' : In x ((l1' ++ [p]) ++ l2))
          by (rewrite !in_app_iff in *; cbn [In]; tauto).
        specialize (Hother x Hx').
        apply Hfr; unfold rest, sizeof_free_block, off_next in *; lia. }
      apply Hk.
      * intros x Hx. apply Hkeep. rewrite in_app_iff. tauto.
      * cbn [flist]. split; [reflexivity|]. split; [lia|].
        rewrite (Hpn n). split; [reflexivity|].
        split; [unfold rest, sizeof_free_block; lia|].
        rewrite Hnx. eapply flist_ext; [|exact Hl2].
        intros x Hx. apply Hkeep. rewrite in_app_iff. tauto.
  - intros l Hl Hskip Hfuel.
    assert (Hrun : tumalloc fuel ok size s = extend_heap ok size s).
    { unfold tumalloc. destruct (Z.eqb_spec (HEAD s) 0); [reflexivity|].
      apply (first_fit_skips ok size s Hsz l); auto. }
    split; [exact Hrun|]. rewrite Hrun.
    destruct (extend_heap_calls ok size s) as (p & s' & E & Hn & _). eauto.
Qed.

(** Closing a statement about concrete states by evaluation. *)
Ltac eval_leaf :=
  vm_compute;
  repeat match goal with
         | |- _ /\ _ => split
         | |- _ = _ => reflexivity
         | |- _ -> False => let H := fresh in intro H; discriminate H
         | |- True => exact I
         | |- _ \/ _ => first [ left; solve [eval_leaf] | right; solve [eval_leaf] ]
         end.

Ltac by_eval :=
  cbn [app];
  lazymatch goal with
  | |- Forall _ [] => constructor
  | |- Forall _ (_ :: _) => constructor; [cbv beta; by_eval | by_eval]
  | |- ForallOrdPairs _ [] => constructor
  | |- ForallOrdPairs _ (_ :: _) => constructor; by_eval
  | |- disjoint_blocks _ _ => unfold disjoint_blocks; by_eval
  | |- separated _ => unfold separated; by_eval
  | |- (_ < _)%nat => cbn; lia
  | |- (_ <= _)%nat => cbn; lia
  | |- _ /\ _ => split; by_eval
  | |- _ => eval_leaf
  end.

Lemma tumalloc_first_fit_witness :
  (exists s',
      tumalloc 5 true 40 two_free = Done (8192 + sizeof_free_block) s' /\
      flist (heap s') (HEAD s') ([4096] ++ (8192 + sizeof_free_block + 40) :: []) /\
      size_of (heap s') 8192 = 40 /\
      load 4 (heap s') (8192 + sizeof_free_block + 40) = MAGIC_NUMBER /\
      sbrk_calls s' = sbrk_calls two_free /\ brk s' = brk two_free) /\
  (exists p s', tumalloc 5 true 100 two_free = Done p s' /\
                sbrk_calls s' = S (sbrk_calls two_free)).
Proof.
  split.
  - apply (proj1 (tumalloc_first_fit 5 true 40 two_free ltac:(lia)) [4096] 8192 []);
      by_eval.
  - apply (proj2 (tumalloc_first_fit 5 true 100 two_free ltac:(lia)) [4096; 8192]);
      by_eval.
Defined.

(** ** Runs from the empty heap *)

(** C1.  At the last release the block at 19092911 has the free block at
    4152 as its physically-previous neighbour.  Coalescing enlarges that
    neighbour by the 8 bytes of the released block and one header, and the
    absorbed header is still on the free list: it is its head. *)
Theorem coalesce_leaves_absorbed_head :
  match run 10 (firstn 5 release_behind_free) (empty_heap 4096),
        run 10 release_behind_free (empty_heap 4096) with
  | Some before, Some after =>
      free_entries 10 (now before) = [(4152, 19088743)] /\
      block_end (heap (now before)) 4152 = 19092911 /\
      In 19092927 (live before) /\
      size_of (heap (now before)) 19092911 = 8 /\
      free_entries 10 (now after)
      = [(19092911, 8); (4152, 19088743 + (8 + sizeof_free_block))] /\
      HEAD (now after) = 19092911
  | _, _ => False
  end.
Proof. vm_compute. repeat split; auto. Qed.

(** C3.  After these five calls, none of which releases anything twice or
    writes outside a payload, the pointer 4232 returned by the second call
    is still allocated, and its header, 4216, is the head of the free
    list. *)
Theorem free_list_holds_live_block :
  match run 10 reuse_twice (empty_heap 4096) with
  | Some t =>
      In 4232 (live t) /\
      wrap (4232 - sizeof_free_block) = 4216 /\
      walk 10 (heap (now t)) (HEAD (now t)) = [4216]
  | None => False
  end.
Proof. vm_compute. repeat split; auto. Qed.

(** C5.  Two runs from the empty heap on which the scan does not do what
    the claim says.  After [large_block_released] the only free entry has
    [2^32] bytes, a header and more in excess of a request of [2^31]
    bytes; the scan stops at it, but [split] takes the size as an [int],
    refuses, and [tumalloc] returns [NULL] with the line of the refused
    split, the entry staying on the list and [sbrk] not being called.
    After [release_beside_remainder] the list holds the released block at
    4216 (50 bytes) and the remainder at 4152, whose recorded size was
    overwritten by a sentinel; a request of 48 bytes passes 4216 over and
    splits 4152, the remainder of that split lands on the header 4216 and
    is linked behind 4216: the list is the cycle 4216, 4216, ... *)
Theorem first_fit_misses_fitting_entry :
  match run 10 large_block_released (empty_heap 4096) with
  | Some t =>
      free_entries 10 (now t) = [(4096, 4294967296)] /\
      2147483648 + sizeof_free_block <= 4294967296 /\
      match tumalloc 10 true 2147483648 (now t) with
      | Done q s' =>
          q = 0 /\ diag s' = [split_failed] /\
          sbrk_calls s' = sbrk_calls (now t) /\
          free_entries 10 s' = [(4096, 4294967296)]
      | _ => False
      end
  | None => False
  end /\
  match run 10 release_beside_remainder (empty_heap 4096) with
  | Some t =>
      free_entries 10 (now t) = [(4216, 50); (4152, 19088743)] /\
      live t = [4112] /\
      match tumalloc 10 true 48 (now t) with
      | Done q s' =>
          q = 4152 + sizeof_free_block /\
          HEAD s' = 4216 /\ next_of (heap s') 4216 = 4216 /\
          walk 4 (heap s') (HEAD s') = [4216; 4216; 4216; 4216]
      | _ => False
      end
  | None => False
  end.
Proof. vm_compute. repeat split; auto; discriminate. Qed.

(** C6.  After [grow_after_reuse] the block with payload 4232 is
    allocated, its header 4216 records 10 bytes and its sentinel is in
    place.  Growing it to 48 bytes makes [tumalloc] split the free
    remainder at 4152, whose recorded size was overwritten by a sentinel;
    the remainder of that split and then the new sentinel are written
    over the header 4216.  The size [turealloc] reads for the copy is
    19088743, not 10, and the release of the old pointer finds no
    sentinel behind that many bytes: the call ends in [abort], no pointer
    is returned. *)
Theorem turealloc_aborts_after_reuse :
  match run 10 grow_after_reuse (empty_heap 4096) with
  | Some t =>
      In 4232 (live t) /\
      size_of (heap (now t)) (wrap (4232 - sizeof_free_block)) = 10 /\
      sentinel_of (heap (now t)) (wrap (4232 - sizeof_free_block))
      = MAGIC_NUMBER /\
      match tumalloc 10 true 48 (now t) with
      | Done q s1 =>
          q = 4152 + sizeof_free_block /\
          size_of (heap s1) (wrap (4232 - sizeof_free_block)) = 19088743
      | _ => False
      end /\
      match turealloc 10 true 4232 48 (now t) with
      | Aborted _ => True
      | _ => False
      end
  | None => False
  end.
Proof. vm_compute. repeat split; auto. Qed.

(** ** Allocation failure *)

(** A null result of [tumalloc] comes from a path that has written
    nothing, provided no block sits on the last 16 bytes of the address
    space, where payload addresses wrap to [NULL]. *)
Lemma extend_heap_null : forall ok size s s1,
  0 < brk s < WORD - sizeof_free_block ->
  extend_heap ok size s = Done 0 s1 ->
  heap s1 = heap s /\ HEAD s1 = HEAD s /\ brk s1 = brk s.
Proof.
  intros ok size s s1 Hb. unfold extend_heap, do_alloc, sbrk.
  destruct ok.
  - cbn [fst snd].
    destruct (Z.eqb_spec (brk s) (WORD - 1));
      [unfold WORD, sizeof_free_block in *; lia|].
    destruct (Z.eqb_spec (brk s) 0); [lia|].
    intros H. inversion H as [[Hp Hs]]. exfalso.
    rewrite wrap_small in Hp by (unfold WORD, sizeof_free_block in *; lia).
    unfold sizeof_free_block in *. lia.
  - rewrite Z.eqb_refl. cbn [fst snd]. rewrite Z.eqb_refl.
    intros H. inversion H. cbn. auto.
Qed.

Lemma take_block_null : forall size s curr prev s1,
  wrap (curr + sizeof_free_block) <> 0 ->
  take_block size s curr prev = Done 0 s1 ->
  heap s1 = heap s /\ HEAD s1 = HEAD s /\ brk s1 = brk s.
Proof.
  intros size s curr prev s1 Hc. unfold take_block, split.
  destruct (size_of (heap s) curr <? wrap (wrap (to_int size) + sizeof_free_block)).
  - rewrite Z.eqb_refl. intros H. inversion H. cbn. auto.
  - destruct (curr =? 0).
    + intros H. inversion H. cbn. auto.
    + intros H. inversion H. contradiction.
Qed.

Lemma first_fit_null : forall fuel ok size s curr prev s1,
  0 < brk s < WORD - sizeof_free_block ->
  Forall (fun x => wrap (x + sizeof_free_block) <> 0) (walk fuel (heap s) curr) ->
  first_fit fuel ok size s curr prev = Done 0 s1 ->
  heap s1 = heap s /\ HEAD s1 = HEAD s /\ brk s1 = brk s.
Proof.
  induction fuel as [|f IH]; intros ok size s curr prev s1 Hb Hw Hr;
    cbn [first_fit walk] in *; [discriminate|].
  destruct (curr =? 0); [eapply extend_heap_null; eauto|].
  inversion Hw as [|? ? Hc Hrest]; subst.
  destruct (size <=? size_of (heap s) curr).
  - destruct (size_of (heap s) curr <? wrap (size + sizeof_free_block)).
    + eapply IH; eauto.
    + eapply take_block_null; eauto.
  - eapply IH; eauto.
Qed.

Lemma tumalloc_null : forall fuel ok size s s1,
  0 < brk s < WORD - sizeof_free_block ->
  Forall (fun x => wrap (x + sizeof_free_block) <> 0)
         (walk fuel (heap s) (HEAD s)) ->
  tumalloc fuel ok size s = Done 0 s1 ->
  heap s1 = heap s /\ HEAD s1 = HEAD s /\ brk s1 = brk s.
Proof.
  intros fuel ok size s s1 Hb Hw. unfold tumalloc.
  destruct (HEAD s =? 0); [apply extend_heap_null; auto|].
  apply first_fit_null; auto.
Qed.

(** C9.  When a growing [turealloc] gets a null result from the fresh
    allocation, it returns [NULL] itself, and memory, the free list and
    the break are what they were before the call: the old block has not
    been released, and its header and payload are untouched. *)
Theorem turealloc_failure_keeps_block :
  forall (fuel : nat) (ok : bool) (ptr new_size : Z) (s s1 : state),
    ptr <> 0 ->
    size_of (heap s) (wrap (ptr - sizeof_free_block)) < new_size ->
    0 < brk s < WORD - sizeof_free_block ->
    Forall (fun x => wrap (x + sizeof_free_block) <> 0)
           (walk fuel (heap s) (HEAD s)) ->
    tumalloc fuel ok new_size s = Done 0 s1 ->
    turealloc fuel ok ptr new_size s = Done 0 s1 /\
    heap s1 = heap s /\ HEAD s1 = HEAD s /\ brk s1 = brk s /\
    size_of (heap s1) (wrap (ptr - sizeof_free_block))
    = size_of (heap s) (wrap (ptr - sizeof_free_block)) /\
    walk fuel (heap s1) (HEAD s1) = walk fuel (heap s) (HEAD s).
Proof.
  intros fuel ok ptr new_size s s1 Hptr Hgrow Hb Hw Hnull.
  destruct (tumalloc_null _ _ _ _ _ Hb Hw Hnull) as (Hh & HH & Hbrk).
  split.
  - unfold turealloc. destruct (Z.eqb_spec ptr 0); [contradiction|].
    destruct (Z.leb_spec new_size
                (size_of (heap s) (wrap (ptr - sizeof_free_block)))); [lia|].
    rewrite Hnull. reflexivity.
  - rewrite Hh, HH. auto.
Qed.

Lemma turealloc_failure_keeps_block_witness :
  exists s1,
    turealloc 5 false 4112 200 one_block = Done 0 s1 /\
    heap s1 = heap one_block /\ HEAD s1 = HEAD one_block /\
    brk s1 = brk one_block /\
    size_of (heap s1) (wrap (4112 - sizeof_free_block))
    = size_of (heap one_block) (wrap (4112 - sizeof_free_block)) /\
    walk 5 (heap s1) (HEAD s1) = walk 5 (heap one_block) (HEAD one_block).
Proof.
  eexists.
  apply (turealloc_failure_keeps_block 5 false 4112 200 one_block).
  - discriminate.
  - vm_compute. reflexivity.
  - vm_compute. split; reflexivity.
  - constructor.
  - reflexivity.
Defined.

(** ** What a successful allocation leaves behind *)

Lemma sentinel_clear_of_size : forall hdr size,
  0 <= size <= WORD - (sizeof_free_block + sizeof_int) ->
  wrap (hdr + sizeof_free_block + size) + 4 <= hdr \/
  hdr + 8 <= wrap (hdr + sizeof_free_block + size).
Proof. intros. wrap_lia. Qed.

(** Every non-null result is the payload of a block whose header records
    the request and whose sentinel is in place. *)
Lemma extend_heap_block : forall ok size s q s1,
  0 <= size <= WORD - (sizeof_free_block + sizeof_int) ->
  extend_heap ok size s = Done q s1 -> q <> 0 ->
  exists hdr, q = wrap (hdr + sizeof_free_block) /\
              size_of (heap s1) hdr = size /\
              load 4 (heap s1) (wrap (hdr + sizeof_free_block + size))
              = MAGIC_NUMBER.
Proof.
  intros ok size s q s1 Hsize. unfold extend_heap, do_alloc.
  destruct (sbrk ok _ s) as [ptr s0].
  destruct (ptr =? WORD - 1).
  - rewrite Z.eqb_refl. intros H Hq. inversion H. congruence.
  - cbn [fst snd heap with_heap]. destruct (ptr =? 0).
    + intros H Hq. inversion H. congruence.
    + intros H _. injection H as Hq Hs. subst q s1.
      exists ptr. split; [reflexivity|].
      cbn [heap with_heap].
      pose proof (sentinel_clear_of_size ptr size Hsize) as Hclear.
      split.
      * fields. rewrite Z.add_0_r.
        rewrite load8_store4_other by lia.
        rewrite load8_store8_other by lia.
        apply load8_store8_same. unfold WORD in *. lia.
      * apply load4_store4_same. unfold MAGIC_NUMBER. lia.
Qed.

Lemma take_block_block : forall size s curr prev q s1,
  0 <= size <= WORD - (sizeof_free_block + sizeof_int) ->
  take_block size s curr prev = Done q s1 -> q <> 0 ->
  exists hdr, q = wrap (hdr + sizeof_free_block) /\
              size_of (heap s1) hdr = size /\
              load 4 (heap s1) (wrap (hdr + sizeof_free_block + size))
              = MAGIC_NUMBER.
Proof.
  intros size s curr prev q s1 Hsize. unfold take_block.
  destruct (split (heap s) curr (to_int size)) as [header m1].
  destruct (header =? 0).
  - intros H Hq. inversion H. congruence.
  - intros H _. injection H as Hq Hs. subst q s1.
    exists header. split; [reflexivity|].
    cbn [heap with_heap].
    pose proof (sentinel_clear_of_size header size Hsize) as Hclear.
    split.
    + fields. rewrite Z.add_0_r.
      rewrite load8_store4_other by lia.
      apply load8_store8_same. unfold WORD in *. lia.
    + apply load4_store4_same. unfold MAGIC_NUMBER. lia.
Qed.

Lemma first_fit_block : forall fuel ok size s curr prev q s1,
  0 <= size <= WORD - (sizeof_free_block + sizeof_int) ->
  first_fit fuel ok size s curr prev = Done q s1 -> q <> 0 ->
  exists hdr, q = wrap (hdr + sizeof_free_block) /\
              size_of (heap s1) hdr = size /\
              load 4 (heap s1) (wrap (hdr + sizeof_free_block + size))
              = MAGIC_NUMBER.
Proof.
  induction fuel as [|f IH]; intros ok size s curr prev q s1 Hsize;
    cbn [first_fit]; [discriminate|].
  destruct (curr =? 0); [apply extend_heap_block; auto|].
  destruct (size <=? size_of (heap s) curr); [|apply IH; auto].
  destruct (size_of (heap s) curr <? wrap (size + sizeof_free_block));
    [apply IH; auto | apply take_block_block; auto].
Qed.

Lemma tumalloc_block : forall fuel ok size s q s1,
  0 <= size <= WORD - (sizeof_free_block + sizeof_int) ->
  tumalloc fuel ok size s = Done q s1 -> q <> 0 ->
  exists hdr, q = wrap (hdr + sizeof_free_block) /\
              size_of (heap s1) hdr = size /\
              load 4 (heap s1) (wrap (hdr + sizeof_free_block + size))
              = MAGIC_NUMBER.
Proof.
  intros fuel ok size s q s1 Hsize. unfold tumalloc.
  destruct (HEAD s =? 0); [apply extend_heap_block; auto|].
  apply first_fit_block; auto.
Qed.

(** ** What an allocation does not touch *)

Lemma extend_heap_frame : forall ok size s q s1,
  0 <= size -> 0 <= brk s ->
  brk s + size + (sizeof_free_block + sizeof_int) <= WORD ->
  extend_heap ok size s = Done q s1 ->
  forall x, x < brk s \/ brk s + size + (sizeof_free_block + sizeof_int) <= x ->
            heap s1 x = heap s x.
Proof.
  intros ok size s q s1 Hsize Hb Hend. unfold extend_heap, do_alloc, sbrk.
  destruct ok.
  - cbn [fst snd heap with_heap].
    destruct (brk s =? WORD - 1).
    + rewrite Z.eqb_refl. intros H x Hx. injection H as _ <-. reflexivity.
    + destruct (brk s =? 0).
      * intros H x Hx. injection H as _ <-. cbn [heap fprintf_stderr with_heap].
        fields. mem_frame. reflexivity.
      * intros H x Hx. injection H as _ <-. cbn [heap with_heap].
        rewrite (wrap_small (brk s + sizeof_free_block + size))
          by (unfold sizeof_free_block, sizeof_int in *; lia).
        fields. mem_frame. reflexivity.
  - rewrite Z.eqb_refl. cbn [fst snd]. rewrite Z.eqb_refl.
    intros H x Hx. injection H as _ <-. reflexivity.
Qed.

Lemma take_block_frame : forall size s c prev q s1,
  0 <= size < 2147483648 ->
  0 < c ->
  c + size + 2 * sizeof_free_block <= WORD ->
  size + sizeof_free_block <= size_of (heap s) c ->
  take_block size s c prev = Done q s1 ->
  forall x,
    (x < c \/ c + size + 2 * sizeof_free_block <= x) ->
    (prev = 0 \/ x < prev + off_next \/ prev + sizeof_free_block <= x) ->
    heap s1 x = heap s x.
Proof.
  intros size s c prev q s1 Hsize Hc Hend Hfit.
  pose proof (size_of_range (heap s) c) as Hszc.
  unfold take_block, split.
  rewrite (to_int_small size) by lia.
  rewrite (wrap_small size) by (unfold WORD; lia).
  rewrite (wrap_small (size + sizeof_free_block))
    by (unfold WORD, sizeof_free_block; lia).
  destruct (Z.ltb_spec (size_of (heap s) c) (size + sizeof_free_block)); [lia|].
  destruct (Z.eqb_spec c 0); [lia|].
  rewrite (wrap_small (c + size + sizeof_free_block))
    by (unfold sizeof_free_block in *; lia).
  rewrite (wrap_small (c + sizeof_free_block + size))
    by (unfold sizeof_free_block in *; lia).
  destruct (Z.eqb_spec prev 0) as [Hp|Hp];
    intros Hr x Hx1 Hx2; injection Hr as _ <-;
    cbn [heap HEAD with_heap with_HEAD]; fields; mem_frame; reflexivity.
Qed.

Section Decompose.
Variables (size : Z) (m : mem).

(** Either every entry is passed over, or there is a first one that is
    not. *)
Lemma first_fit_cases : forall l : list Z,
  Forall (fun x => size_of m x < size + sizeof_free_block) l \/
  exists l1 c l2,
    l = l1 ++ c :: l2 /\
    Forall (fun x => size_of m x < size + sizeof_free_block) l1 /\
    size + sizeof_free_block <= size_of m c.
Proof.
  induction l as [|x t IH]; [left; constructor|].
  destruct (Z_lt_le_dec (size_of m x) (size + sizeof_free_block)) as [Hlt|Hge].
  - destruct IH as [Hall|(l1 & c & l2 & -> & Hs & Hc)].
    + left. constructor; auto.
    + right. exists (x :: l1), c, l2. repeat split; auto.
  - right. exists [], x, t. repeat split; auto.
Qed.
End Decompose.

(** [tumalloc] writes only inside blocks of the free list and inside the
    memory it obtains from [sbrk]. *)
Lemma tumalloc_frame : forall fuel ok size s l q s1,
  0 <= size < 2147483648 ->
  0 <= HEAD s ->
  flist (heap s) (HEAD s) l ->
  Forall (fun b => block_end (heap s) b <= WORD) l ->
  0 <= brk s ->
  brk s + size + (sizeof_free_block + sizeof_int) <= WORD ->
  (length l < fuel)%nat ->
  tumalloc fuel ok size s = Done q s1 ->
  forall x,
    Forall (fun b => x < b \/ block_end (heap s) b <= x) l ->
    (x < brk s \/ brk s + size + (sizeof_free_block + sizeof_int) <= x) ->
    heap s1 x = heap s x.
Proof.
  intros fuel ok size s l q s1 Hsize Hhead Hl Hends Hb Hbend Hfuel Hrun x Hx Hxb.
  assert (Hsz : 0 <= size /\ size + sizeof_free_block < WORD)
    by (unfold WORD, sizeof_free_block; lia).
  destruct (first_fit_cases size (heap s) l) as [Hall|(l1 & c & l2 & -> & Hs & Hc)].
  - assert (E : tumalloc fuel ok size s = extend_heap ok size s).
    { unfold tumalloc. destruct (Z.eqb_spec (HEAD s) 0); [reflexivity|].
      apply (first_fit_skips ok size s Hsz l); auto. }
    rewrite E in Hrun.
    apply (extend_heap_frame ok size s q s1 (proj1 Hsz) Hb Hbend Hrun x Hxb).
  - assert (E : tumalloc fuel ok size s = take_block size s c (last l1 0)).
    { unfold tumalloc.
      assert (Hnz : HEAD s <> 0).
      { destruct l1; cbn [app flist] in Hl; destruct Hl as (-> & Hnz & _); auto. }
      destruct (Z.eqb_spec (HEAD s) 0); [contradiction|].
      apply (first_fit_finds ok size s Hsz l1 c l2); auto.
      rewrite length_app in Hfuel. lia. }
    rewrite E in Hrun.
    pose proof (flist_pos _ _ _ Hl Hhead) as Hpos.
    rewrite Forall_forall in Hpos, Hends, Hx.
    assert (Hcin : In c (l1 ++ c :: l2)) by apply in_elt.
    pose proof (Hends c Hcin) as Hcend. pose proof (Hx c Hcin) as Hxc.
    unfold block_end in Hcend, Hxc.
    assert (Hc0 : 0 < c) by (apply Hpos; exact Hcin).
    assert (Hcw : c + size + 2 * sizeof_free_block <= WORD)
      by (unfold sizeof_free_block in *; lia).
    apply (take_block_frame size s c (last l1 0) q s1 Hsize Hc0 Hcw Hc Hrun).
    + unfold sizeof_free_block in *. lia.
    + destruct l1 as [|y t] using rev_ind; [left; reflexivity|].
      rewrite last_last. right.
      assert (Hpin : In y ((t ++ [y]) ++ c :: l2))
        by (rewrite !in_app_iff; cbn [In]; tauto).
      pose proof (Hx y Hpin) as Hxy. pose proof (block_end_ge (heap s) y).
      unfold off_next, sizeof_free_block in *. lia.
Qed.

(** ** Reallocation *)

Lemma memcpy_inside : forall m d s n i,
  0 <= i < n -> memcpy m d s n (d + i) = m (s + i).
Proof.
  intros. unfold memcpy.
  destruct (Z.leb_spec d (d + i)); destruct (Z.ltb_spec (d + i) (d + n));
    cbn [andb]; try lia.
  f_equal. lia.
Qed.

Lemma memcpy_outside : forall m d s n x,
  x < d \/ d + n <= x -> memcpy m d s n x = m x.
Proof.
  intros. unfold memcpy.
  destruct (Z.leb_spec d x); destruct (Z.ltb_spec x (d + n));
    cbn [andb]; try lia; reflexivity.
Qed.

(** How [turealloc] is put together.  With a null pointer [turealloc] is
    [tumalloc].  When the size in the old header covers the request, the same pointer comes back and
    nothing changes, the recorded size included.  Otherwise [tumalloc] is
    asked for the new size; once it has returned a block [q] (whose header
    records the new size), as many bytes as the old header records are
    copied from the old payload to the same offsets of the new one, and
    nothing else is written; then the old pointer goes through [tufree],
    and [q] is the result if that returns.  The size read for the copy is
    the one recorded before the call as long as the old header lies
    outside the free blocks and outside the memory newly obtained. *)
Theorem turealloc_contract :
  forall (fuel : nat) (ok : bool) (ptr new_size : Z) (s : state),
    let header := wrap (ptr - sizeof_free_block) in
    turealloc fuel ok 0 new_size s = tumalloc fuel ok new_size s /\
    (ptr <> 0 -> new_size <= size_of (heap s) header ->
     turealloc fuel ok ptr new_size s = Done ptr s) /\
    (ptr <> 0 -> size_of (heap s) header < new_size ->
     forall q s1,
       tumalloc fuel ok new_size s = Done q s1 -> q <> 0 ->
       let n := size_of (heap s1) header in
       let s2 := with_heap s1 (memcpy (heap s1) q ptr n) in
       (0 <= new_size <= WORD - (sizeof_free_block + sizeof_int) ->
        exists hdr, q = wrap (hdr + sizeof_free_block) /\
                    size_of (heap s1) hdr = new_size) /\
       (forall i, 0 <= i < n -> heap s2 (q + i) = heap s1 (ptr + i)) /\
       (forall x, x < q \/ q + n <= x -> heap s2 x = heap s1 x) /\
       turealloc fuel ok ptr new_size s =
       match tufree fuel ptr s2 with
       | Done _ s3 => Done q s3
       | Aborted s3 => Aborted s3
       | OutOfFuel => OutOfFuel
       end /\
       (forall l,
           0 <= new_size < 2147483648 ->
           0 <= HEAD s ->
           flist (heap s) (HEAD s) l ->
           Forall (fun b => block_end (heap s) b <= WORD) l ->
           0 <= brk s ->
           brk s + new_size + (sizeof_free_block + sizeof_int) <= WORD ->
           (length l < fuel)%nat ->
           Forall (fun b => header + off_next <= b \/
                            block_end (heap s) b <= header) l ->
           header + off_next <= brk s \/
           brk s + new_size + (sizeof_free_block + sizeof_int) <= header ->
           n = size_of (heap s) header)).
Proof.
  intros fuel ok ptr new_size s header.
  split; [reflexivity|]. split.
  - intros Hptr Hcov. unfold turealloc.
    destruct (Z.eqb_spec ptr 0); [contradiction|]. fold header.
    destruct (Z.leb_spec new_size (size_of (heap s) header)); [reflexivity|lia].
  - intros Hptr Hgrow q s1 Hrun Hq n s2.
    split; [|split; [|split; [|split]]].
    + intros Hsize.
      destruct (tumalloc_block _ _ _ _ _ _ Hsize Hrun Hq) as (hdr & E1 & E2 & _).
      exists hdr. auto.
    + intros i Hi. unfold s2. cbn [heap with_heap]. apply memcpy_inside. exact Hi.
    + intros x Hx. unfold s2. cbn [heap with_heap]. apply memcpy_outside. exact Hx.
    + unfold turealloc.
      destruct (Z.eqb_spec ptr 0); [contradiction|]. fold header.
      destruct (Z.leb_spec new_size (size_of (heap s) header)); [lia|].
      rewrite Hrun. destruct (Z.eqb_spec q 0); [contradiction|]. reflexivity.
    + intros l Hsize Hhead Hl Hends Hb Hbend Hfuel Hout Houtb.
      unfold n. apply size_of_frame. intros y Hy.
      apply (tumalloc_frame fuel ok new_size s l q s1); auto.
      * rewrite Forall_forall in *. intros b Hbin. specialize (Hout b Hbin).
        unfold off_next in *. lia.
      * unfold off_next in *. lia.
Qed.

Lemma turealloc_contract_witness :
  turealloc 5 true 4112 60 one_block = Done 4112 one_block /\
  match turealloc 5 true 4112 200 one_block with
  | Done p s3 =>
      p = 4232 /\ free_entries 5 s3 = [(4096, 100)] /\
      size_of (heap s3) 4216 = 200 /\
      map (fun i => heap s3 (p + i)) [0; 1; 99]
      = map (fun i => heap one_block (4112 + i)) [0; 1; 99]
  | _ => False
  end.
Proof.
  destruct (turealloc_contract 5 true 4112 200 one_block) as (_ & _ & Hgrow).
  destruct (turealloc_contract 5 true 4112 60 one_block) as (_ & Hkeep & _).
  split.
  - apply Hkeep; [discriminate | vm_compute; discriminate].
  - destruct (Hgrow ltac:(discriminate) ltac:(vm_compute; reflexivity)
                4232
                (match tumalloc 5 true 200 one_block with
                 | Done _ s1 => s1
                 | _ => one_block
                 end)
                eq_refl ltac:(discriminate)) as (_ & _ & _ & Hr & _).
    rewrite Hr. vm_compute. repeat split.
Defined.

(** ** Coalescing *)

Lemma find_prev_from_adjacent : forall fuel m h block p,
  find_prev_from fuel m h block = Some p -> p <> 0 ->
  wrap (p + size_of m p + sizeof_free_block) = block.
Proof.
  induction fuel as [|f IH]; intros m h block p; cbn [find_prev_from];
    [discriminate|].
  destruct (h =? 0); [intros H Hp; injection H as <-; contradiction|].
  destruct (Z.eqb_spec (wrap (h + size_of m h + sizeof_free_block)) block).
  - intros H _. injection H as <-. assumption.
  - apply IH.
Qed.

Lemma find_next_from_adjacent : forall fuel m h stop n,
  find_next_from fuel m h stop = Some n -> n <> 0 -> n = stop.
Proof.
  induction fuel as [|f IH]; intros m h stop n; cbn [find_next_from];
    [discriminate|].
  destruct (h =? 0); [intros H Hn; injection H as <-; contradiction|].
  destruct (Z.eqb_spec h stop).
  - intros H _. injection H as <-. assumption.
  - apply IH.
Qed.

(** [tufree] with an intact sentinel is [coalesce] on the pushed state. *)
Lemma tufree_done : forall fuel ptr s s',
  ptr <> 0 ->
  tufree fuel ptr s = Done tt s' ->
  let header := wrap (ptr - sizeof_free_block) in
  load 4 (heap s) (wrap (header + sizeof_free_block + size_of (heap s) header))
  = MAGIC_NUMBER /\
  exists b, coalesce fuel header (push_front header s) = Some (b, s').
Proof.
  intros fuel ptr s s' Hptr. unfold tufree.
  destruct (Z.eqb_spec ptr 0); [contradiction|].
  unfold sentinel_of.
  destruct (Z.eqb_spec
              (to_int (load 4 (heap s)
                 (wrap (wrap (ptr - sizeof_free_block) + sizeof_free_block +
                        size_of (heap s) (wrap (ptr - sizeof_free_block))))))
              MAGIC_NUMBER) as [E|E]; [|discriminate].
  intros H. split.
  - apply (proj1 (to_int_magic _ (load4_range _ _))). exact E.
  - destruct (coalesce fuel _ (push_front _ s)) as [[b s0]|]; [|discriminate].
    injection H as <-. eauto.
Qed.

(** The size the released block records once [coalesce] has run, in terms
    of the neighbours that were found. *)
Lemma coalesce_size : forall fuel block s b s' prev next,
  block <> 0 ->
  coalesce fuel block s = Some (b, s') ->
  find_prev fuel s block = Some prev ->
  find_next fuel s block = Some next ->
  prev = 0 \/ prev + sizeof_free_block <= block \/ block + off_next <= prev ->
  (next = 0 \/ prev <> 0 -> size_of (heap s') block = size_of (heap s) block) /\
  (prev = 0 -> next <> 0 ->
   size_of (heap s') block
   = wrap (size_of (heap s) block
           + wrap (size_of (heap s) next + sizeof_free_block))).
Proof.
  intros fuel block s b s' prev next Hblock Hco Hprev Hnext Hapart.
  unfold coalesce in Hco. destruct (Z.eqb_spec block 0); [contradiction|].
  rewrite Hprev, Hnext in Hco.
  assert (Hadj : prev <> 0 ->
                 wrap (prev + size_of (heap s) prev + sizeof_free_block) = block)
    by (apply find_prev_from_adjacent with (1 := Hprev)).
  assert (Hend : next <> 0 ->
                 next = wrap (block + size_of (heap s) block + sizeof_free_block))
    by (apply find_next_from_adjacent with (1 := Hnext)).
  unfold merge_prev in Hco.
  destruct (Z.eqb_spec prev 0) as [Hp|Hp].
  - (* no previous neighbour: the block itself may absorb the next one *)
    injection Hco as _ <-. cbn [heap with_heap]. unfold merge_next.
    destruct (Z.eqb_spec next 0) as [Hn|Hn].
    + split; [reflexivity|]. intros _ Hn'. contradiction.
    + rewrite <- (Hend Hn), Z.eqb_refl. split; [intros [H|H]; contradiction|].
      intros _ _. fields. rewrite load8_store8_other by lia.
      apply load8_store8_same. apply wrap_range.
  - (* the previous neighbour absorbs the block: only its header is written *)
    rewrite (Hadj Hp), Z.eqb_refl in Hco.
    split; [|intros Hp'; contradiction]. intros _.
    destruct Hapart as [Hp'|Hapart]; [contradiction|].
    injection Hco as _ <-. cbn [heap with_heap]. unfold merge_next.
    repeat match goal with
           | |- context [if ?c then _ else _] => destruct c
           end;
      fields; mem_frame; reflexivity.
Qed.

(** Two heap extensions in a row: the second header starts one sentinel
    behind the end of the first payload. *)
Lemma extend_heap_twice : forall size1 size2 s q1 s1 q2 s2,
  0 <= size1 -> 0 <= size2 ->
  0 < brk s ->
  brk s + (size1 + sizeof_free_block + sizeof_int)
        + (size2 + sizeof_free_block + sizeof_int) < WORD ->
  extend_heap true size1 s = Done q1 s1 ->
  extend_heap true size2 s1 = Done q2 s2 ->
  let h1 := q1 - sizeof_free_block in
  let h2 := q2 - sizeof_free_block in
  h1 = brk s /\
  h2 = h1 + sizeof_free_block + size1 + sizeof_int /\
  size_of (heap s2) h1 = size1 /\
  load 4 (heap s2) (h1 + sizeof_free_block + size1) = MAGIC_NUMBER /\
  wrap (h1 + size_of (heap s2) h1 + sizeof_free_block) <> h2.
Proof.
  intros size1 size2 s q1 s1 q2 s2 Hs1 Hs2 Hb Hend H1 H2 h1 h2.
  revert H1 H2.
  unfold extend_heap, do_alloc, sbrk. cbn [fst snd heap brk with_heap].
  destruct (Z.eqb_spec (brk s) (WORD - 1));
    [unfold sizeof_free_block, sizeof_int in *; lia|].
  destruct (Z.eqb_spec (brk s) 0); [lia|].
  intros H1. injection H1 as Hq1 <-. cbn [fst snd heap brk with_heap].
  replace (wrap (brk s + wrap (wrap (size1 + sizeof_free_block) + sizeof_int)))
    with (brk s + sizeof_free_block + size1 + sizeof_int) by wrap_lia.
  destruct (Z.eqb_spec (brk s + sizeof_free_block + size1 + sizeof_int) (WORD - 1));
    [unfold sizeof_free_block, sizeof_int in *; lia|].
  destruct (Z.eqb_spec (brk s + sizeof_free_block + size1 + sizeof_int) 0);
    [unfold sizeof_free_block, sizeof_int in *; lia|].
  intros H2. injection H2 as Hq2 <-. cbn [heap with_heap].
  assert (E1 : h1 = brk s) by (unfold h1; wrap_lia).
  assert (E2 : h2 = brk s + sizeof_free_block + size1 + sizeof_int)
    by (unfold h2; wrap_lia).
  rewrite E1, E2. clear E1 E2 h1 h2.
  rewrite (wrap_small (brk s + sizeof_free_block + size1))
    by (unfold WORD, sizeof_free_block, sizeof_int in *; lia).
  assert (Hsz : size_of
    (store 4
       (set_next
          (set_size
             (store 4 (set_next (set_size (heap s) (brk s) size1) (brk s) 0)
                (brk s + sizeof_free_block + size1) MAGIC_NUMBER)
             (brk s + sizeof_free_block + size1 + sizeof_int) size2)
          (brk s + sizeof_free_block + size1 + sizeof_int) 0)
       (wrap (brk s + sizeof_free_block + size1 + sizeof_int
              + sizeof_free_block + size2)) MAGIC_NUMBER) (brk s) = size1).
  { set (a := wrap (brk s + sizeof_free_block + size1 + sizeof_int
                    + sizeof_free_block + size2)).
    assert (Ha : a + 4 <= brk s \/ brk s + 8 <= a).
    { unfold a. wrap_lia. }
    clearbody a. fields. mem_frame.
    apply load8_store8_same. unfold WORD in *. lia. }
  split; [reflexivity|]. split; [reflexivity|]. split; [exact Hsz|]. split.
  - set (a := wrap (brk s + sizeof_free_block + size1 + sizeof_int
                    + sizeof_free_block + size2)).
    assert (Ha : a + 4 <= brk s + sizeof_free_block + size1 \/
                 brk s + sizeof_free_block + size1 + sizeof_int <= a).
    { unfold a. wrap_lia. }
    clearbody a. fields.
    rewrite (load_store_other 4 4) by (cbn; lia).
    rewrite !load4_store8_other by lia.
    apply load4_store4_same. unfold MAGIC_NUMBER. lia.
  - rewrite Hsz. wrap_lia.
Qed.

(** Releasing the block at 4096 now merges it with the free remainder that
    follows it, so its recorded size does not stay at 40.  And after
    [extension_pair_reused] the block at 4096, which came from a heap
    extension with 19088795 bytes, records four bytes more, so that it
    ends where the block of the next heap extension starts: the locator
    of previous neighbours finds it. *)
Lemma release_grows_recorded_size :
  match run 10 split_once (empty_heap 4096) with
  | Some t =>
      In 4112 (live t) /\
      size_of (heap (now t)) 4096 = 40 /\
      free_entries 10 (now t) = [(4152, 19088743)] /\
      match tufree 10 4112 (now t) with
      | Done _ s' =>
          size_of (heap s') 4096 = 40 + (19088743 + sizeof_free_block)
      | _ => False
      end
  | None => False
  end /\
  match run 10 (firstn 2 extension_pair_reused) (empty_heap 4096),
        run 10 extension_pair_reused (empty_heap 4096) with
  | Some before, Some after =>
      live before = [19092927; 4112] /\
      size_of (heap (now before)) 4096 = 19088795 /\
      sbrk_calls (now before) = 2%nat /\
      sbrk_calls (now after) = 2%nat /\
      size_of (heap (now after)) 4096 = 19088795 + sizeof_int /\
      wrap (4096 + size_of (heap (now after)) 4096 + sizeof_free_block)
      = wrap (19092927 - sizeof_free_block) /\
      find_prev 10 (now after) (wrap (19092927 - sizeof_free_block))
      = Some 4096
  | _, _ => False
  end.
Proof. vm_compute. repeat split; auto. Qed.

(** C10, amended.  Let [prev] and [next] be what the neighbour locators
    return for the released header once [tufree] has pushed it on the
    list, the header not being at address 0 and [prev], if any, not lying
    over its size field.  A release that returns leaves the size recorded
    in the released header as it was when [next] is null, and also when
    [prev] is not null (that block then absorbs it, and whatever
    follows); when [next] is not null and [prev] is null the size grows by
    the size recorded in [next] and one header, modulo [2^64].  In the
    state that two consecutive granted heap extensions leave (sizes not
    negative, the break positive, nothing wrapping around), the second
    block starts one sentinel ([sizeof_int] bytes) behind the end of the
    first payload, where the sentinel of the first block lies and is in
    place, the first header records the size asked for, and the first
    block does not end at the second under the relation the neighbour
    locators use.  Nothing is said of later states. *)
Theorem release_size_and_extension_gap :
  (forall (fuel : nat) (ptr : Z) (s s' : state) (prev next : Z),
      let header := wrap (ptr - sizeof_free_block) in
      let pushed := push_front header s in
      ptr <> 0 -> header <> 0 ->
      tufree fuel ptr s = Done tt s' ->
      find_prev fuel pushed header = Some prev ->
      find_next fuel pushed header = Some next ->
      prev = 0 \/ prev + sizeof_free_block <= header \/
                  header + off_next <= prev ->
      (next = 0 \/ prev <> 0 ->
       size_of (heap s') header = size_of (heap s) header) /\
      (prev = 0 -> next <> 0 ->
       size_of (heap s') header
       = wrap (size_of (heap s) header
               + wrap (size_of (heap pushed) next + sizeof_free_block)))) /\
  (forall (size1 size2 : Z) (s : state) (q1 q2 : Z) (s1 s2 : state),
      0 <= size1 -> 0 <= size2 ->
      0 < brk s ->
      brk s + (size1 + sizeof_free_block + sizeof_int)
            + (size2 + sizeof_free_block + sizeof_int) < WORD ->
      extend_heap true size1 s = Done q1 s1 ->
      extend_heap true size2 s1 = Done q2 s2 ->
      let h1 := q1 - sizeof_free_block in
      let h2 := q2 - sizeof_free_block in
      h1 = brk s /\
      h2 = h1 + sizeof_free_block + size1 + sizeof_int /\
      size_of (heap s2) h1 = size1 /\
      load 4 (heap s2) (h1 + sizeof_free_block + size1) = MAGIC_NUMBER /\
      wrap (h1 + size_of (heap s2) h1 + sizeof_free_block) <> h2).
Proof.
  split.
  - intros fuel ptr s s' prev next header pushed Hptr Hhdr Hfree Hprev Hnext Hapart.
    destruct (tufree_done fuel ptr s s' Hptr Hfree) as (_ & b & Hco).
    fold header in Hco. fold pushed in Hco.
    destruct (coalesce_size fuel header pushed b s' prev next
                Hhdr Hco Hprev Hnext Hapart) as (Hsame & Hgrow).
    unfold pushed in Hsame, Hgrow. rewrite push_front_size in Hsame, Hgrow.
    split; assumption.
  - intros. eapply extend_heap_twice; eauto.
Qed.

Lemma release_size_and_extension_gap_witness :
  let s := state_after split_once 4096 in
  let s' := state_of (tufree 10 4112 s) s in
  let t1 := state_of (extend_heap true 100 (now (empty_heap 4096)))
                     (now (empty_heap 4096)) in
  let t2 := state_of (extend_heap true 50 t1) t1 in
  size_of (heap s') 4096
  = wrap (size_of (heap s) 4096
          + wrap (size_of (heap (push_front 4096 s)) 4152 + sizeof_free_block)) /\
  size_of (heap t2) 4096 = 100 /\
  wrap (4096 + size_of (heap t2) 4096 + sizeof_free_block) <> 4216.
Proof.
  intros s s' t1 t2.
  destruct release_size_and_extension_gap as (Hrel & Hgap).
  split.
  - destruct (Hrel 10%nat 4112 s s' 0 4152) as (_ & Hgrow).
    + discriminate.
    + vm_compute. discriminate.
    + lazy. reflexivity.
    + vm_compute. reflexivity.
    + vm_compute. reflexivity.
    + left. reflexivity.
    + apply Hgrow; [reflexivity | discriminate].
  - destruct (Hgap 100 50 (now (empty_heap 4096)) 4112 4232 t1 t2)
      as (_ & _ & Hsz & _ & Hne).
    + discriminate.
    + discriminate.
    + reflexivity.
    + reflexivity.
    + lazy. reflexivity.
    + lazy. reflexivity.
    + split; assumption.
Defined.

(** ** Releasing a block that has no free neighbour *)

Lemma with_heap_id : forall s, with_heap s (heap s) = s.
Proof. intros []. reflexivity. Qed.

Lemma byte_of_load : forall n m a i,
  0 <= i < Z.of_nat n ->
  (load n m a / 256 ^ i) mod 256 = (m (a + i)) mod 256.
Proof.
  induction n as [|k IH]; intros m a i Hi; [cbn in Hi; lia|].
  change (load (S k) m a) with ((m a) mod 256 + 256 * load k m (a + 1)).
  assert (Hb : 0 <= m a mod 256 < 256) by (apply Z.mod_pos_bound; lia).
  destruct (Z.eq_dec i 0) as [->|Hne].
  - rewrite Z.pow_0_r, Z.div_1_r, Z.add_0_r.
    rewrite (Z.mul_comm 256), Z.mod_add by lia.
    apply Z.mod_mod. lia.
  - replace i with (1 + (i - 1)) at 1 by lia.
    rewrite Z.pow_add_r by lia. rewrite Z.pow_1_r.
    rewrite <- Z.div_div by (try apply Z.pow_pos_nonneg; lia).
    replace ((m a mod 256 + 256 * load k m (a + 1)) / 256)
      with (load k m (a + 1)).
    + rewrite IH by lia. f_equal. f_equal. lia.
    + rewrite (Z.add_comm (m a mod 256)), (Z.mul_comm 256), Z.div_add_l by lia.
      rewrite (Z.div_small (m a mod 256)) by lia. lia.
Qed.

Lemma load_ext_mod : forall n m m' a,
  (forall x, a <= x < a + Z.of_nat n -> (m x) mod 256 = (m' x) mod 256) ->
  load n m a = load n m' a.
Proof.
  induction n as [|k IH]; intros m m' a H; [reflexivity|].
  change (load (S k) m a) with ((m a) mod 256 + 256 * load k m (a + 1)).
  change (load (S k) m' a) with ((m' a) mod 256 + 256 * load k m' (a + 1)).
  rewrite (H a) by lia. rewrite (IH m m' (a + 1)); auto.
  intros. apply H. lia.
Qed.

(** Writing back the word just read changes no byte value. *)
Lemma store_load_bytes : forall n m a x,
  (store n m a (load n m a) x) mod 256 = (m x) mod 256.
Proof.
  intros. rewrite store_spec.
  destruct (Z.leb_spec a x); destruct (Z.ltb_spec x (a + Z.of_nat n));
    cbn [andb]; auto.
  rewrite Z.mod_mod by lia. rewrite byte_of_load by lia. f_equal. f_equal. lia.
Qed.

Section PushFront.
Variables (header : Z) (s : state).

Lemma push_front_frame : forall x,
  x < header \/ header + sizeof_free_block <= x ->
  heap (push_front header s) x = heap s x.
Proof.
  intros x Hx. unfold push_front. cbn [heap with_heap with_HEAD].
  fields. mem_frame. reflexivity.
Qed.

Lemma push_front_HEAD : HEAD (push_front header s) = header.
Proof. reflexivity. Qed.

Lemma push_front_next :
  0 <= HEAD s < WORD -> next_of (heap (push_front header s)) header = HEAD s.
Proof.
  intros. unfold push_front. cbn [heap with_heap with_HEAD]. fields.
  apply load8_store8_same. assumption.
Qed.

Lemma push_front_size_other : forall x,
  x + off_next <= header \/ header + sizeof_free_block <= x ->
  size_of (heap (push_front header s)) x = size_of (heap s) x.
Proof.
  intros x Hx. apply size_of_frame. intros y Hy. apply push_front_frame.
  unfold off_next, sizeof_free_block in *. lia.
Qed.

Lemma push_front_next_other : forall x,
  x + sizeof_free_block <= header \/ header + sizeof_free_block <= x ->
  next_of (heap (push_front header s)) x = next_of (heap s) x.
Proof.
  intros x Hx. apply next_of_frame. intros y Hy. apply push_front_frame.
  unfold off_next, sizeof_free_block in *. lia.
Qed.

(** The sentinel of a block that ends at [header] occupies the low bytes
    of the size field of [header]; the push leaves it readable. *)
Lemma push_front_load4 : forall x,
  x + 4 <= header + off_next \/ header + sizeof_free_block <= x ->
  load 4 (heap (push_front header s)) x = load 4 (heap s) x.
Proof.
  intros x Hx. apply load_ext_mod. intros y Hy. cbn in Hy.
  unfold push_front. cbn [heap with_heap with_HEAD]. fields.
  rewrite store8_outside by lia. rewrite Z.add_0_r.
  apply store_load_bytes.
Qed.
End PushFront.

Lemma find_prev_from_none : forall m block l h fuel,
  flist m h l -> (length l < fuel)%nat ->
  Forall (fun x => wrap (x + size_of m x + sizeof_free_block) <> block) l ->
  find_prev_from fuel m h block = Some 0.
Proof.
  intros m block l h fuel Hl Hf Hno.
  destruct (find_prev_from_total m block l h fuel Hl Hf)
    as (r & Hr & [(-> & _)|(Hin & Hadj)]); auto.
  rewrite Forall_forall in Hno. exfalso. exact (Hno r Hin Hadj).
Qed.

Lemma find_next_from_none : forall m stop l h fuel,
  flist m h l -> (length l < fuel)%nat ->
  ~ In stop l ->
  find_next_from fuel m h stop = Some 0.
Proof.
  intros m stop l h fuel Hl Hf Hno.
  destruct (find_next_from_total m stop l h fuel Hl Hf)
    as (r & Hr & [(-> & _)|(-> & Hin)]); auto.
  contradiction.
Qed.

Lemma push_front_flist_tail : forall header s l,
  flist (heap s) (HEAD s) l ->
  Forall (fun x => x + sizeof_free_block <= header \/
                   header + sizeof_free_block <= x) l ->
  flist (heap (push_front header s)) (HEAD s) l.
Proof.
  intros header s l Hl Hap. eapply flist_ext; [|exact Hl].
  intros x Hx. rewrite Forall_forall in Hap.
  apply push_front_next_other. auto.
Qed.

(** A release with an intact sentinel and no free neighbour on either
    side only pushes the header. *)
Lemma tufree_alone : forall fuel header s l,
  0 < header ->
  header + sizeof_free_block + size_of (heap s) header < WORD ->
  load 4 (heap s) (header + sizeof_free_block + size_of (heap s) header)
  = MAGIC_NUMBER ->
  0 <= HEAD s < WORD ->
  flist (heap s) (HEAD s) l ->
  Forall (fun x => x + sizeof_free_block <= header \/
                   header + sizeof_free_block <= x) l ->
  Forall (fun x =>
            wrap (x + size_of (heap s) x + sizeof_free_block) <> header /\
            x <> header + sizeof_free_block + size_of (heap s) header) l ->
  (S (length l) < fuel)%nat ->
  tufree fuel (header + sizeof_free_block) s = Done tt (push_front header s).
Proof.
  intros fuel header s l Hh Hend Hguard HH Hl Hap Hno Hfuel.
  pose proof (size_of_range (heap s) header) as Hsz.
  unfold tufree, sentinel_of.
  destruct (Z.eqb_spec (header + sizeof_free_block) 0);
    [unfold sizeof_free_block in *; lia|].
  replace (wrap (header + sizeof_free_block - sizeof_free_block)) with header
    by (rewrite wrap_small; unfold sizeof_free_block in *; lia).
  rewrite (wrap_small (header + sizeof_free_block + size_of (heap s) header))
    by (unfold sizeof_free_block in *; lia).
  rewrite Hguard. change (to_int MAGIC_NUMBER =? MAGIC_NUMBER) with true.
  cbv iota.
  set (pushed := push_front header s).
  assert (Hszp : size_of (heap pushed) header = size_of (heap s) header)
    by apply push_front_size.
  assert (Hnxp : next_of (heap pushed) header = HEAD s)
    by (apply push_front_next; exact HH).
  assert (Hlp : flist (heap pushed) (HEAD s) l)
    by (apply push_front_flist_tail; assumption).
  assert (Hszo : forall x, In x l ->
             size_of (heap pushed) x = size_of (heap s) x).
  { intros x Hx. rewrite Forall_forall in Hap. specialize (Hap x Hx).
    apply push_front_size_other. unfold off_next, sizeof_free_block in *. lia. }
  assert (Hend' : wrap (header + size_of (heap s) header + sizeof_free_block)
                  = header + sizeof_free_block + size_of (heap s) header)
    by (rewrite wrap_small; unfold sizeof_free_block in *; lia).
  destruct fuel as [|f]; [inversion Hfuel|].
  assert (Hf : (length l < f)%nat) by lia.
  assert (Hprev : find_prev (S f) pushed header = Some 0).
  { unfold find_prev. cbn [find_prev_from]. change (HEAD pushed) with header.
    destruct (Z.eqb_spec header 0); [lia|].
    rewrite Hszp, Hend', Hnxp.
    destruct (Z.eqb_spec (header + sizeof_free_block + size_of (heap s) header)
                         header); [unfold sizeof_free_block in *; lia|].
    apply (find_prev_from_none _ _ l); auto.
    rewrite Forall_forall in *. intros x Hx. rewrite (Hszo x Hx).
    apply (Hno x Hx). }
  assert (Hnext : find_next (S f) pushed header = Some 0).
  { unfold find_next. cbn [find_next_from]. change (HEAD pushed) with header.
    rewrite Hszp, Hend'.
    destruct (Z.eqb_spec header 0); [lia|].
    rewrite Hnxp.
    destruct (Z.eqb_spec header
                (header + sizeof_free_block + size_of (heap s) header));
      [unfold sizeof_free_block in *; lia|].
    apply (find_next_from_none _ _ l); auto.
    rewrite Forall_forall in Hno. intros Hin. apply (Hno _ Hin). reflexivity. }
  unfold coalesce. destruct (Z.eqb_spec header 0); [lia|].
  rewrite Hprev, Hnext. unfold merge_prev, merge_next. rewrite !Z.eqb_refl.
  rewrite with_heap_id. reflexivity.
Qed.

Lemma take_block_done : forall size s c prev,
  0 <= size < 2147483648 ->
  0 < c ->
  c + size + 2 * sizeof_free_block <= WORD ->
  size + sizeof_free_block <= size_of (heap s) c ->
  exists s',
    take_block size s c prev = Done (c + sizeof_free_block) s' /\
    sbrk_calls s' = sbrk_calls s /\ brk s' = brk s /\
    load 4 (heap s') (c + sizeof_free_block + size) = MAGIC_NUMBER.
Proof.
  intros size s c prev Hsize Hc Hend Hfit.
  pose proof (size_of_range (heap s) c) as Hszc.
  unfold take_block, split.
  rewrite (to_int_small size) by lia.
  rewrite (wrap_small size) by (unfold WORD; lia).
  rewrite (wrap_small (size + sizeof_free_block))
    by (unfold WORD, sizeof_free_block; lia).
  destruct (Z.ltb_spec (size_of (heap s) c) (size + sizeof_free_block)); [lia|].
  destruct (Z.eqb_spec c 0); [lia|].
  rewrite (wrap_small (c + sizeof_free_block + size))
    by (unfold sizeof_free_block in *; lia).
  rewrite (wrap_small (c + sizeof_free_block))
    by (unfold sizeof_free_block in *; lia).
  eexists. split; [reflexivity|].
  destruct (prev =? 0); cbn [heap brk sbrk_calls with_heap with_HEAD];
    (split; [reflexivity|]); (split; [reflexivity|]);
    apply load4_store4_same; unfold MAGIC_NUMBER; lia.
Qed.

Lemma flist_head : forall m h l, flist m h l -> h = 0 \/ In h l.
Proof.
  intros m h [|x t] Hl; cbn [flist] in Hl.
  - left. exact Hl.
  - right. left. symmetry. apply Hl.
Qed.

(** ** Two adjacent blocks, released one after the other *)

Section AdjacentPair.
Variables (s : state) (a b sa sb : Z) (l : list Z).
Hypothesis Hsa : size_of (heap s) a = sa.
Hypothesis Hsb : size_of (heap s) b = sb.
Hypothesis Ha : 0 < a.
Hypothesis Hadj : b = a + sizeof_free_block + sa.
Hypothesis Hend : b + sizeof_free_block + sb < WORD.
Hypothesis Hguard_a : load 4 (heap s) b = MAGIC_NUMBER.
Hypothesis Hguard_b :
  load 4 (heap s) (b + sizeof_free_block + sb) = MAGIC_NUMBER.
Hypothesis HH : 0 <= HEAD s < WORD.
Hypothesis Hl : flist (heap s) (HEAD s) l.
Hypothesis Hapart :
  Forall (fun x => (x + sizeof_free_block <= a \/ a + sizeof_free_block <= x) /\
                   (x + sizeof_free_block <= b \/ b + sizeof_free_block <= x)) l.
Hypothesis Halone :
  Forall (fun x =>
            wrap (x + size_of (heap s) x + sizeof_free_block) <> a /\
            wrap (x + size_of (heap s) x + sizeof_free_block) <> b /\
            x <> b + sizeof_free_block + sb) l.






End AdjacentPair.

(** Releasing the block [b] whose physically-previous neighbour [a] is
    the head of the free list: [a] absorbs [b]. *)
Lemma release_after_prev : forall fuel s1 a b sa sb hd l,
  0 < a ->
  size_of (heap s1) a = sa ->
  size_of (heap s1) b = sb ->
  b = a + sizeof_free_block + sa ->
  b + sizeof_free_block + sb < WORD ->
  load 4 (heap s1) (b + sizeof_free_block + sb) = MAGIC_NUMBER ->
  HEAD s1 = a ->
  next_of (heap s1) a = hd ->
  hd <> b ->
  flist (heap s1) a (a :: l) ->
  Forall (fun x => x + sizeof_free_block <= b \/ b + sizeof_free_block <= x) l ->
  ~ In (b + sizeof_free_block + sb) l ->
  (S (S (length l)) < fuel)%nat ->
  exists s2,
    tufree fuel (b + sizeof_free_block) s1 = Done tt s2 /\
    HEAD s2 = b /\
    size_of (heap s2) b = sb /\
    next_of (heap s2) b = a /\
    size_of (heap s2) a = sa + sb + sizeof_free_block /\
    sbrk_calls s2 = sbrk_calls s1.
Proof.
  intros fuel s1 a b sa sb hd l Ha Hsa Hsb Hadj Hend Hguard HH Hnx Hhd Hl Hapb
         Hnone Hfuel.
  pose proof (size_of_range (heap s1) a) as Hra. rewrite Hsa in Hra.
  pose proof (size_of_range (heap s1) b) as Hrb. rewrite Hsb in Hrb.
  remember (push_front b s1) as p2 eqn:Ep2.
  assert (G0 : HEAD p2 = b) by (subst p2; reflexivity).
  assert (G1 : size_of (heap p2) b = sb)
    by (subst p2; rewrite push_front_size; exact Hsb).
  assert (G2 : next_of (heap p2) b = a).
  { subst p2. rewrite push_front_next; [exact HH|].
    rewrite HH. unfold sizeof_free_block in *. lia. }
  assert (G3 : size_of (heap p2) a = sa).
  { subst p2. rewrite push_front_size_other; [exact Hsa|].
    unfold off_next, sizeof_free_block in *. lia. }
  assert (G4 : next_of (heap p2) a = hd).
  { subst p2. rewrite push_front_next_other; [exact Hnx|].
    unfold sizeof_free_block in *. lia. }
  assert (G5 : flist (heap p2) (HEAD p2) (b :: a :: l)).
  { subst p2. apply push_front_flist;
      [ rewrite HH; unfold sizeof_free_block in *; lia
      | unfold sizeof_free_block in *; lia
      | rewrite HH; exact Hl
      | constructor; [unfold sizeof_free_block in *; lia | exact Hapb] ]. }
  assert (G6 : sbrk_calls p2 = sbrk_calls s1) by (subst p2; reflexivity).
  assert (Hea : wrap (a + sa + sizeof_free_block) = b)
    by (rewrite wrap_small; unfold sizeof_free_block in *; lia).
  assert (Heb : wrap (b + sb + sizeof_free_block) = b + sizeof_free_block + sb)
    by (rewrite wrap_small; unfold sizeof_free_block in *; lia).
  assert (Hmerge : wrap (sa + wrap (sb + sizeof_free_block))
                   = sa + sb + sizeof_free_block)
    by (rewrite (wrap_small (sb + _)), wrap_small;
        unfold sizeof_free_block in *; lia).
  destruct fuel as [|[|f]]; [inversion Hfuel | lia |].
  assert (Hprev : find_prev (S (S f)) p2 b = Some a).
  { unfold find_prev. cbn [find_prev_from]. rewrite G0.
    destruct (Z.eqb_spec b 0); [unfold sizeof_free_block in *; lia|].
    rewrite G1, Heb, G2.
    destruct (Z.eqb_spec (b + sizeof_free_block + sb) b);
      [unfold sizeof_free_block in *; lia|].
    destruct (Z.eqb_spec a 0); [lia|].
    rewrite G3, Hea, Z.eqb_refl. reflexivity. }
  assert (Hnext : find_next (S (S f)) p2 b = Some 0).
  { unfold find_next. rewrite G1, Heb.
    apply (find_next_from_none _ _ (b :: a :: l) _ _ G5); [cbn [length]; lia|].
    cbn [In]. intros [E|[E|Hin]].
    - unfold sizeof_free_block in *. lia.
    - unfold sizeof_free_block in *. lia.
    - contradiction. }
  assert (Hco : coalesce (S (S f)) b p2
                = Some (a, with_heap p2
                             (set_size (heap p2) a (sa + sb + sizeof_free_block)))).
  { unfold coalesce.
    destruct (Z.eqb_spec b 0); [unfold sizeof_free_block in *; lia|].
    rewrite Hprev, Hnext. unfold merge_prev.
    destruct (Z.eqb_spec a 0); [lia|].
    rewrite G3, Hea, Z.eqb_refl, G1, Hmerge.
    replace (next_of (set_size (heap p2) a (sa + sb + sizeof_free_block)) a)
      with hd
      by (rewrite <- G4; fields; mem_frame; reflexivity).
    destruct (Z.eqb_spec hd b); [contradiction|].
    unfold merge_next. rewrite Z.eqb_refl. reflexivity. }
  exists (with_heap p2 (set_size (heap p2) a (sa + sb + sizeof_free_block))).
  split.
  - unfold tufree, sentinel_of.
    destruct (Z.eqb_spec (b + sizeof_free_block) 0);
      [unfold sizeof_free_block in *; lia|].
    replace (wrap (b + sizeof_free_block - sizeof_free_block)) with b
      by (rewrite wrap_small; unfold sizeof_free_block in *; lia).
    rewrite Hsb.
    rewrite (wrap_small (b + sizeof_free_block + sb))
      by (unfold sizeof_free_block in *; lia).
    rewrite Hguard, <- Ep2, Hco. reflexivity.
  - cbn [heap HEAD sbrk_calls with_heap].
    split; [exact G0|]. split; [|split; [|split]].
    + rewrite <- G1. fields. mem_frame. reflexivity.
    + rewrite <- G2. fields. mem_frame. reflexivity.
    + fields. apply load8_store8_same. unfold sizeof_free_block in *. lia.
    + exact G6.
Qed.


(** Serving a request from the head of the list, or from the entry
    behind a head that is passed over. *)
Lemma tumalloc_from_head : forall fuel ok r s2 a sz,
  0 <= r < 2147483648 ->
  0 < a ->
  HEAD s2 = a ->
  size_of (heap s2) a = sz ->
  r + sizeof_free_block <= sz ->
  a + sizeof_free_block + sz <= WORD ->
  (0 < fuel)%nat ->
  exists s3, tumalloc fuel ok r s2 = Done (a + sizeof_free_block) s3 /\
             sbrk_calls s3 = sbrk_calls s2.
Proof.
  intros fuel ok r s2 a sz Hr Ha HH Hsz Hfit Hend Hfuel.
  destruct (take_block_done r s2 a 0) as (s3 & Ht & Hn & _); auto.
  - unfold sizeof_free_block in *. lia.
  - rewrite Hsz. exact Hfit.
  - exists s3. split; [|exact Hn].
    unfold tumalloc. rewrite HH. destruct (Z.eqb_spec a 0); [lia|].
    destruct fuel as [|f]; [inversion Hfuel|]. cbn [first_fit].
    destruct (Z.eqb_spec a 0); [lia|].
    rewrite Hsz, wrap_small by (unfold WORD, sizeof_free_block in *; lia).
    destruct (Z.leb_spec r sz); [|unfold sizeof_free_block in *; lia].
    destruct (Z.ltb_spec sz (r + sizeof_free_block)); [lia|]. exact Ht.
Qed.


(** ** Coalescing and reuse *)




(** * Further properties of the code *)

(** ** Unlinking by address *)

Lemma separated_In : forall l x y,
  separated l -> In x l -> In y l -> x <> y ->
  x + sizeof_free_block <= y \/ y + sizeof_free_block <= x.
Proof.
  intros l x y Hs Hx Hy Hne.
  destruct (ForallOrdPairs_In Hs x y Hx Hy) as [E|[H|H]]; [contradiction|auto|].
  destruct H; auto.
Qed.

(** The loop of [remove_free_block] stops at the entry in front of
    [block] and redirects its [next]. *)
Lemma remove_from_unlinks : forall m block p l2 pre h fuel,
  flist m h (pre ++ p :: block :: l2) ->
  (length pre < fuel)%nat ->
  remove_from fuel m h block = Some (set_next m p (next_of m block)).
Proof.
  intros m block p l2 pre. induction pre as [|x t IH]; intros h fuel Hl Hf.
  - cbn [app flist] in Hl. destruct Hl as (-> & Hp & Hb & _).
    destruct fuel; [inversion Hf|]. cbn [remove_from].
    destruct (Z.eqb_spec p 0); [contradiction|].
    rewrite Hb, Z.eqb_refl. reflexivity.
  - pose proof (flist_NoDup _ _ _ Hl) as Hnd.
    cbn [app flist] in Hl. destruct Hl as (-> & Hx & Ht).
    destruct fuel; [inversion Hf|]. cbn [remove_from].
    destruct (Z.eqb_spec x 0); [contradiction|].
    assert (Hnb : next_of m x <> block).
    { intros E.
      assert (Hin : In (next_of m x) (t ++ [p])).
      { destruct t as [|y t']; cbn [app flist] in Ht;
          destruct Ht as (E' & _); rewrite E'; left; reflexivity. }
      rewrite E in Hin.
      change (x :: t ++ p :: block :: l2)
        with ((x :: t) ++ p :: block :: l2) in Hnd.
      replace ((x :: t) ++ p :: block :: l2)
        with (((x :: t) ++ [p]) ++ block :: l2) in Hnd
        by (rewrite <- app_assoc; reflexivity).
      apply NoDup_remove_2 in Hnd. apply Hnd.
      rewrite in_app_iff. left. cbn [app]. right. exact Hin. }
    destruct (Z.eqb_spec (next_of m x) block); [contradiction|].
    apply IH; [exact Ht | cbn [length] in Hf; lia].
Qed.

Lemma remove_from_absent : forall m block l h fuel,
  flist m h l -> ~ In block l -> block <> 0 -> (length l < fuel)%nat ->
  remove_from fuel m h block = Some m.
Proof.
  intros m block. induction l as [|x t IH]; intros h fuel Hl Hno Hb Hf;
    cbn [flist] in Hl.
  - subst h. destruct fuel; [inversion Hf|]. reflexivity.
  - destruct Hl as (-> & Hx & Ht). destruct fuel; [inversion Hf|].
    cbn [remove_from]. destruct (Z.eqb_spec x 0); [contradiction|].
    assert (Hnb : next_of m x <> block).
    { intros E. destruct (flist_head _ _ _ Ht) as [E0|Hin].
      - congruence.
      - apply Hno. right. rewrite <- E. exact Hin. }
    destruct (Z.eqb_spec (next_of m x) block); [contradiction|].
    apply IH; auto.
    + intros Hin. apply Hno. right. exact Hin.
    + cbn [length] in Hf. lia.
Qed.

(** X1.  On a free list that ends in [NULL] and whose headers do not
    overlap, [remove_free_block] takes exactly the given header out: the
    entries before and behind it stay in their order, the only bytes
    written are the [next] field of its predecessor (none when it is the
    head, where [HEAD] moves instead), and the removed header itself is
    left as it was.  For a non-null address that is not on the list the
    call changes nothing. *)
Theorem remove_free_block_unlinks :
  forall (fuel : nat) (block : Z) (s : state),
    (forall l1 l2,
        flist (heap s) (HEAD s) (l1 ++ block :: l2) ->
        separated (l1 ++ block :: l2) ->
        (length l1 < fuel)%nat ->
        exists s',
          remove_free_block fuel block s = Some s' /\
          flist (heap s') (HEAD s') (l1 ++ l2) /\
          (forall x, x < last l1 0 + off_next \/
                     last l1 0 + sizeof_free_block <= x \/ l1 = [] ->
                     heap s' x = heap s x) /\
          next_of (heap s') block = next_of (heap s) block /\
          size_of (heap s') block = size_of (heap s) block /\
          brk s' = brk s /\ sbrk_calls s' = sbrk_calls s /\ diag s' = diag s) /\
    (forall l,
        flist (heap s) (HEAD s) l -> ~ In block l -> block <> 0 ->
        (length l < fuel)%nat ->
        remove_free_block fuel block s = Some s).
Proof.
  intros fuel block s. split.
  - intros l1 l2 Hl Hsep Hfuel.
    pose proof (flist_NoDup _ _ _ Hl) as Hnd.
    destruct l1 as [|x t] using rev_ind.
    + (* the head *)
      cbn [app flist] in Hl. destruct Hl as (E & Hb & Hl2).
      unfold remove_free_block. rewrite E, Z.eqb_refl.
      eexists. split; [reflexivity|].
      cbn [heap HEAD brk sbrk_calls diag with_HEAD app].
      repeat split; auto.
    + (* [x] is the predecessor *)
      clear IHt. rewrite last_last.
      rewrite <- app_assoc in Hl, Hnd, Hsep. cbn [app] in Hl, Hnd, Hsep.
      assert (Hne : HEAD s <> block).
      { assert (Hhd : In (HEAD s) (t ++ [x])).
        { destruct t as [|y t']; cbn [app flist] in Hl;
            destruct Hl as (E' & _); rewrite E'; left; reflexivity. }
        assert (Hnd' : NoDup ((t ++ [x]) ++ block :: l2))
          by (rewrite <- app_assoc; exact Hnd).
        apply NoDup_remove_2 in Hnd'. intros E. apply Hnd'.
        rewrite in_app_iff. left. rewrite <- E. exact Hhd. }
      unfold remove_free_block.
      destruct (Z.eqb_spec (HEAD s) block); [contradiction|].
      rewrite (remove_from_unlinks (heap s) block x l2 t (HEAD s) fuel Hl)
        by (rewrite length_app in Hfuel; cbn [length] in Hfuel; lia).
      eexists. split; [reflexivity|].
      cbn [heap HEAD brk sbrk_calls diag with_heap].
      assert (Hxin : In x (t ++ x :: block :: l2)) by apply in_elt.
      assert (Hap : forall y, In y (t ++ x :: block :: l2) -> y <> x ->
                y + sizeof_free_block <= x \/ x + sizeof_free_block <= y)
        by (intros y Hy Hyx; apply (separated_In _ y x Hsep Hy Hxin Hyx)).
      assert (Hkeep : forall y, In y (t ++ x :: block :: l2) -> y <> x ->
                next_of (set_next (heap s) x (next_of (heap s) block)) y
                = next_of (heap s) y).
      { intros y Hy Hyx. specialize (Hap y Hy Hyx).
        fields. mem_frame. reflexivity. }
      assert (Hnoty : forall y, In y t \/ In y (block :: l2) -> y <> x).
      { intros y Hy ->. apply NoDup_remove_2 in Hnd. apply Hnd.
        rewrite in_app_iff. exact Hy. }
      destruct (flist_app _ _ _ _ Hl) as (h2 & H2 & Hk).
      cbn [flist] in H2. destruct H2 as (-> & Hx & _ & Hb & Hl2).
      split; [|split; [|split; [|split]]].
      * rewrite <- app_assoc. cbn [app]. apply Hk.
        -- intros y Hy. apply Hkeep.
           ++ rewrite in_app_iff. auto.
           ++ apply Hnoty. auto.
        -- cbn [flist]. split; [reflexivity|]. split; [exact Hx|].
           replace (next_of (set_next (heap s) x (next_of (heap s) block)) x)
             with (next_of (heap s) block)
             by (fields; rewrite load8_store8_same;
                 [reflexivity | apply load8_range]).
           eapply flist_ext; [|exact Hl2].
           intros y Hy. apply Hkeep.
           ++ rewrite in_app_iff. right. right. right. exact Hy.
           ++ apply Hnoty. right. right. exact Hy.
      * intros y [Hy|[Hy|Hy]].
        -- fields. mem_frame. reflexivity.
        -- fields. mem_frame. reflexivity.
        -- destruct t; discriminate Hy.
      * apply Hkeep.
        -- rewrite in_app_iff. right. right. left. reflexivity.
        -- apply Hnoty. right. left. reflexivity.
      * assert (Hbx : block + sizeof_free_block <= x \/
                      x + sizeof_free_block <= block).
        { apply Hap.
          - rewrite in_app_iff. right. right. left. reflexivity.
          - apply Hnoty. right. left. reflexivity. }
        fields. mem_frame. reflexivity.
      * auto.
  - intros l Hl Hno Hb Hfuel. unfold remove_free_block.
    assert (Hne : HEAD s <> block).
    { intros E. destruct (flist_head _ _ _ Hl) as [E0|Hin]; [congruence|].
      rewrite E in Hin. contradiction. }
    destruct (Z.eqb_spec (HEAD s) block); [contradiction|].
    rewrite (remove_from_absent (heap s) block l (HEAD s) fuel Hl Hno Hb Hfuel).
    rewrite with_heap_id. reflexivity.
Qed.

Lemma remove_free_block_unlinks_witness :
  (exists s', remove_free_block 5 8192 two_free = Some s' /\
              flist (heap s') (HEAD s') ([4096] ++ [])) /\
  (exists s', remove_free_block 5 4096 two_free = Some s' /\
              flist (heap s') (HEAD s') ([] ++ [8192])) /\
  remove_free_block 5 5000 two_free = Some two_free.
Proof.
  split; [|split].
  - destruct (proj1 (remove_free_block_unlinks 5 8192 two_free) [4096] [])
      as (s' & H1 & H2 & _); [by_eval | by_eval | by_eval |].
    exists s'. split; assumption.
  - destruct (proj1 (remove_free_block_unlinks 5 4096 two_free) [] [8192])
      as (s' & H1 & H2 & _); [by_eval | by_eval | by_eval |].
    exists s'. split; assumption.
  - apply (proj2 (remove_free_block_unlinks 5 5000 two_free) [4096; 8192]).
    + by_eval.
    + cbn [In]. intros [H|[H|[]]]; discriminate H.
    + discriminate.
    + by_eval.
Defined.

(** ** Splitting *)

(** X2.  [split] with a non-negative [int] size, on a block that lies
    inside the address space.  A block with less than the size and one
    header is refused: the result is [NULL] and no byte is written.
    Otherwise the block is returned with the size as its recorded size and
    the new header right behind that many payload bytes as its [next]; the
    new header records what is left after the size and one header (so the
    two blocks end where the one block ended) and inherits the old [next];
    only the two headers are written. *)
Theorem split_contract :
  forall (m : mem) (block size : Z),
    0 <= size < 2147483648 ->
    0 <= block ->
    block_end m block <= WORD ->
    (size_of m block < size + sizeof_free_block -> split m block size = (0, m)) /\
    (size + sizeof_free_block <= size_of m block ->
     let rest := block + sizeof_free_block + size in
     exists m',
       split m block size = (block, m') /\
       size_of m' block = size /\
       next_of m' block = rest /\
       size_of m' rest = size_of m block - size - sizeof_free_block /\
       next_of m' rest = next_of m block /\
       block_end m' rest = block_end m block /\
       (forall x,
           x < block \/ block + sizeof_free_block <= x ->
           x < rest \/ rest + sizeof_free_block <= x ->
           m' x = m x)).
Proof.
  intros m block size Hsize Hblock Hend.
  pose proof (size_of_range m block) as Hsz.
  pose proof (next_of_range m block) as Hnx.
  unfold block_end in Hend.
  unfold split.
  rewrite (wrap_small size) by (unfold WORD; lia).
  rewrite (wrap_small (size + sizeof_free_block))
    by (unfold WORD, sizeof_free_block; lia).
  split.
  - intros Hsmall.
    destruct (Z.ltb_spec (size_of m block) (size + sizeof_free_block)); [|lia].
    reflexivity.
  - intros Hfit. cbv zeta.
    set (rest := block + sizeof_free_block + size).
    destruct (Z.ltb_spec (size_of m block) (size + sizeof_free_block)); [lia|].
    rewrite (wrap_small (block + size + sizeof_free_block))
      by (unfold sizeof_free_block in *; lia).
    rewrite (wrap_small (size_of m block - size - sizeof_free_block))
      by (unfold sizeof_free_block in *; lia).
    replace (block + size + sizeof_free_block) with rest by (unfold rest; lia).
    assert (Hrest : rest = block + 16 + size) by reflexivity.
    clearbody rest.
    eexists. split; [reflexivity|].
    assert (Hrs : size_of
      (set_next
         (set_size
            (set_next
               (set_size m rest (size_of m block - size - sizeof_free_block))
               rest
               (next_of
                  (set_size m rest (size_of m block - size - sizeof_free_block))
                  block))
            block size)
         block rest) rest = size_of m block - size - sizeof_free_block).
    { fields. mem_frame. apply load8_store8_same. unfold WORD in *. lia. }
    split; [|split; [|split; [|split; [|split]]]].
    + fields. mem_frame. apply load8_store8_same. unfold WORD. lia.
    + fields. apply load8_store8_same. unfold WORD in *. lia.
    + exact Hrs.
    + fields. mem_frame. rewrite load8_store8_same by apply load8_range.
      mem_frame. reflexivity.
    + unfold block_end. rewrite Hrs. unfold sizeof_free_block. lia.
    + intros x Hx1 Hx2. fields. mem_frame. reflexivity.
Qed.

Lemma split_contract_witness :
  split (heap two_free) 4096 30 = (0, heap two_free) /\
  exists m',
    split (heap two_free) 8192 40 = (8192, m') /\
    size_of m' 8192 = 40 /\
    next_of m' 8192 = 8192 + sizeof_free_block + 40 /\
    size_of m' (8192 + sizeof_free_block + 40)
    = size_of (heap two_free) 8192 - 40 - sizeof_free_block.
Proof.
  split.
  - apply (proj1 (split_contract (heap two_free) 4096 30
                    ltac:(lia) ltac:(lia) ltac:(by_eval))).
    by_eval.
  - destruct (proj2 (split_contract (heap two_free) 8192 40
                       ltac:(lia) ltac:(lia) ltac:(by_eval)))
      as (m' & H1 & H2 & H3 & H4 & _); [by_eval|].
    exists m'. repeat split; assumption.
Defined.

(** ** The neighbour locators *)

Lemma find_prev_from_first : forall m block l h fuel,
  flist m h l -> (length l < fuel)%nat ->
  exists r, find_prev_from fuel m h block = Some r /\
            ((r = 0 /\ forall x, In x l ->
                        wrap (x + size_of m x + sizeof_free_block) <> block) \/
             (exists l1 l2,
                 l = l1 ++ r :: l2 /\
                 wrap (r + size_of m r + sizeof_free_block) = block /\
                 forall x, In x l1 ->
                   wrap (x + size_of m x + sizeof_free_block) <> block)).
Proof.
  induction l as [|x t IH]; intros h fuel Hl Hf; cbn [flist] in Hl.
  - subst h. destruct fuel; [inversion Hf|]. exists 0. split; [reflexivity|].
    left. split; [reflexivity|]. intros x Hx. destruct Hx.
  - destruct Hl as (-> & Hx & Ht). destruct fuel; [inversion Hf|].
    cbn [find_prev_from]. destruct (Z.eqb_spec x 0); [contradiction|].
    destruct (Z.eqb_spec (wrap (x + size_of m x + sizeof_free_block)) block) as [E|E].
    + exists x. split; [reflexivity|]. right. exists [], t.
      split; [reflexivity|]. split; [exact E|]. intros y Hy. destruct Hy.
    + destruct (IH _ fuel Ht) as (r & Hr & Hcase); [cbn [length] in Hf; lia|].
      exists r. split; [exact Hr|].
      destruct Hcase as [(-> & Hall)|(l1 & l2 & -> & Hadj & Hall)].
      * left. split; [reflexivity|]. intros y [<-|Hy]; auto.
      * right. exists (x :: l1), l2. split; [reflexivity|].
        split; [exact Hadj|]. intros y [<-|Hy]; auto.
Qed.

(** X3.  On a free list that ends in [NULL], with more fuel than
    entries, both locators return.  [find_prev] returns the first entry,
    in list order, whose header, recorded size and one header add up to
    the address of the block, and [NULL] exactly when no entry does;
    [find_next] returns the address at which the block ends when that
    address is an entry, and [NULL] exactly when it is not. *)
Theorem neighbour_locators :
  forall (fuel : nat) (s : state) (block : Z) (l : list Z),
    flist (heap s) (HEAD s) l ->
    (length l < fuel)%nat ->
    let ends_at x := wrap (x + size_of (heap s) x + sizeof_free_block) in
    (exists r,
        find_prev fuel s block = Some r /\
        ((r = 0 /\ forall x, In x l -> ends_at x <> block) \/
         (exists l1 l2,
             l = l1 ++ r :: l2 /\ ends_at r = block /\
             forall x, In x l1 -> ends_at x <> block))) /\
    (exists n,
        find_next fuel s block = Some n /\
        ((n = 0 /\ ~ In (ends_at block) l) \/
         (n = ends_at block /\ In n l))).
Proof.
  intros fuel s block l Hl Hf ends_at. split.
  - apply find_prev_from_first; assumption.
  - apply find_next_from_total; assumption.
Qed.

Lemma neighbour_locators_witness :
  find_prev 5 two_free (4096 + sizeof_free_block + 40) = Some 4096 /\
  find_prev 5 two_free 12345 = Some 0 /\
  find_next 5 two_free 4096 = Some 0.
Proof.
  destruct (neighbour_locators 5 two_free (4096 + sizeof_free_block + 40)
              [4096; 8192]) as ((r & Hr & _) & _); [by_eval | by_eval |].
  destruct (neighbour_locators 5 two_free 12345 [4096; 8192])
    as ((r' & Hr' & _) & _); [by_eval | by_eval |].
  destruct (neighbour_locators 5 two_free 4096 [4096; 8192])
    as (_ & (n & Hn & _)); [by_eval | by_eval |].
  split; [|split].
  - rewrite Hr. vm_compute in Hr. symmetry. exact Hr.
  - rewrite Hr'. vm_compute in Hr'. symmetry. exact Hr'.
  - rewrite Hn. vm_compute in Hn. symmetry. exact Hn.
Defined.

(** ** Allocation returns *)

Lemma extend_heap_returns : forall ok size s,
  exists q s', extend_heap ok size s = Done q s'.
Proof.
  intros. destruct (extend_heap_calls ok size s) as (q & s' & E & _). eauto.
Qed.

Lemma take_block_returns : forall size s curr prev,
  exists q s', take_block size s curr prev = Done q s'.
Proof.
  intros. unfold take_block.
  destruct (split (heap s) curr (to_int size)) as [header m1].
  destruct (header =? 0); eauto.
Qed.

Lemma first_fit_returns : forall ok size s l curr prev fuel,
  flist (heap s) curr l -> (length l < fuel)%nat ->
  exists q s', first_fit fuel ok size s curr prev = Done q s'.
Proof.
  intros ok size s. induction l as [|x t IH]; intros curr prev fuel Hl Hf;
    cbn [flist] in Hl.
  - subst curr. destruct fuel; [inversion Hf|]. cbn [first_fit].
    apply extend_heap_returns.
  - destruct Hl as (-> & Hx & Ht). destruct fuel; [inversion Hf|].
    cbn [first_fit]. destruct (Z.eqb_spec x 0); [contradiction|].
    assert (Hrec : exists q s',
               first_fit fuel ok size s (next_of (heap s) x) x = Done q s')
      by (apply (IH _ x fuel Ht); cbn [length] in Hf; lia).
    destruct (size <=? size_of (heap s) x); [|exact Hrec].
    destruct (size_of (heap s) x <? wrap (size + sizeof_free_block));
      [exact Hrec | apply take_block_returns].
Qed.

(** X4.  On a free list that ends in [NULL], with more fuel than entries,
    [tumalloc] returns for every request and every answer of the system:
    its loop ends within the fuel, it never aborts, and more fuel gives
    the same result. *)
Theorem tumalloc_returns :
  forall (fuel : nat) (ok : bool) (size : Z) (s : state) (l : list Z),
    flist (heap s) (HEAD s) l ->
    (length l < fuel)%nat ->
    exists q s',
      tumalloc fuel ok size s = Done q s' /\
      (forall more, tumalloc (fuel + more) ok size s = Done q s').
Proof.
  intros fuel ok size s l Hl Hf.
  assert (Hmono : forall f curr prev q s',
             first_fit f ok size s curr prev = Done q s' ->
             forall more, first_fit (f + more) ok size s curr prev = Done q s').
  { induction f as [|f IH]; intros curr prev q s' H more;
      cbn [first_fit Nat.add] in *; [discriminate|].
    destruct (curr =? 0); [exact H|].
    destruct (size <=? size_of (heap s) curr); [|apply IH; exact H].
    destruct (size_of (heap s) curr <? wrap (size + sizeof_free_block));
      [apply IH; exact H | exact H]. }
  unfold tumalloc. destruct (HEAD s =? 0).
  - destruct (extend_heap_returns ok size s) as (q & s' & E).
    exists q, s'. split; [exact E|]. intros _. exact E.
  - destruct (first_fit_returns ok size s l (HEAD s) 0 fuel Hl Hf)
      as (q & s' & E).
    exists q, s'. split; [exact E|]. intros more. apply Hmono. exact E.
Qed.

Lemma tumalloc_returns_witness :
  exists q s', tumalloc 5 false 1000 two_free = Done q s' /\
               (forall more, tumalloc (5 + more) false 1000 two_free = Done q s').
Proof.
  apply (tumalloc_returns 5 false 1000 two_free [4096; 8192]); by_eval.
Defined.

(** ** Failure of an allocation *)

Lemma extend_heap_null_diag : forall ok size s s1,
  0 < brk s < WORD - sizeof_free_block ->
  extend_heap ok size s = Done 0 s1 ->
  ok = false /\ diag s1 = diag s ++ [do_alloc_failed] /\
  sbrk_calls s1 = S (sbrk_calls s).
Proof.
  intros ok size s s1 Hb. unfold extend_heap, do_alloc, sbrk.
  destruct ok.
  - cbn [fst snd].
    destruct (Z.eqb_spec (brk s) (WORD - 1));
      [unfold WORD, sizeof_free_block in *; lia|].
    destruct (Z.eqb_spec (brk s) 0); [lia|].
    intros H. injection H as Hp _. exfalso.
    rewrite wrap_small in Hp by (unfold WORD, sizeof_free_block in *; lia).
    unfold sizeof_free_block in *. lia.
  - rewrite Z.eqb_refl. cbn [fst snd]. rewrite Z.eqb_refl.
    intros H. injection H as <-. cbn. auto.
Qed.

Lemma take_block_null_diag : forall size s curr prev s1,
  wrap (curr + sizeof_free_block) <> 0 ->
  take_block size s curr prev = Done 0 s1 ->
  diag s1 = diag s ++ [split_failed] /\ sbrk_calls s1 = sbrk_calls s.
Proof.
  intros size s curr prev s1 Hc. unfold take_block, split.
  destruct (size_of (heap s) curr <? wrap (wrap (to_int size) + sizeof_free_block)).
  - rewrite Z.eqb_refl. intros H. injection H as <-. cbn. auto.
  - destruct (curr =? 0).
    + intros H. injection H as <-. cbn. auto.
    + intros H. injection H as Hp _. contradiction.
Qed.

Lemma first_fit_null_diag : forall fuel ok size s curr prev s1,
  0 < brk s < WORD - sizeof_free_block ->
  Forall (fun x => wrap (x + sizeof_free_block) <> 0) (walk fuel (heap s) curr) ->
  first_fit fuel ok size s curr prev = Done 0 s1 ->
  (ok = false /\ diag s1 = diag s ++ [do_alloc_failed] /\
   sbrk_calls s1 = S (sbrk_calls s)) \/
  (diag s1 = diag s ++ [split_failed] /\ sbrk_calls s1 = sbrk_calls s).
Proof.
  induction fuel as [|f IH]; intros ok size s curr prev s1 Hb Hw Hr;
    cbn [first_fit walk] in *; [discriminate|].
  destruct (curr =? 0); [left; eapply extend_heap_null_diag; eauto|].
  inversion Hw as [|? ? Hc Hrest]; subst.
  destruct (size <=? size_of (heap s) curr).
  - destruct (size_of (heap s) curr <? wrap (size + sizeof_free_block)).
    + eapply IH; eauto.
    + right. eapply take_block_null_diag; eauto.
  - eapply IH; eauto.
Qed.

(** X5.  A null result of [tumalloc] is a failure that has written
    nothing: memory, the free list and the break are as before the call,
    and exactly one line has been printed, either that of the refused heap
    extension (then [sbrk] was called once and refused) or that of the
    refused split (then [sbrk] was not called).  Conversely, when every
    entry of the free list is passed over and the system refuses to extend
    the heap, the result is null. *)
Theorem tumalloc_failure_is_silent :
  forall (fuel : nat) (ok : bool) (size : Z) (s : state),
    0 < brk s < WORD - sizeof_free_block ->
    Forall (fun x => wrap (x + sizeof_free_block) <> 0)
           (walk fuel (heap s) (HEAD s)) ->
    (forall s1,
        tumalloc fuel ok size s = Done 0 s1 ->
        heap s1 = heap s /\ HEAD s1 = HEAD s /\ brk s1 = brk s /\
        ((ok = false /\ diag s1 = diag s ++ [do_alloc_failed] /\
          sbrk_calls s1 = S (sbrk_calls s)) \/
         (diag s1 = diag s ++ [split_failed] /\
          sbrk_calls s1 = sbrk_calls s))) /\
    (forall l,
        0 <= size < 2147483648 ->
        flist (heap s) (HEAD s) l ->
        Forall (fun x => size_of (heap s) x < size + sizeof_free_block) l ->
        (length l < fuel)%nat ->
        ok = false ->
        exists s1, tumalloc fuel ok size s = Done 0 s1).
Proof.
  intros fuel ok size s Hb Hw. split.
  - intros s1 Hnull.
    destruct (tumalloc_null _ _ _ _ _ Hb Hw Hnull) as (H1 & H2 & H3).
    split; [exact H1|]. split; [exact H2|]. split; [exact H3|].
    revert Hnull. unfold tumalloc. destruct (HEAD s =? 0).
    + intros H. left. eapply extend_heap_null_diag; eauto.
    + intros H. eapply first_fit_null_diag; eauto.
  - intros l Hsize Hl Hskip Hf ->.
    assert (E : tumalloc fuel false size s = extend_heap false size s).
    { unfold tumalloc. destruct (HEAD s =? 0); [reflexivity|].
      apply (first_fit_skips false size s) with (l := l);
        [unfold WORD, sizeof_free_block; lia | exact Hl | exact Hskip
         | exact Hf]. }
    rewrite E. unfold extend_heap, do_alloc, sbrk.
    rewrite Z.eqb_refl. cbn [fst snd]. rewrite Z.eqb_refl. eauto.
Qed.

Lemma tumalloc_failure_is_silent_witness :
  exists s1, tumalloc 5 false 1000 two_free = Done 0 s1 /\
             heap s1 = heap two_free /\ HEAD s1 = HEAD two_free /\
             brk s1 = brk two_free.
Proof.
  assert (E : walk 5 (heap two_free) (HEAD two_free) = [4096; 8192])
    by (vm_compute; reflexivity).
  destruct (tumalloc_failure_is_silent 5 false 1000 two_free) as (Hnull & Hfail).
  - by_eval.
  - rewrite E. by_eval.
  - destruct (Hfail [4096; 8192]) as (s1 & E1);
      [lia | by_eval | by_eval | by_eval | reflexivity |].
    exists s1. split; [exact E1|].
    destruct (Hnull s1 E1) as (H1 & H2 & H3 & _).
    repeat split; assumption.
Defined.

(** ** Releasing a block twice *)

Lemma find_prev_from_self_loop : forall fuel m h block,
  h <> 0 -> next_of m h = h ->
  wrap (h + size_of m h + sizeof_free_block) <> block ->
  find_prev_from fuel m h block = None.
Proof.
  induction fuel as [|f IH]; intros m h block Hh Hn Hb; cbn [find_prev_from];
    [reflexivity|].
  destruct (Z.eqb_spec h 0); [contradiction|].
  destruct (Z.eqb_spec (wrap (h + size_of m h + sizeof_free_block)) block);
    [contradiction|].
  rewrite Hn. apply IH; assumption.
Qed.

(** Releasing the block that is already the first entry of the free list
    makes that entry its own successor, and the search for a previous
    neighbour never leaves it. *)
Lemma release_of_head_loops : forall fuel header s,
  0 < header ->
  header + sizeof_free_block + size_of (heap s) header < WORD ->
  HEAD s = header ->
  load 4 (heap s) (header + sizeof_free_block + size_of (heap s) header)
  = MAGIC_NUMBER ->
  tufree fuel (header + sizeof_free_block) s = OutOfFuel.
Proof.
  intros fuel header s Hh Hend HH Hguard.
  pose proof (size_of_range (heap s) header) as Hsz.
  unfold tufree, sentinel_of.
  destruct (Z.eqb_spec (header + sizeof_free_block) 0);
    [unfold sizeof_free_block in *; lia|].
  replace (wrap (header + sizeof_free_block - sizeof_free_block)) with header
    by (rewrite wrap_small; unfold sizeof_free_block in *; lia).
  rewrite (wrap_small (header + sizeof_free_block + size_of (heap s) header))
    by (unfold sizeof_free_block in *; lia).
  rewrite Hguard. change (to_int MAGIC_NUMBER =? MAGIC_NUMBER) with true.
  cbv iota.
  assert (Hszp : size_of (heap (push_front header s)) header
                 = size_of (heap s) header) by apply push_front_size.
  assert (Hnxp : next_of (heap (push_front header s)) header = header).
  { rewrite push_front_next; [exact HH|].
    rewrite HH. unfold sizeof_free_block in *. lia. }
  unfold coalesce, find_prev.
  destruct (Z.eqb_spec header 0); [lia|].
  change (HEAD (push_front header s)) with header.
  rewrite find_prev_from_self_loop; [reflexivity | assumption | exact Hnxp |].
  rewrite Hszp. rewrite wrap_small; unfold sizeof_free_block in *; lia.
Qed.

(** X6.  Releasing the same pointer twice.  The first release of a block
    with no free neighbour returns and leaves the block at the front of the
    free list with its sentinel in place; the second release passes the
    sentinel test, links the entry to itself, and the search for a
    previous neighbour does not end, whatever the fuel. *)
Theorem double_release_never_returns :
  forall (fuel fuel2 : nat) (header : Z) (s : state) (l : list Z),
    0 < header ->
    header + sizeof_free_block + size_of (heap s) header < WORD ->
    load 4 (heap s) (header + sizeof_free_block + size_of (heap s) header)
    = MAGIC_NUMBER ->
    0 <= HEAD s < WORD ->
    flist (heap s) (HEAD s) l ->
    Forall (fun x => x + sizeof_free_block <= header \/
                     header + sizeof_free_block <= x) l ->
    Forall (fun x =>
              wrap (x + size_of (heap s) x + sizeof_free_block) <> header /\
              x <> header + sizeof_free_block + size_of (heap s) header) l ->
    (S (length l) < fuel)%nat ->
    exists s1,
      tufree fuel (header + sizeof_free_block) s = Done tt s1 /\
      HEAD s1 = header /\
      flist (heap s1) (HEAD s1) (header :: l) /\
      tufree fuel2 (header + sizeof_free_block) s1 = OutOfFuel.
Proof.
  intros fuel fuel2 header s l Hh Hend Hguard HH Hl Hap Hno Hfuel.
  pose proof (size_of_range (heap s) header) as Hsz.
  exists (push_front header s).
  split; [eapply tufree_alone; eassumption|].
  split; [reflexivity|].
  split.
  - change (HEAD (push_front header s)) with header.
    cbn [flist]. split; [reflexivity|]. split; [lia|].
    rewrite push_front_next by exact HH.
    apply push_front_flist_tail; assumption.
  - apply release_of_head_loops.
    + exact Hh.
    + rewrite push_front_size. exact Hend.
    + reflexivity.
    + rewrite push_front_size. rewrite push_front_load4; [exact Hguard|].
      right. unfold sizeof_free_block in *. lia.
Qed.

Lemma double_release_never_returns_witness :
  exists s1,
    tufree 5 4112 one_block = Done tt s1 /\
    HEAD s1 = 4096 /\
    flist (heap s1) (HEAD s1) [4096] /\
    tufree 1000 4112 s1 = OutOfFuel.
Proof.
  apply (double_release_never_returns 5 1000 4096 one_block []); by_eval.
Defined.

(** ** Releasing what was just handed out *)

Lemma extend_heap_releasable : forall ok size s q s1,
  0 <= size <= WORD - (sizeof_free_block + sizeof_int) ->
  0 <= brk s < WORD ->
  extend_heap ok size s = Done q s1 -> q <> 0 ->
  exists hdr, 0 <= hdr < WORD /\ q = wrap (hdr + sizeof_free_block) /\
              size_of (heap s1) hdr = size /\
              load 4 (heap s1) (wrap (hdr + sizeof_free_block + size))
              = MAGIC_NUMBER.
Proof.
  intros ok size s q s1 Hsize Hbrk E Hq.
  revert E. unfold extend_heap, do_alloc, sbrk. destruct ok; cbn [fst snd].
  - destruct (brk s =? WORD - 1).
    + rewrite Z.eqb_refl. intros H. injection H as H _. congruence.
    + destruct (brk s =? 0).
      * intros H. injection H as H _. congruence.
      * intros H. injection H as Hq' Hs1. subst q s1.
        exists (brk s). split; [exact Hbrk|]. split; [reflexivity|].
        cbn [heap with_heap].
        pose proof (sentinel_clear_of_size (brk s) size Hsize) as Hclear.
        split.
        -- fields. rewrite Z.add_0_r.
           rewrite load8_store4_other by lia.
           rewrite load8_store8_other by lia.
           apply load8_store8_same. unfold WORD in *. lia.
        -- apply load4_store4_same. unfold MAGIC_NUMBER. lia.
  - rewrite Z.eqb_refl. rewrite Z.eqb_refl.
    intros H. injection H as H _. congruence.
Qed.

Lemma take_block_releasable : forall size s curr prev q s1,
  0 <= size <= WORD - (sizeof_free_block + sizeof_int) ->
  0 <= curr < WORD ->
  take_block size s curr prev = Done q s1 -> q <> 0 ->
  exists hdr, 0 <= hdr < WORD /\ q = wrap (hdr + sizeof_free_block) /\
              size_of (heap s1) hdr = size /\
              load 4 (heap s1) (wrap (hdr + sizeof_free_block + size))
              = MAGIC_NUMBER.
Proof.
  intros size s curr prev q s1 Hsize Hc. unfold take_block, split.
  destruct (size_of (heap s) curr <? wrap (wrap (to_int size) + sizeof_free_block)).
  - rewrite Z.eqb_refl. intros H Hq. injection H as H _. congruence.
  - destruct (curr =? 0).
    + intros H Hq. injection H as H _. congruence.
    + intros H _. injection H as Hq Hs. subst q s1.
      exists curr. split; [exact Hc|]. split; [reflexivity|].
      cbn [heap with_heap].
      pose proof (sentinel_clear_of_size curr size Hsize) as Hclear.
      split.
      * fields. rewrite Z.add_0_r.
        rewrite load8_store4_other by lia.
        apply load8_store8_same. unfold WORD in *. lia.
      * apply load4_store4_same. unfold MAGIC_NUMBER. lia.
Qed.

Lemma first_fit_releasable : forall fuel ok size s curr prev q s1,
  0 <= size <= WORD - (sizeof_free_block + sizeof_int) ->
  0 <= brk s < WORD ->
  0 <= curr < WORD ->
  first_fit fuel ok size s curr prev = Done q s1 -> q <> 0 ->
  exists hdr, 0 <= hdr < WORD /\ q = wrap (hdr + sizeof_free_block) /\
              size_of (heap s1) hdr = size /\
              load 4 (heap s1) (wrap (hdr + sizeof_free_block + size))
              = MAGIC_NUMBER.
Proof.
  induction fuel as [|f IH]; intros ok size s curr prev q s1 Hsize Hb Hc;
    cbn [first_fit]; [discriminate|].
  pose proof (next_of_range (heap s) curr) as Hn.
  destruct (curr =? 0); [apply extend_heap_releasable; assumption|].
  destruct (size <=? size_of (heap s) curr); [|apply IH; assumption].
  destruct (size_of (heap s) curr <? wrap (size + sizeof_free_block));
    [apply IH; assumption | apply take_block_releasable; assumption].
Qed.

Lemma tumalloc_releasable : forall fuel ok size s q s1,
  0 <= size <= WORD - (sizeof_free_block + sizeof_int) ->
  0 <= brk s < WORD ->
  0 <= HEAD s < WORD ->
  tumalloc fuel ok size s = Done q s1 -> q <> 0 ->
  size_of (heap s1) (wrap (q - sizeof_free_block)) = size /\
  sentinel_of (heap s1) (wrap (q - sizeof_free_block)) = MAGIC_NUMBER /\
  exists hdr, 0 <= hdr < WORD /\ q = wrap (hdr + sizeof_free_block) /\
              wrap (q - sizeof_free_block) = hdr.
Proof.
  intros fuel ok size s q s1 Hsize Hb HH E Hq.
  assert (exists hdr, 0 <= hdr < WORD /\ q = wrap (hdr + sizeof_free_block) /\
            size_of (heap s1) hdr = size /\
            load 4 (heap s1) (wrap (hdr + sizeof_free_block + size))
            = MAGIC_NUMBER) as (hdr & Hr & Eq & Hs & Hg).
  { revert E. unfold tumalloc. destruct (HEAD s =? 0); intros E.
    - eapply extend_heap_releasable; eassumption.
    - eapply first_fit_releasable; eassumption. }
  assert (Eh : wrap (q - sizeof_free_block) = hdr) by (subst q; wrap_lia).
  rewrite Eh. split; [exact Hs|]. split.
  - unfold sentinel_of. rewrite Hs, Hg. reflexivity.
  - exists hdr. auto.
Qed.

(** X7.  In the state in which [tumalloc] returns, for a request of at
    most [2^64 - 20] bytes with the break and [HEAD] inside the address
    space: the header that lies sixteen bytes before a non-null result
    records the requested size, the word behind that many payload bytes
    is the magic number, and a release of the result (or of the null
    pointer) made in that state does not end in the report of a corrupted
    heap.  Nothing is said of a release after further calls. *)
Theorem fresh_block_is_releasable :
  forall (fuel fuel2 : nat) (ok : bool) (size : Z) (s : state) (q : Z)
         (s1 : state),
    0 <= size <= WORD - (sizeof_free_block + sizeof_int) ->
    0 <= brk s < WORD ->
    0 <= HEAD s < WORD ->
    tumalloc fuel ok size s = Done q s1 ->
    (q <> 0 ->
     size_of (heap s1) (wrap (q - sizeof_free_block)) = size /\
     sentinel_of (heap s1) (wrap (q - sizeof_free_block)) = MAGIC_NUMBER) /\
    (forall s2, tufree fuel2 q s1 <> Aborted s2).
Proof.
  intros fuel fuel2 ok size s q s1 Hsize Hb HH E.
  assert (Hblock : q <> 0 ->
            size_of (heap s1) (wrap (q - sizeof_free_block)) = size /\
            sentinel_of (heap s1) (wrap (q - sizeof_free_block)) = MAGIC_NUMBER).
  { intros Hq.
    destruct (tumalloc_releasable _ _ _ _ _ _ Hsize Hb HH E Hq) as (H1 & H2 & _).
    auto. }
  split; [exact Hblock|].
  intros s2. unfold tufree. destruct (Z.eqb_spec q 0); [discriminate|].
  destruct (Hblock n) as (_ & ->). rewrite Z.eqb_refl.
  destruct (coalesce fuel2 _ _) as [[? ?]|]; discriminate.
Qed.

Lemma fresh_block_is_releasable_witness :
  match tumalloc 5 true 40 two_free with
  | Done q s1 =>
      (q <> 0 ->
       size_of (heap s1) (wrap (q - sizeof_free_block)) = 40 /\
       sentinel_of (heap s1) (wrap (q - sizeof_free_block)) = MAGIC_NUMBER) /\
      (forall s2, tufree 5 q s1 <> Aborted s2)
  | _ => False
  end.
Proof.
  destruct (tumalloc 5 true 40 two_free) as [q s1| |] eqn:E.
  - apply (fresh_block_is_releasable 5 5 true 40 two_free q s1);
      [by_eval | by_eval | by_eval | exact E].
  - vm_compute in E. discriminate E.
  - vm_compute in E. discriminate E.
Defined.

(** ** The size recorded for the remainder of a split *)

Lemma load8_halves : forall m a,
  load 8 m a = load 4 m a + 4294967296 * load 4 m (a + 4).
Proof.
  intros m a. replace (a + 4) with (a + 1 + 1 + 1 + 1) by lia.
  unfold load. lia.
Qed.

Lemma load4_store4_other : forall m a a' v,
  a' + 4 <= a \/ a + 4 <= a' -> load 4 (store 4 m a v) a' = load 4 m a'.
Proof. intros. apply load_store_other. cbn. lia. Qed.

Lemma load4_high_of_store8 : forall m a v,
  load 4 (store 8 m a v) (a + 4) = (v / 4294967296) mod 4294967296.
Proof.
  intros m a v.
  rewrite (load_of_bytes 4 _ (a + 4) (v / 4294967296)); [reflexivity|].
  intros i Hi. rewrite store_spec.
  destruct (Z.leb_spec a (a + 4 + i)); [|lia].
  destruct (Z.ltb_spec (a + 4 + i) (a + Z.of_nat 8)); [|cbn in *; lia].
  cbn [andb]. replace (a + 4 + i - a) with (4 + i) by lia.
  rewrite Z.pow_add_r by lia.
  rewrite Z.div_div; [reflexivity | lia | apply Z.pow_pos_nonneg; lia].
Qed.

Lemma take_block_rest_size : forall size s c prev q s',
  0 <= size < 2147483648 ->
  0 < c ->
  c + size + 2 * sizeof_free_block <= WORD ->
  size + sizeof_free_block <= size_of (heap s) c ->
  prev = 0 \/ prev + sizeof_free_block <= c \/
              c + size + 2 * sizeof_free_block <= prev ->
  take_block size s c prev = Done q s' ->
  size_of (heap s') (c + sizeof_free_block + size)
  = MAGIC_NUMBER
    + 4294967296 * ((size_of (heap s) c - size - sizeof_free_block) / 4294967296).
Proof.
  intros size s c prev q s' Hsize Hc Hend Hfit Hprev.
  pose proof (size_of_range (heap s) c) as Hszc.
  unfold take_block, split.
  rewrite (to_int_small size) by lia.
  rewrite (wrap_small size) by (unfold WORD; lia).
  rewrite (wrap_small (size + sizeof_free_block))
    by (unfold WORD, sizeof_free_block; lia).
  destruct (Z.ltb_spec (size_of (heap s) c) (size + sizeof_free_block)); [lia|].
  destruct (Z.eqb_spec c 0); [lia|].
  rewrite (wrap_small (c + size + sizeof_free_block))
    by (unfold sizeof_free_block in *; lia).
  rewrite (wrap_small (c + sizeof_free_block + size))
    by (unfold sizeof_free_block in *; lia).
  rewrite (wrap_small (size_of (heap s) c - size - sizeof_free_block))
    by (unfold sizeof_free_block in *; lia).
  replace (c + size + sizeof_free_block) with (c + sizeof_free_block + size) by lia.
  remember (size_of (heap s) c - size - sizeof_free_block) as v eqn:Ev.
  assert (Hv : 0 <= v < WORD) by (unfold sizeof_free_block in *; lia).
  remember (c + sizeof_free_block + size) as rest eqn:Hrest.
  assert (Hhigh : (v / 4294967296) mod 4294967296 = v / 4294967296).
  { apply Z.mod_small. unfold WORD in Hv. split.
    - apply Z.div_pos; lia.
    - apply Z.div_lt_upper_bound; lia. }
  destruct (Z.eqb_spec prev 0) as [Hp|Hp].
  - intros Hdone. injection Hdone as _ <-.
    cbn [heap HEAD brk sbrk_calls diag with_heap with_HEAD].
    unfold size_of at 1. unfold off_size. rewrite Z.add_0_r.
    rewrite load8_halves.
    rewrite load4_store4_same by (unfold MAGIC_NUMBER; lia).
    rewrite load4_store4_other by lia.
    fields. rewrite !Z.add_0_r.
    repeat rewrite load4_store8_other by lia.
    rewrite load4_high_of_store8. rewrite Hhigh. reflexivity.
  - intros Hdone. injection Hdone as _ <-.
    cbn [heap HEAD brk sbrk_calls diag with_heap with_HEAD].
    unfold size_of at 1. unfold off_size. rewrite Z.add_0_r.
    rewrite load8_halves.
    rewrite load4_store4_same by (unfold MAGIC_NUMBER; lia).
    rewrite load4_store4_other by lia.
    fields. rewrite !Z.add_0_r.
    repeat rewrite load4_store8_other by lia.
    rewrite load4_high_of_store8. rewrite Hhigh. reflexivity.
Qed.

(** X8.  For a request of less than [2^31] bytes, on a free list that
    ends in [NULL] and whose blocks do not overlap, the chosen block
    lying inside the address space.  When [tumalloc] serves the request
    from the first free entry [c] with a header to spare (the result is
    then the payload of [c]), the entry that stays on the list behind the
    payload does not record the bytes that are left: [split] writes that
    number into its size field, and then the sentinel of the new block is
    written over the low four bytes of the same field.  The recorded size
    is the magic number in its low half and the high half of the true
    remainder above it; it is the true remainder only if that ends in the
    magic number. *)
Theorem remainder_size_is_overwritten :
  forall (fuel : nat) (ok : bool) (size : Z) (s : state)
         (l1 : list Z) (c : Z) (l2 : list Z) (q : Z) (s' : state),
    0 <= size < 2147483648 ->
    0 <= HEAD s ->
    flist (heap s) (HEAD s) (l1 ++ c :: l2) ->
    disjoint_blocks (heap s) (l1 ++ c :: l2) ->
    block_end (heap s) c <= WORD ->
    Forall (fun x => size_of (heap s) x < size + sizeof_free_block) l1 ->
    size + sizeof_free_block <= size_of (heap s) c ->
    (length l1 < fuel)%nat ->
    tumalloc fuel ok size s = Done q s' ->
    q = c + sizeof_free_block /\
    size_of (heap s') (c + sizeof_free_block + size)
    = MAGIC_NUMBER
      + 4294967296
        * ((size_of (heap s) c - size - sizeof_free_block) / 4294967296) /\
    (size_of (heap s') (c + sizeof_free_block + size)
     = size_of (heap s) c - size - sizeof_free_block
     <-> (size_of (heap s) c - size - sizeof_free_block) mod 4294967296
         = MAGIC_NUMBER).
Proof.
  intros fuel ok size s l1 c l2 q s' Hsize Hhead Hl Hd Hend Hskip Hfit Hfuel Hrun.
  assert (Hsz : 0 <= size /\ size + sizeof_free_block < WORD)
    by (unfold WORD, sizeof_free_block; lia).
  pose proof (flist_NoDup _ _ _ Hl) as Hnd.
  pose proof (flist_pos _ _ _ Hl Hhead) as Hpos.
  rewrite Forall_forall in Hpos.
  assert (Hcin : In c (l1 ++ c :: l2)) by (apply in_elt).
  assert (Hc : 0 < c) by (apply Hpos; exact Hcin).
  assert (Hend' : c + size + 2 * sizeof_free_block <= WORD)
    by (unfold block_end, sizeof_free_block in *; lia).
  assert (Hprev : last l1 0 = 0 \/
                  last l1 0 + sizeof_free_block <= c \/
                  c + size + 2 * sizeof_free_block <= last l1 0).
  { destruct l1 as [|x t] using rev_ind; [left; reflexivity|].
    right. rewrite last_last.
    assert (Hxin : In x ((t ++ [x]) ++ c :: l2))
      by (rewrite !in_app_iff; cbn [In]; tauto).
    assert (Hne : x <> c).
    { intros ->. apply NoDup_remove_2 in Hnd. apply Hnd.
      rewrite !in_app_iff. cbn [In]. tauto. }
    destruct (disjoint_blocks_In _ _ _ _ Hd Hxin Hcin Hne) as [H|H].
    - left. pose proof (block_end_ge (heap s) x). lia.
    - right. unfold block_end, sizeof_free_block in *. lia. }
  assert (Htake : take_block size s c (last l1 0) = Done q s').
  { rewrite <- Hrun. symmetry. unfold tumalloc.
    assert (Hnz : HEAD s <> 0).
    { destruct l1; cbn [app flist] in Hl; destruct Hl as (-> & Hx & _); auto. }
    destruct (Z.eqb_spec (HEAD s) 0); [contradiction|].
    apply (first_fit_finds ok size s Hsz l1 c l2); auto. }
  pose proof (take_block_rest_size _ _ _ _ _ _ Hsize Hc Hend' Hfit Hprev Htake)
    as Hrest.
  destruct (take_block_done size s c (last l1 0) Hsize Hc Hend' Hfit)
    as (s0 & E0 & _).
  split; [rewrite E0 in Htake; injection Htake as <- _; reflexivity|].
  split; [exact Hrest|].
  rewrite Hrest.
  pose proof (size_of_range (heap s) c) as Hr.
  unfold sizeof_free_block, MAGIC_NUMBER in *.
  split; intro H; Z.div_mod_to_equations; lia.
Qed.

Lemma remainder_size_is_overwritten_witness :
  match tumalloc 5 true 40 two_free with
  | Done q s' =>
      q = 8192 + sizeof_free_block /\
      size_of (heap s') (8192 + sizeof_free_block + 40)
      = MAGIC_NUMBER
        + 4294967296
          * ((size_of (heap two_free) 8192 - 40 - sizeof_free_block)
             / 4294967296) /\
      (size_of (heap s') (8192 + sizeof_free_block + 40)
       = size_of (heap two_free) 8192 - 40 - sizeof_free_block
       <-> (size_of (heap two_free) 8192 - 40 - sizeof_free_block)
             mod 4294967296
           = MAGIC_NUMBER)
  | _ => False
  end.
Proof.
  destruct (tumalloc 5 true 40 two_free) as [q s'| |] eqn:E.
  - apply (remainder_size_is_overwritten 5 true 40 two_free [4096] 8192 [] q s');
      [by_eval | by_eval | by_eval | by_eval | by_eval | by_eval | by_eval
       | by_eval | exact E].
  - vm_compute in E. discriminate E.
  - vm_compute in E. discriminate E.
Defined.

(** ** A block that is released and asked for again *)

Lemma extend_heap_fresh : forall size s,
  0 <= size -> 0 < brk s ->
  brk s + size + (sizeof_free_block + sizeof_int) < WORD ->
  exists s1,
    extend_heap true size s = Done (brk s + sizeof_free_block) s1 /\
    HEAD s1 = HEAD s /\
    brk s1 = brk s + size + (sizeof_free_block + sizeof_int) /\
    sbrk_calls s1 = S (sbrk_calls s) /\
    size_of (heap s1) (brk s) = size /\
    next_of (heap s1) (brk s) = 0 /\
    load 4 (heap s1) (brk s + sizeof_free_block + size) = MAGIC_NUMBER.
Proof.
  intros size s Hsize Hb Hend.
  unfold extend_heap, do_alloc, sbrk. cbn [fst snd].
  destruct (Z.eqb_spec (brk s) (WORD - 1));
    [unfold sizeof_free_block, sizeof_int in *; lia|].
  cbn [heap HEAD brk sbrk_calls diag with_heap].
  destruct (Z.eqb_spec (brk s) 0); [lia|].
  rewrite (wrap_small (brk s + sizeof_free_block))
    by (unfold sizeof_free_block, sizeof_int in *; lia).
  rewrite (wrap_small (brk s + sizeof_free_block + size))
    by (unfold sizeof_free_block, sizeof_int in *; lia).
  eexists. split; [reflexivity|].
  cbn [heap HEAD brk sbrk_calls diag with_heap].
  split; [reflexivity|]. split; [wrap_lia|]. split; [reflexivity|].
  fields. rewrite Z.add_0_r.
  split; [|split].
  - mem_frame. apply load8_store8_same. unfold WORD in *. lia.
  - mem_frame. apply load8_store8_same. unfold WORD. lia.
  - apply load4_store4_same. unfold MAGIC_NUMBER. lia.
Qed.

(** X9.  Allocate, release, allocate again, starting with an empty free
    list, the system granting every extension, the second request being
    of less than [2^31] bytes and nothing wrapping around.  The first
    request extends the heap; the release puts the block on the list.  A
    second request that leaves room for a header (sixteen bytes less than
    the block, or smaller) gets the same pointer back without a call of
    [sbrk]; any larger request, also one for exactly the size of the
    released block, is served by extending the heap again, the released
    block staying on the list. *)
Theorem released_block_is_reused :
  forall (fuel : nat) (size r : Z) (s : state),
    0 <= size ->
    0 <= r < 2147483648 ->
    HEAD s = 0 ->
    0 < brk s ->
    brk s + size + (sizeof_free_block + sizeof_int)
          + r + (sizeof_free_block + sizeof_int) < WORD ->
    (2 < fuel)%nat ->
    exists s1 s2,
      tumalloc fuel true size s = Done (brk s + sizeof_free_block) s1 /\
      tufree fuel (brk s + sizeof_free_block) s1 = Done tt s2 /\
      flist (heap s2) (HEAD s2) [brk s] /\
      (r + sizeof_free_block <= size ->
       forall ok, exists s3,
         tumalloc fuel ok r s2 = Done (brk s + sizeof_free_block) s3 /\
         sbrk_calls s3 = S (sbrk_calls s)) /\
      (size < r + sizeof_free_block ->
       exists s3,
         tumalloc fuel true r s2 = Done (brk s1 + sizeof_free_block) s3 /\
         sbrk_calls s3 = S (S (sbrk_calls s)) /\
         HEAD s3 = brk s).
Proof.
  intros fuel size r s Hsize Hr HH Hb Hend Hfuel.
  assert (Hend1 : brk s + size + (sizeof_free_block + sizeof_int) < WORD)
    by (unfold sizeof_free_block, sizeof_int in *; lia).
  destruct (extend_heap_fresh size s Hsize Hb Hend1)
    as (s1 & E1 & HH1 & Hb1 & Hc1 & Hs1 & Hn1 & Hg1).
  remember (brk s) as a eqn:Ea.
  exists s1, (push_front a s1).
  assert (Hsz2 : size_of (heap (push_front a s1)) a = size)
    by (rewrite push_front_size; exact Hs1).
  assert (Hnx2 : next_of (heap (push_front a s1)) a = 0).
  { rewrite push_front_next; [congruence|]. rewrite HH1, HH. unfold WORD. lia. }
  split; [unfold tumalloc; rewrite HH, Z.eqb_refl; exact E1|].
  split.
  { apply (tufree_alone fuel a s1 []).
    - exact Hb.
    - rewrite Hs1. unfold sizeof_free_block, sizeof_int in *. lia.
    - rewrite Hs1. exact Hg1.
    - rewrite HH1, HH. unfold WORD. lia.
    - cbn [flist]. congruence.
    - constructor.
    - constructor.
    - cbn [length]. lia. }
  split.
  { change (HEAD (push_front a s1)) with a. cbn [flist].
    split; [reflexivity|]. split; [lia|]. exact Hnx2. }
  split.
  - intros Hfit ok.
    destruct (tumalloc_from_head fuel ok r (push_front a s1) a size)
      as (s3 & E3 & Hc3);
      [exact Hr | exact Hb | reflexivity | exact Hsz2 | exact Hfit
       | unfold sizeof_free_block, sizeof_int in *; lia | lia |].
    exists s3. split; [exact E3|]. rewrite Hc3. exact Hc1.
  - intros Hsmall.
    assert (Hskip : tumalloc fuel true r (push_front a s1)
                    = extend_heap true r (push_front a s1)).
    { unfold tumalloc. change (HEAD (push_front a s1)) with a.
      destruct (Z.eqb_spec a 0); [lia|].
      apply (first_fit_skips true r (push_front a s1)) with (l := [a]).
      - unfold WORD, sizeof_free_block. lia.
      - cbn [flist]. split; [reflexivity|]. split; [lia|]. exact Hnx2.
      - constructor; [|constructor]. rewrite Hsz2. exact Hsmall.
      - cbn [length]. lia. }
    destruct (extend_heap_fresh r (push_front a s1))
      as (s3 & E3 & HH3 & _ & Hc3 & _);
      [lia
       | change (brk (push_front a s1)) with (brk s1); rewrite Hb1;
         unfold sizeof_free_block, sizeof_int; lia
       | change (brk (push_front a s1)) with (brk s1); rewrite Hb1;
         unfold sizeof_free_block, sizeof_int in *; lia |].
    exists s3. rewrite Hskip. split; [exact E3|].
    split; [rewrite Hc3; cbn; rewrite Hc1; reflexivity|].
    rewrite HH3. reflexivity.
Qed.

Lemma released_block_is_reused_witness :
  (exists s1 s2,
      tumalloc 5 true 100 (now (empty_heap 4096)) = Done 4112 s1 /\
      tufree 5 4112 s1 = Done tt s2 /\
      flist (heap s2) (HEAD s2) [4096] /\
      forall ok, exists s3,
        tumalloc 5 ok 40 s2 = Done 4112 s3 /\ sbrk_calls s3 = 1%nat) /\
  (exists s1 s2,
      tumalloc 5 true 100 (now (empty_heap 4096)) = Done 4112 s1 /\
      tufree 5 4112 s1 = Done tt s2 /\
      flist (heap s2) (HEAD s2) [4096] /\
      exists s3,
        tumalloc 5 true 100 s2 = Done (brk s1 + sizeof_free_block) s3 /\
        sbrk_calls s3 = 2%nat /\ HEAD s3 = 4096).
Proof.
  split.
  - destruct (released_block_is_reused 5 100 40 (now (empty_heap 4096)))
      as (s1 & s2 & H1 & H2 & H3 & Hreuse & _);
      [by_eval | by_eval | by_eval | by_eval | by_eval | by_eval |].
    exists s1, s2. split; [exact H1|]. split; [exact H2|]. split; [exact H3|].
    apply Hreuse. by_eval.
  - destruct (released_block_is_reused 5 100 100 (now (empty_heap 4096)))
      as (s1 & s2 & H1 & H2 & H3 & _ & Hgrow);
      [by_eval | by_eval | by_eval | by_eval | by_eval | by_eval |].
    exists s1, s2. split; [exact H1|]. split; [exact H2|]. split; [exact H3|].
    apply Hgrow. by_eval.
Defined.

(** ** What a release leaves at the head of the list *)

Lemma coalesce_keeps_registers : forall fuel block s b s',
  coalesce fuel block s = Some (b, s') ->
  HEAD s' = HEAD s /\ brk s' = brk s /\ sbrk_calls s' = sbrk_calls s /\
  diag s' = diag s.
Proof.
  intros fuel block s b s'. unfold coalesce.
  destruct (block =? 0).
  - intros H. injection H as _ <-. auto.
  - destruct (find_prev fuel s block) as [prev|]; [|discriminate].
    destruct (find_next fuel s block) as [next|]; [|discriminate].
    destruct (merge_prev (heap s) prev block) as [b' m1].
    intros H. injection H as _ <-. cbn. auto.
Qed.

(** X10.  Every release that returns leaves the header of the released
    block as the first entry of the free list, whether or not coalescing
    has merged that block into a neighbour: [coalesce] writes sizes and
    [next] fields but never [HEAD].  The break, the count of [sbrk] calls
    and the diagnostics are as before. *)
Theorem release_puts_header_first :
  forall (fuel : nat) (ptr : Z) (s s' : state),
    ptr <> 0 ->
    tufree fuel ptr s = Done tt s' ->
    HEAD s' = wrap (ptr - sizeof_free_block) /\
    sentinel_of (heap s) (wrap (ptr - sizeof_free_block)) = MAGIC_NUMBER /\
    brk s' = brk s /\ sbrk_calls s' = sbrk_calls s /\ diag s' = diag s.
Proof.
  intros fuel ptr s s' Hp. unfold tufree.
  destruct (Z.eqb_spec ptr 0); [contradiction|].
  destruct (Z.eqb_spec (sentinel_of (heap s) (wrap (ptr - sizeof_free_block)))
                       MAGIC_NUMBER) as [Hg|Hg]; [|discriminate].
  destruct (coalesce fuel _ _) as [[b s0]|] eqn:E; [|discriminate].
  intros H. injection H as <-.
  destruct (coalesce_keeps_registers _ _ _ _ _ E) as (H1 & H2 & H3 & H4).
  rewrite H1, H2, H3, H4. cbn. auto.
Qed.

Lemma release_puts_header_first_witness :
  match tufree 5 4112 one_block with
  | Done _ s' =>
      HEAD s' = wrap (4112 - sizeof_free_block) /\
      sentinel_of (heap one_block) (wrap (4112 - sizeof_free_block))
      = MAGIC_NUMBER /\
      brk s' = brk one_block /\ sbrk_calls s' = sbrk_calls one_block /\
      diag s' = diag one_block
  | _ => False
  end.
Proof.
  destruct (tufree 5 4112 one_block) as [u s'| |] eqn:E.
  - destruct u.
    apply (release_puts_header_first 5 4112 one_block s'); [lia | exact E].
  - vm_compute in E. discriminate E.
  - vm_compute in E. discriminate E.
Defined.

(** X11.  Releasing the block [b] that starts where the first free entry
    [a] ends.  [coalesce] adds the size of [b] and one header to the size
    of [a], and that is all: [b] is the head of the list with [a] as its
    successor, and the extent of [a] now covers [b] to its last byte, so
    the list holds two entries that overlap. *)
Theorem release_behind_free_block_overlaps :
  forall (fuel : nat) (s1 : state) (a b sa sb hd : Z) (l : list Z),
    0 < a ->
    size_of (heap s1) a = sa ->
    size_of (heap s1) b = sb ->
    b = a + sizeof_free_block + sa ->
    b + sizeof_free_block + sb < WORD ->
    load 4 (heap s1) (b + sizeof_free_block + sb) = MAGIC_NUMBER ->
    HEAD s1 = a ->
    next_of (heap s1) a = hd ->
    hd <> b ->
    flist (heap s1) a (a :: l) ->
    Forall (fun x => x + sizeof_free_block <= b \/ b + sizeof_free_block <= x) l ->
    ~ In (b + sizeof_free_block + sb) l ->
    (S (S (length l)) < fuel)%nat ->
    exists s2,
      tufree fuel (b + sizeof_free_block) s1 = Done tt s2 /\
      walk 2 (heap s2) (HEAD s2) = [b; a] /\
      a < b /\
      block_end (heap s2) a = block_end (heap s2) b /\
      ~ disjoint_blocks (heap s2) [b; a].
Proof.
  intros fuel s1 a b sa sb hd l Ha Hsa Hsb Hb Hend Hg HH Hn Hne Hl Hap Hni Hf.
  pose proof (size_of_range (heap s1) a) as Hra.
  pose proof (size_of_range (heap s1) b) as Hrb.
  destruct (release_after_prev fuel s1 a b sa sb hd l Ha Hsa Hsb Hb Hend Hg HH
              Hn Hne Hl Hap Hni Hf)
    as (s2 & E & HH2 & Hsb2 & Hnb2 & Hsa2 & _).
  assert (Hab : a < b) by (unfold sizeof_free_block in *; lia).
  assert (Hends : block_end (heap s2) a = block_end (heap s2) b)
    by (unfold block_end; rewrite Hsa2, Hsb2; unfold sizeof_free_block in *; lia).
  exists s2. split; [exact E|]. split; [|split; [exact Hab|split; [exact Hends|]]].
  - cbn [walk]. rewrite HH2.
    destruct (Z.eqb_spec b 0); [lia|]. rewrite Hnb2.
    destruct (Z.eqb_spec a 0); [lia|]. reflexivity.
  - unfold disjoint_blocks. intros Hd.
    apply ForallOrdPairs_In with (x := b) (y := a) in Hd;
      [|left; reflexivity | right; left; reflexivity].
    pose proof (size_of_range (heap s2) b) as Hrb2.
    revert Hd Hends. unfold block_end, sizeof_free_block in *. lia.
Qed.

Lemma release_behind_free_block_overlaps_witness :
  exists s2,
    tufree 5 (4144 + sizeof_free_block)
      (state_of (tufree 5 4112 adjacent_pair) adjacent_pair) = Done tt s2 /\
    walk 2 (heap s2) (HEAD s2) = [4144; 4096] /\
    4096 < 4144 /\
    block_end (heap s2) 4096 = block_end (heap s2) 4144 /\
    ~ disjoint_blocks (heap s2) [4144; 4096].
Proof.
  apply (release_behind_free_block_overlaps 5
           (state_of (tufree 5 4112 adjacent_pair) adjacent_pair)
           4096 4144 32 MAGIC_NUMBER 1024 [1024]); by_eval.
  intros [H|[]]. discriminate H.
Defined.

(** ** Merging with the block that follows *)

(** X12.  [coalesce] on the head [block] of the free list when no entry
    ends at [block] and the entry [next] starts where [block] ends.
    [block] takes over the size of [next] plus one header and the
    successor of [next]; nothing outside the header of [block] is written.
    The list is then [block] followed by what came after [next]: the
    entries [l1] that stood between [block] and [next] are no longer on
    it. *)
Theorem forward_merge_drops_entries_between :
  forall (fuel : nat) (s : state) (block next : Z) (l1 l2 : list Z),
    0 < block ->
    HEAD s = block ->
    flist (heap s) block (block :: l1 ++ next :: l2) ->
    separated (block :: l1 ++ next :: l2) ->
    next = block_end (heap s) block ->
    block_end (heap s) next < WORD ->
    Forall (fun x => wrap (x + size_of (heap s) x + sizeof_free_block) <> block)
           (l1 ++ next :: l2) ->
    (S (length (l1 ++ next :: l2)) < fuel)%nat ->
    exists s',
      coalesce fuel block s = Some (block, s') /\
      flist (heap s') (HEAD s') (block :: l2) /\
      size_of (heap s') block
      = size_of (heap s) block + size_of (heap s) next + sizeof_free_block /\
      block_end (heap s') block = block_end (heap s) next /\
      (forall x, x < block \/ block + sizeof_free_block <= x ->
                 heap s' x = heap s x).
Proof.
  intros fuel s block next l1 l2 Hb HH Hl Hsep Hnext Hend Hno Hfuel.
  pose proof (size_of_range (heap s) block) as Hrb.
  pose proof (size_of_range (heap s) next) as Hrn.
  assert (Hnext' : next = block + sizeof_free_block + size_of (heap s) block)
    by exact Hnext.
  assert (Hendn : next + sizeof_free_block + size_of (heap s) next < WORD)
    by exact Hend.
  assert (Hwn : wrap (block + size_of (heap s) block + sizeof_free_block) = next)
    by (rewrite wrap_small; unfold sizeof_free_block in *; lia).
  assert (Hin : In next (block :: l1 ++ next :: l2))
    by (right; apply in_elt).
  assert (Hprev : find_prev fuel s block = Some 0).
  { unfold find_prev. rewrite HH.
    apply (find_prev_from_none _ _ (block :: l1 ++ next :: l2)).
    - exact Hl.
    - cbn [length] in *. lia.
    - constructor; [|exact Hno]. rewrite Hwn. unfold sizeof_free_block in *. lia. }
  assert (Hfn : find_next fuel s block = Some next).
  { unfold find_next. rewrite HH, Hwn.
    destruct (find_next_from_total (heap s) next _ block fuel Hl)
      as (r & Hr & [(_ & Hni)|(-> & _)]);
      [cbn [length] in *; lia | contradiction | exact Hr]. }
  destruct (flist_app (heap s) (block :: l1) (next :: l2) block Hl)
    as (h2 & Hl2 & _).
  cbn [flist] in Hl2. destruct Hl2 as (-> & Hnz & Hl2).
  assert (Hsepn : next + sizeof_free_block <= block \/
                  block + sizeof_free_block <= next)
    by (right; unfold sizeof_free_block in *; lia).
  assert (Hsep2 : forall x, In x l2 ->
            x + sizeof_free_block <= block \/ block + sizeof_free_block <= x).
  { intros x Hx.
    assert (Hxin : In x (block :: l1 ++ next :: l2))
      by (right; apply in_app_iff; right; right; exact Hx).
    assert (Hne : x <> block).
    { pose proof (flist_NoDup _ _ _ Hl) as Hnd.
      inversion Hnd as [|? ? Hnotin _]; subst. intros ->. apply Hnotin.
      apply in_app_iff. right. right. exact Hx. }
    apply (separated_In _ x block Hsep Hxin (or_introl eq_refl) Hne). }
  unfold coalesce. destruct (Z.eqb_spec block 0); [lia|].
  rewrite Hprev, Hfn. unfold merge_prev. rewrite Z.eqb_refl.
  unfold merge_next. destruct (Z.eqb_spec next 0); [contradiction|].
  rewrite Hwn, Z.eqb_refl.
  rewrite (wrap_small (size_of (heap s) next + sizeof_free_block))
    by (unfold sizeof_free_block in *; lia).
  rewrite (wrap_small (size_of (heap s) block + _))
    by (unfold sizeof_free_block in *; lia).
  assert (Hnn : next_of (set_size (heap s) block
                          (size_of (heap s) block
                           + (size_of (heap s) next + sizeof_free_block))) next
                = next_of (heap s) next).
  { fields. mem_frame. reflexivity. }
  rewrite Hnn.
  pose proof (next_of_range (heap s) next) as Hrnn.
  eexists. split; [reflexivity|].
  cbn [heap HEAD with_heap]. rewrite HH.
  assert (Hsize : size_of
                    (set_next
                       (set_size (heap s) block
                          (size_of (heap s) block
                           + (size_of (heap s) next + sizeof_free_block)))
                       block (next_of (heap s) next)) block
                  = size_of (heap s) block + size_of (heap s) next
                    + sizeof_free_block).
  { fields. mem_frame. rewrite load8_store8_same; [lia|].
    rewrite !Z.add_0_r in *. lia. }
  split; [|split; [exact Hsize|split]].
  - cbn [flist]. split; [reflexivity|]. split; [lia|].
    replace (next_of (set_next _ block (next_of (heap s) next)) block)
      with (next_of (heap s) next)
      by (fields; rewrite load8_store8_same; [reflexivity | assumption]).
    eapply flist_ext; [|exact Hl2].
    intros x Hx. specialize (Hsep2 x Hx).
    fields. mem_frame. reflexivity.
  - unfold block_end. rewrite Hsize. unfold sizeof_free_block in *. lia.
  - intros x Hx. fields. mem_frame. reflexivity.
Qed.

Lemma forward_merge_drops_entries_between_witness :
  exists s',
    coalesce 5 4096 three_free = Some (4096, s') /\
    flist (heap s') (HEAD s') (4096 :: []) /\
    size_of (heap s') 4096
    = size_of (heap three_free) 4096 + size_of (heap three_free) 4144
      + sizeof_free_block /\
    block_end (heap s') 4096 = block_end (heap three_free) 4144 /\
    (forall x, x < 4096 \/ 4096 + sizeof_free_block <= x ->
               heap s' x = heap three_free x).
Proof.
  apply (forward_merge_drops_entries_between 5 three_free 4096 4144 [8192] []);
    by_eval.
Defined.

(** ** Releasing a zero-initialised block *)

(** X13.  In the state in which [tucalloc] returns, for a product of at
    most [2^64 - 20] modulo [2^64] with the break and [HEAD] inside the
    address space: [tucalloc] has cleared the payload and nothing that
    [tufree] looks at.  Behind a non-null result whose payload lies inside
    the address space, the header still records the product of the two
    arguments, the sentinel is in place, every payload byte is zero, and
    a release made in that state does not report a corrupted heap.
    Nothing is said of a release after further calls. *)
Theorem zeroed_block_is_releasable :
  forall (fuel fuel2 : nat) (ok : bool) (num size : Z) (s : state) (q : Z)
         (s1 : state),
    wrap (num * size) <= WORD - (sizeof_free_block + sizeof_int) ->
    0 <= brk s < WORD ->
    0 <= HEAD s < WORD ->
    tucalloc fuel ok num size s = Done q s1 ->
    q <> 0 ->
    q + wrap (num * size) <= WORD ->
    size_of (heap s1) (wrap (q - sizeof_free_block)) = wrap (num * size) /\
    sentinel_of (heap s1) (wrap (q - sizeof_free_block)) = MAGIC_NUMBER /\
    (forall i, 0 <= i < wrap (num * size) -> heap s1 (q + i) = 0) /\
    (forall s2, tufree fuel2 q s1 <> Aborted s2).
Proof.
  intros fuel fuel2 ok num size s q s1 Htot Hb HH E Hq Hfit.
  pose proof (wrap_range (num * size)) as Hr.
  revert E. unfold tucalloc. cbv zeta.
  remember (wrap (num * size)) as t eqn:Et. clear Et.
  destruct (tumalloc fuel ok t s) as [p s0| |] eqn:E0;
    [|discriminate|discriminate].
  destruct (Z.eqb_spec p 0) as [Hp|Hp].
  - intros H. injection H as H _. congruence.
  - intros H. injection H as -> <-.
    destruct (tumalloc_releasable fuel ok t s q s0)
      as (Hs & Hg & hdr & Hh & Eq & Eh); [lia | exact Hb | exact HH | exact E0
                                          | exact Hq |].
    cbn [heap with_heap].
    assert (Hhdr : hdr + off_next <= q \/ q + t <= hdr)
      by (subst q; unfold off_next; wrap_lia).
    assert (Hsen : wrap (hdr + sizeof_free_block + t) + 4 <= q \/
                   q + t <= wrap (hdr + sizeof_free_block + t))
      by (subst q; wrap_lia).
    assert (Hsize : size_of (memset (heap s0) q 0 t)
                            (wrap (q - sizeof_free_block)) = t).
    { rewrite <- Hs at 2. apply size_of_frame. intros y Hy.
      rewrite Eh in Hy. unfold memset.
      destruct (Z.leb_spec q y); destruct (Z.ltb_spec y (q + t));
        cbn [andb]; try reflexivity.
      exfalso. lia. }
    assert (Hguard : sentinel_of (memset (heap s0) q 0 t)
                                 (wrap (q - sizeof_free_block))
                     = MAGIC_NUMBER).
    { rewrite <- Hg. unfold sentinel_of. rewrite Hsize, Hs. f_equal.
      apply load_ext. intros y Hy. cbn in Hy. unfold memset.
      destruct (Z.leb_spec q y); destruct (Z.ltb_spec y (q + t));
        cbn [andb]; try reflexivity.
      exfalso. rewrite Eh in Hy. lia. }
    split; [exact Hsize|]. split; [exact Hguard|]. split.
    + intros i Hi. unfold memset.
      destruct (Z.leb_spec q (q + i)); [|lia].
      destruct (Z.ltb_spec (q + i) (q + t)); [|lia].
      reflexivity.
    + intros s2. unfold tufree. destruct (Z.eqb_spec q 0); [contradiction|].
      cbn [heap with_heap]. rewrite Hguard, Z.eqb_refl.
      destruct (coalesce fuel2 _ _) as [[? ?]|]; discriminate.
Qed.

Lemma zeroed_block_is_releasable_witness :
  match tucalloc 5 true 10 4 two_free with
  | Done q s1 =>
      size_of (heap s1) (wrap (q - sizeof_free_block)) = wrap (10 * 4) /\
      sentinel_of (heap s1) (wrap (q - sizeof_free_block)) = MAGIC_NUMBER /\
      (forall i, 0 <= i < wrap (10 * 4) -> heap s1 (q + i) = 0) /\
      (forall s2, tufree 5 q s1 <> Aborted s2)
  | _ => False
  end.
Proof.
  destruct (tucalloc 5 true 10 4 two_free) as [q s1| |] eqn:E.
  - assert (Hq : q = 8208).
    { assert (E' : match tucalloc 5 true 10 4 two_free with
                   | Done p _ => p = 8208 | _ => False end)
        by (vm_compute; reflexivity).
      rewrite E in E'. exact E'. }
    apply (zeroed_block_is_releasable 5 5 true 10 4 two_free q s1);
      [by_eval | by_eval | by_eval | exact E | subst q; discriminate
       | subst q; by_eval].
  - vm_compute in E. discriminate E.
  - vm_compute in E. discriminate E.
Defined.

(** ** A request close to the size of the address space *)

(** X14.  [do_alloc] adds a header and a sentinel to the request without
    a check for overflow.  For a request that is [d] bytes short of
    [2^64 - 20], on an empty free list and with a system that grants what
    it is asked, the increment handed to [sbrk] wraps to [2^64 - d]: the
    break goes back by [d] bytes.  [tumalloc] still returns the old break
    plus sixteen, writes a header that records the request at the old
    break, which is no longer below the break, and writes the sentinel
    [4 + d] bytes below the old break; the block the header describes
    reaches the end of the address space or beyond. *)
Theorem huge_request_moves_break_back :
  forall (fuel : nat) (size d : Z) (s : state),
    HEAD s = 0 ->
    0 <= d ->
    size = WORD - (sizeof_free_block + sizeof_int) - d ->
    sizeof_int + d <= brk s ->
    brk s + sizeof_free_block < WORD ->
    exists s1,
      tumalloc fuel true size s = Done (brk s + sizeof_free_block) s1 /\
      brk s1 = brk s - d /\
      size_of (heap s1) (brk s) = size /\
      load 4 (heap s1) (brk s - sizeof_int - d) = MAGIC_NUMBER /\
      WORD <= block_end (heap s1) (brk s).
Proof.
  intros fuel size d s HH Hd Hsize Hlow Hhigh.
  unfold tumalloc. rewrite HH, Z.eqb_refl.
  unfold extend_heap, do_alloc, sbrk. cbn [fst snd].
  destruct (Z.eqb_spec (brk s) (WORD - 1));
    [unfold sizeof_free_block, sizeof_int in *; lia|].
  cbn [heap HEAD brk sbrk_calls diag with_heap].
  destruct (Z.eqb_spec (brk s) 0);
    [unfold sizeof_free_block, sizeof_int in *; lia|].
  rewrite (wrap_small (brk s + sizeof_free_block))
    by (unfold sizeof_free_block, sizeof_int in *; lia).
  replace (wrap (brk s + sizeof_free_block + size))
    with (brk s - sizeof_int - d) by (subst size; wrap_lia).
  eexists. split; [reflexivity|].
  cbn [heap HEAD brk sbrk_calls diag with_heap].
  split; [subst size; wrap_lia|].
  assert (Hs : size_of
                 (store 4 (set_next (set_size (heap s) (brk s) size) (brk s) 0)
                    (brk s - sizeof_int - d) MAGIC_NUMBER) (brk s) = size).
  { fields. rewrite Z.add_0_r. mem_frame.
    apply load8_store8_same. unfold WORD in *. lia. }
  split; [exact Hs|]. split.
  - apply load4_store4_same. unfold MAGIC_NUMBER. lia.
  - unfold block_end. rewrite Hs. unfold sizeof_free_block, sizeof_int in *. lia.
Qed.

Lemma huge_request_moves_break_back_witness :
  exists s1,
    tumalloc 5 true (WORD - (sizeof_free_block + sizeof_int) - 8)
             (now (empty_heap 4096))
    = Done (brk (now (empty_heap 4096)) + sizeof_free_block) s1 /\
    brk s1 = brk (now (empty_heap 4096)) - 8 /\
    size_of (heap s1) (brk (now (empty_heap 4096)))
    = WORD - (sizeof_free_block + sizeof_int) - 8 /\
    load 4 (heap s1) (brk (now (empty_heap 4096)) - sizeof_int - 8)
    = MAGIC_NUMBER /\
    WORD <= block_end (heap s1) (brk (now (empty_heap 4096))).
Proof.
  apply (huge_request_moves_break_back 5
           (WORD - (sizeof_free_block + sizeof_int) - 8) 8
           (now (empty_heap 4096))); by_eval.
Defined.

(** ** Merging with both neighbours *)

Lemma find_prev_from_at : forall m block A p B h fuel,
  flist m h (A ++ p :: B) ->
  Forall (fun x => wrap (x + size_of m x + sizeof_free_block) <> block) A ->
  wrap (p + size_of m p + sizeof_free_block) = block ->
  (length A < fuel)%nat ->
  find_prev_from fuel m h block = Some p.
Proof.
  induction A as [|x A IH]; intros p B h fuel Hl Hno Hp Hf;
    cbn [app flist] in Hl; destruct Hl as (-> & Hx & Hl);
    (destruct fuel as [|f]; [inversion Hf|]); cbn [find_prev_from].
  - destruct (Z.eqb_spec p 0); [contradiction|].
    rewrite Hp, Z.eqb_refl. reflexivity.
  - destruct (Z.eqb_spec x 0); [contradiction|].
    apply Forall_cons_iff in Hno. destruct Hno as (Hnx & Hrest).
    destruct (Z.eqb_spec (wrap (x + size_of m x + sizeof_free_block)) block);
      [contradiction|].
    apply (IH p B); [exact Hl | exact Hrest | exact Hp
                     | cbn [length] in Hf; lia].
Qed.

(** A list of [m'] that starts like a list of [m] follows it as long as
    the [next] fields agree. *)
Lemma flist_through : forall Q m m' h p t l',
  flist m h (Q ++ p :: t) ->
  (forall x, In x Q -> next_of m' x = next_of m x) ->
  flist m' h l' ->
  exists l'', l' = Q ++ l'' /\ flist m' p l''.
Proof.
  induction Q as [|x Q IH]; intros m m' h p t l' Hl Hag Hl';
    cbn [app flist] in Hl; destruct Hl as (-> & Hx & Hl).
  - exists l'. split; [reflexivity | exact Hl'].
  - destruct l' as [|y l1']; cbn [flist] in Hl'; [contradiction|].
    destruct Hl' as (<- & _ & Hl').
    rewrite (Hag x (or_introl eq_refl)) in Hl'.
    destruct (IH m m' _ p t l1' Hl (fun z Hz => Hag z (or_intror Hz)) Hl')
      as (l'' & -> & Hp).
    exists l''. split; [reflexivity | exact Hp].
Qed.

(** X15.  [coalesce] on the head [block] of the free list when both
    neighbours are on the list and the next one comes first.  The previous
    neighbour takes over the sizes of [block] and of [next] and two
    headers, and then the successor of [next]; as [next] stands before it
    on the list, its [next] field now points back: the list has become a
    cycle and no walk along it reaches [NULL]. *)
Theorem double_merge_makes_list_cyclic :
  forall (fuel : nat) (s : state) (block prev next : Z) (l0 l1 l2 : list Z),
    0 < prev ->
    HEAD s = block ->
    flist (heap s) block (block :: l0 ++ next :: l1 ++ prev :: l2) ->
    separated (block :: l0 ++ next :: l1 ++ prev :: l2) ->
    block = block_end (heap s) prev ->
    next = block_end (heap s) block ->
    block_end (heap s) next < WORD ->
    Forall (fun x => wrap (x + size_of (heap s) x + sizeof_free_block) <> block)
           (l0 ++ next :: l1) ->
    (S (length (l0 ++ next :: l1 ++ prev :: l2)) < fuel)%nat ->
    exists s',
      coalesce fuel block s = Some (prev, s') /\
      HEAD s' = block /\
      size_of (heap s') prev
      = size_of (heap s) prev + size_of (heap s) block + size_of (heap s) next
        + 2 * sizeof_free_block /\
      next_of (heap s') prev = next_of (heap s) next /\
      In (next_of (heap s') prev) (l1 ++ [prev]) /\
      (forall x, x < prev \/ prev + sizeof_free_block <= x ->
                 heap s' x = heap s x) /\
      (forall l', ~ flist (heap s') (HEAD s') l').
Proof.
  intros fuel s block prev next l0 l1 l2 Hp HH Hl Hsep Hblock Hnext Hend Hno Hfuel.
  pose proof (size_of_range (heap s) prev) as Hrp.
  pose proof (size_of_range (heap s) block) as Hrb.
  pose proof (size_of_range (heap s) next) as Hrn.
  pose proof (next_of_range (heap s) next) as Hrnn.
  unfold block_end in Hblock, Hnext, Hend.
  pose proof (flist_NoDup _ _ _ Hl) as Hnd.
  assert (Hwp : wrap (prev + size_of (heap s) prev + sizeof_free_block) = block)
    by (rewrite wrap_small; unfold sizeof_free_block in *; lia).
  assert (Hwb : wrap (block + size_of (heap s) block + sizeof_free_block) = next)
    by (rewrite wrap_small; unfold sizeof_free_block in *; lia).
  assert (Hprev : find_prev fuel s block = Some prev).
  { unfold find_prev. rewrite HH.
    apply (find_prev_from_at (heap s) block (block :: l0 ++ next :: l1) prev l2).
    - cbn [app]. rewrite <- app_assoc. exact Hl.
    - constructor; [|exact Hno]. rewrite Hwb. unfold sizeof_free_block in *. lia.
    - exact Hwp.
    - revert Hfuel. cbn [length]. rewrite !length_app. cbn [length].
      rewrite length_app. cbn [length]. lia. }
  assert (Hfn : find_next fuel s block = Some next).
  { unfold find_next. rewrite HH, Hwb.
    destruct (find_next_from_total (heap s) next _ block fuel Hl)
      as (r & Hr & [(_ & Hni)|(-> & _)]);
      [cbn [length] in *; lia | | exact Hr].
    exfalso. apply Hni. right. apply in_elt. }
  (* the successor of [next] *)
  destruct (flist_app (heap s) (block :: l0) (next :: l1 ++ prev :: l2) block Hl)
    as (h2 & Hl2 & _).
  cbn [flist] in Hl2. destruct Hl2 as (-> & Hnz & Hl2).
  assert (Hc : In (next_of (heap s) next) (l1 ++ [prev]) /\
               next_of (heap s) next <> 0).
  { destruct l1 as [|y l1']; cbn [app flist] in Hl2; destruct Hl2 as (E & Hy & _);
      rewrite E; split; try assumption; left; reflexivity. }
  destruct Hc as (Hcin & Hcnz).
  (* the successor of [prev] is not [block] *)
  assert (Hpn : next_of (heap s) prev <> block).
  { assert (Hlp : flist (heap s) block
                    ((block :: l0 ++ next :: l1) ++ prev :: l2))
      by (cbn [app]; rewrite <- app_assoc; exact Hl).
    destruct (flist_app _ _ _ _ Hlp) as (h3 & Hl3 & _).
    cbn [flist] in Hl3. destruct Hl3 as (-> & _ & Hl3).
    destruct (flist_head _ _ _ Hl3) as [E|Hin];
      [rewrite E; unfold sizeof_free_block in *; lia|].
    intros E. rewrite E in Hin.
    inversion Hnd as [|? ? Hnotin _]; subst. apply Hnotin.
    apply in_app_iff. right. right. apply in_app_iff. right. right. exact Hin. }
  assert (Hsepx : forall x, In x (block :: l0 ++ next :: l1) ->
            x + sizeof_free_block <= prev \/ prev + sizeof_free_block <= x).
  { intros x Hx.
    assert (Hxin : In x ((block :: l0 ++ next :: l1) ++ prev :: l2))
      by (apply in_app_iff; left; exact Hx).
    assert (Hpin : In prev ((block :: l0 ++ next :: l1) ++ prev :: l2))
      by apply in_elt.
    assert (Hnd' : NoDup ((block :: l0 ++ next :: l1) ++ prev :: l2))
      by (cbn [app]; rewrite <- app_assoc; exact Hnd).
    assert (Hne : x <> prev).
    { intros ->. apply NoDup_remove_2 in Hnd'. apply Hnd'.
      apply in_app_iff. left. exact Hx. }
    assert (Hsep' : separated ((block :: l0 ++ next :: l1) ++ prev :: l2))
      by (cbn [app]; rewrite <- app_assoc; exact Hsep).
    apply (separated_In _ x prev Hsep' Hxin Hpin Hne). }
  assert (Hsepn : next + sizeof_free_block <= prev \/
                  prev + sizeof_free_block <= next)
    by (right; unfold sizeof_free_block in *; lia).
  unfold coalesce.
  destruct (Z.eqb_spec block 0); [unfold sizeof_free_block in *; lia|].
  rewrite Hprev, Hfn. unfold merge_prev.
  destruct (Z.eqb_spec prev 0); [lia|].
  rewrite Hwp, Z.eqb_refl.
  rewrite (wrap_small (size_of (heap s) block + sizeof_free_block))
    by (unfold sizeof_free_block in *; lia).
  rewrite (wrap_small (size_of (heap s) prev + _))
    by (unfold sizeof_free_block in *; lia).
  remember (size_of (heap s) prev
            + (size_of (heap s) block + sizeof_free_block)) as sz1 eqn:Esz1.
  assert (Hn1 : next_of (set_size (heap s) prev sz1) prev = next_of (heap s) prev)
    by (fields; mem_frame; reflexivity).
  rewrite Hn1. destruct (Z.eqb_spec (next_of (heap s) prev) block);
    [contradiction|].
  unfold merge_next. destruct (Z.eqb_spec next 0); [contradiction|].
  assert (Hs1 : size_of (set_size (heap s) prev sz1) prev = sz1)
    by (fields; rewrite Z.add_0_r; apply load8_store8_same;
        unfold WORD in *; lia).
  assert (Hsn1 : size_of (set_size (heap s) prev sz1) next = size_of (heap s) next)
    by (fields; mem_frame; reflexivity).
  rewrite Hs1, Hsn1.
  replace (wrap (prev + sz1 + sizeof_free_block)) with next
    by (rewrite wrap_small; unfold sizeof_free_block in *; lia).
  rewrite Z.eqb_refl.
  rewrite (wrap_small (size_of (heap s) next + sizeof_free_block))
    by (unfold sizeof_free_block in *; lia).
  rewrite (wrap_small (sz1 + _)) by (unfold sizeof_free_block in *; lia).
  remember (sz1 + (size_of (heap s) next + sizeof_free_block)) as sz2 eqn:Esz2.
  assert (Hnn : next_of (set_size (set_size (heap s) prev sz1) prev sz2) next
                = next_of (heap s) next)
    by (fields; mem_frame; reflexivity).
  rewrite Hnn.
  remember (set_next (set_size (set_size (heap s) prev sz1) prev sz2) prev
              (next_of (heap s) next)) as m' eqn:Em'.
  assert (Hnp' : next_of m' prev = next_of (heap s) next)
    by (subst m'; fields; apply load8_store8_same; assumption).
  assert (Hframe : forall x, x < prev \/ prev + sizeof_free_block <= x ->
                             m' x = heap s x)
    by (intros x Hx; subst m'; fields; mem_frame; reflexivity).
  eexists. split; [reflexivity|].
  cbn [heap HEAD with_heap].
  split; [exact HH|]. split; [|split; [exact Hnp'|split; [|split; [exact Hframe|]]]].
  - subst m'. fields. rewrite !Z.add_0_r in *. mem_frame.
    rewrite load8_store8_same; [lia | unfold WORD in *; lia].
  - rewrite Hnp'. exact Hcin.
  - intros l' Hl'. rewrite HH in Hl'.
    assert (Hlq : flist (heap s) block
                    ((block :: l0 ++ next :: l1) ++ prev :: l2))
      by (cbn [app]; rewrite <- app_assoc; exact Hl).
    destruct (flist_through (block :: l0 ++ next :: l1) (heap s) m' block prev l2
                l' Hlq) as (l'' & -> & Hpl).
    + intros x Hx. apply next_of_frame. intros y Hy. apply Hframe.
      specialize (Hsepx x Hx). unfold off_next, sizeof_free_block in *. lia.
    + exact Hl'.
    + destruct l'' as [|y l3]; cbn [flist] in Hpl; [lia|].
      destruct Hpl as (<- & _ & Hpl). rewrite Hnp' in Hpl.
      destruct l3 as [|c l4]; cbn [flist] in Hpl; [contradiction|].
      destruct Hpl as (<- & _ & _).
      pose proof (flist_NoDup _ _ _ Hl') as Hnd'.
      replace ((block :: l0 ++ next :: l1) ++ prev :: next_of (heap s) next :: l4)
        with (((block :: l0 ++ next :: l1) ++ [prev])
              ++ next_of (heap s) next :: l4) in Hnd'
        by (rewrite <- app_assoc; reflexivity).
      apply NoDup_remove_2 in Hnd'. apply Hnd'.
      apply in_app_iff. left. apply in_app_iff in Hcin.
      destruct Hcin as [Hin|Hin].
      * apply in_app_iff. left. right. apply in_app_iff. right. right. exact Hin.
      * apply in_app_iff. right. exact Hin.
Qed.

Lemma double_merge_makes_list_cyclic_witness :
  exists s',
    coalesce 5 4144 both_neighbours = Some (4096, s') /\
    HEAD s' = 4144 /\
    size_of (heap s') 4096
    = size_of (heap both_neighbours) 4096 + size_of (heap both_neighbours) 4144
      + size_of (heap both_neighbours) 4208 + 2 * sizeof_free_block /\
    next_of (heap s') 4096 = next_of (heap both_neighbours) 4208 /\
    In (next_of (heap s') 4096) ([] ++ [4096]) /\
    (forall x, x < 4096 \/ 4096 + sizeof_free_block <= x ->
               heap s' x = heap both_neighbours x) /\
    (forall l', ~ flist (heap s') (HEAD s') l').
Proof.
  apply (double_merge_makes_list_cyclic 5 both_neighbours 4144 4096 4208
           [] [] []); by_eval.
Defined.
